(** * Loris real-time synthesizer: block-wise rendering of partials

    A shallow embedding of [RealTimeSynthesizer] (ThirdParty/Loris/src/
    RealtimeSynthesizer.{h,cpp}): [setup], [setSampleRate], [reset],
    [synthesizeNext] and [synthesize], together with the properties of the
    block renderer that the design document states, further properties
    that the code shows, and [resetSynth] of the earlier header
    (Loris/src/RealtimeSynthesizer.h).

    Conventions.
    - [double] and [float] values are exact rationals ([Q]); rounding is not
      modelled.  Comparisons and the conversion to a sample index are the
      ones the code performs.
    - [int] values are integers in [Z]; signed arithmetic that does not
      overflow has its mathematical value (overflow is undefined in C++ and
      is not given a meaning here).  Unsigned arithmetic on [index_type]
      ([unsigned long], 64 bit) and the narrowing to [int] wrap around, and
      the wrap-around is written out.
    - [std::vector<T>] is a list; the queue of [PartialStruct*] that point
      into the vector [partials] is a list of positions in that list, so a
      write through a queued pointer is a write to the vector element. *)

From Stdlib Require Import ZArith QArith Qround Qminmax Lia.
From stdpp Require Import base tactics option list.

Local Open Scope Z_scope.

(** ** Numbers *)

Module Num.

(** [a < b] on doubles. *)
Definition Qltb (a b : Q) : bool := negb (Qle_bool b a).

(** [a == 0.] on doubles. *)
Definition Qis_zero (a : Q) : bool := Qeq_bool a 0.

(** Truncation toward zero, the value of a floating to integer
    conversion. *)
Definition Qtrunc (x : Q) : Z := Z.quot (Qnum x) (Zpos (Qden x)).

(** [index_type(x)] for a double [x]: truncation, as a 64-bit unsigned
    value.  (For [x <= -1] the conversion is undefined in C++; the value
    given here is the two's complement one.) *)
Definition index_of_double (x : Q) : Z := Qtrunc x mod 2 ^ 64.

(** An [int] converted to [index_type]. *)
Definition index_of_int (n : Z) : Z := n mod 2 ^ 64.

(** An [index_type] narrowed to [int]. *)
Definition int_of_index (u : Z) : Z :=
  let r := u mod 2 ^ 32 in if r <? 2 ^ 31 then r else r - 2 ^ 32.

(** [a - b] in [index_type]. *)
Definition index_sub (a b : Z) : Z := (a - b) mod 2 ^ 64.

(** [index_type( (t * srate) + 0.5 )], "cheap rounding". *)
Definition sample_index (t srate : Q) : Z :=
  index_of_double (t * srate + (1 # 2))%Q.

(** [const double Pi = 3.14159265358979324]. *)
Definition Pi : Q := (314159265358979324 # 100000000000000000)%Q.

End Num.
Export Num.

(** ** Data model *)

(** [Loris::Breakpoint]: frequency, amplitude, bandwidth and phase. *)
Record Breakpoint : Type := mkBreakpoint {
  _frequency : Q;
  _amplitude : Q;
  _bandwidth : Q;
  _phase : Q
}.

(** The default-constructed Breakpoint. *)
Definition Breakpoint0 : Breakpoint := mkBreakpoint 0 0 0 0.

Definition set_phase (ph : Q) (b : Breakpoint) : Breakpoint :=
  mkBreakpoint (_frequency b) (_amplitude b) (_bandwidth b) ph.

(** A [Loris::Partial] as this file uses it: its breakpoints keyed by time,
    in the order of the container. *)
Definition Partial : Type := list (Q * Breakpoint).
Definition PartialList : Type := list Partial.

Module SourcePartial.
Definition numBreakpoints (it : Partial) : Z := Z.of_nat (length it).
(** The time of the first breakpoint. *)
Definition startTime (it : Partial) : Q := (hd (0%Q, Breakpoint0) it).1.
(** The time of the last breakpoint. *)
Definition endTime (it : Partial) : Q := (List.last it (0%Q, Breakpoint0)).1.
End SourcePartial.

(** [enum { NoBreakpointProcessed = 0, FirstBreakpoint }]. *)
Definition NoBreakpointProcessed : Z := 0.

(** [PartialStruct::SynthesizerState]. *)
Record SynthesizerState : Type := mkState {
  currentSamp : Z;
  lastBreakpointIdx : Z;
  envelope : Breakpoint;
  prevFrequency : Q
}.

Definition SynthesizerState0 : SynthesizerState :=
  mkState 0 NoBreakpointProcessed Breakpoint0 0.

(** [PartialStruct]. *)
Record PartialStruct : Type := mkPartialStruct {
  startTime : Q;
  endTime : Q;
  numBreakpoints : Z;
  breakpoints : list (Q * Breakpoint);
  state : SynthesizerState
}.

Definition PartialStruct0 : PartialStruct :=
  mkPartialStruct 0 0 0 [] SynthesizerState0.

Definition with_state (st : SynthesizerState) (p : PartialStruct) : PartialStruct :=
  mkPartialStruct (startTime p) (endTime p) (numBreakpoints p) (breakpoints p) st.

Definition with_breakpoints (bps : list (Q * Breakpoint)) (p : PartialStruct)
  : PartialStruct :=
  mkPartialStruct (startTime p) (endTime p) (numBreakpoints p) bps (state p).

(** [p.breakpoints[i]] for an [int] index. *)
Definition breakpoint_at (p : PartialStruct) (i : Z) : Q * Breakpoint :=
  default (0%Q, Breakpoint0) (breakpoints p !! Z.to_nat i).

(** ** The caller's sample buffer *)

(** A [std::vector<float>]: the cells of its allocation (as many as its
    capacity) and its size. *)
Record FloatVector : Type := mkVector {
  cells : list Q;
  vsize : Z
}.

Module Buffer.

Definition capacity (v : FloatVector) : Z := Z.of_nat (length (cells v)).

(** The value of a cell that was allocated and never written. *)
Definition indeterminate : Q := 0%Q.

(** [v.reserve(n)]: when the capacity is less than [n], a new allocation
    of [n] cells that holds the [size()] elements of the old one. *)
Definition reserve (n : Z) (v : FloatVector) : FloatVector :=
  if capacity v <? n then
    mkVector (take (Z.to_nat (vsize v)) (cells v)
                ++ replicate (Z.to_nat n - Z.to_nat (vsize v)) indeterminate)
             (vsize v)
  else v.

(** [memset(data, 0, bytes)] on [float] cells of [sizeof_float] bytes:
    the cells that the byte range covers become [0.0f].  A store past the
    last cell is undefined in C++ and has no effect here; [memset_overrun]
    tells whether there is one. *)
Definition sizeof_float : Z := 4.

Definition memset_cells (bytes : Z) : Z := bytes / sizeof_float.

Definition memset0 (bytes : Z) (d : list Q) : list Q :=
  imap (fun k x => if Z.of_nat k <? memset_cells bytes then 0%Q else x) d.


(** The samples [ys] added into the cells from position [off] on
    ([buffer[off + k] += ys[k]]); positions outside the allocation are
    left out. *)
Definition accumulate (off : Z) (ys : list Q) (d : list Q) : list Q :=
  imap (fun k x =>
          if (off <=? Z.of_nat k) && (Z.of_nat k <? off + Z.of_nat (length ys))
          then (x + default 0%Q (ys !! Z.to_nat (Z.of_nat k - off)))%Q
          else x) d.

End Buffer.

(** ** Collaborators

    The oscillator, the null-breakpoint helpers and the size of a pointer on
    the target are not part of the synthesizer; the synthesizer is written
    against their interfaces. *)

(** Modelled from the spec: the oscillator service ([RealtimeOscillator],
    member [m_osc]).  Given a target breakpoint, a number of samples and
    the sample rate, [oscillate] produces that many samples, which are added
    into the window it is handed, and moves to a new state; it exposes its
    current amplitude and phase and an envelope snapshot, and accepts a
    phase and an envelope snapshot. *)
Class RealtimeOscillator (Osc : Type) : Type := {
  resetEnvelopes : Breakpoint -> Q -> Osc -> Osc;
  restoreEnvelopes : Breakpoint -> Osc -> Osc;
  envelopes : Osc -> Breakpoint;
  amplitude : Osc -> Q;
  phase : Osc -> Q;
  setPhase : Q -> Osc -> Osc;
  oscillate : Z -> Breakpoint -> Q -> Osc -> Osc * list Q
}.

(** Modelled from the spec: boundary-breakpoint synthesis
    ([BreakpointUtils::makeNullBefore], [makeNullAfter]): from a breakpoint
    and a time offset, a breakpoint for the fade. *)
Class BreakpointUtils : Type := {
  makeNullBefore : Breakpoint -> Q -> Breakpoint;
  makeNullAfter : Breakpoint -> Q -> Breakpoint
}.

(** The size of a pointer to [float] on the target, in bytes. *)
Class Target : Type := { sizeof_float_ptr : Z }.

(** ** The synthesizer *)

(** The members of [RealTimeSynthesizer] (with [m_srateHz] and
    [m_fadeTimeSec] of its base class). *)
Record RealTimeSynthesizer (Osc : Type) : Type := mkSynth {
  m_osc : Osc;
  m_srateHz : Q;
  m_fadeTimeSec : Q;
  OneOverSrate : Q;
  pitch : Q;
  partials : list PartialStruct;
  partialIdx : Z;
  processedSamples : Z;
  partialsBeingProcessed : list nat;
  buffer : FloatVector
}.
Arguments mkSynth {Osc}.
Arguments m_osc {Osc}.
Arguments m_srateHz {Osc}.
Arguments m_fadeTimeSec {Osc}.
Arguments OneOverSrate {Osc}.
Arguments pitch {Osc}.
Arguments partials {Osc}.
Arguments partialIdx {Osc}.
Arguments processedSamples {Osc}.
Arguments partialsBeingProcessed {Osc}.
Arguments buffer {Osc}.

Section Synthesizer.
Context {Osc : Type} {osc_ops : RealtimeOscillator Osc}
  {null_ops : BreakpointUtils} {target : Target}.

Abbreviation Synth := (RealTimeSynthesizer Osc).

(** Member updates. *)
Definition set_osc (o : Osc) (s : Synth) : Synth :=
  mkSynth o (m_srateHz s) (m_fadeTimeSec s) (OneOverSrate s) (pitch s)
    (partials s) (partialIdx s) (processedSamples s)
    (partialsBeingProcessed s) (buffer s).
Definition set_rate (r oneOver : Q) (s : Synth) : Synth :=
  mkSynth (m_osc s) r (m_fadeTimeSec s) oneOver (pitch s)
    (partials s) (partialIdx s) (processedSamples s)
    (partialsBeingProcessed s) (buffer s).
Definition set_pitch (f : Q) (s : Synth) : Synth :=
  mkSynth (m_osc s) (m_srateHz s) (m_fadeTimeSec s) (OneOverSrate s) f
    (partials s) (partialIdx s) (processedSamples s)
    (partialsBeingProcessed s) (buffer s).
Definition set_partials (ps : list PartialStruct) (s : Synth) : Synth :=
  mkSynth (m_osc s) (m_srateHz s) (m_fadeTimeSec s) (OneOverSrate s) (pitch s)
    ps (partialIdx s) (processedSamples s)
    (partialsBeingProcessed s) (buffer s).
Definition set_partialIdx (i : Z) (s : Synth) : Synth :=
  mkSynth (m_osc s) (m_srateHz s) (m_fadeTimeSec s) (OneOverSrate s) (pitch s)
    (partials s) i (processedSamples s)
    (partialsBeingProcessed s) (buffer s).
Definition set_processedSamples (n : Z) (s : Synth) : Synth :=
  mkSynth (m_osc s) (m_srateHz s) (m_fadeTimeSec s) (OneOverSrate s) (pitch s)
    (partials s) (partialIdx s) n
    (partialsBeingProcessed s) (buffer s).
Definition set_queue (q : list nat) (s : Synth) : Synth :=
  mkSynth (m_osc s) (m_srateHz s) (m_fadeTimeSec s) (OneOverSrate s) (pitch s)
    (partials s) (partialIdx s) (processedSamples s) q (buffer s).
Definition set_buffer (v : FloatVector) (s : Synth) : Synth :=
  mkSynth (m_osc s) (m_srateHz s) (m_fadeTimeSec s) (OneOverSrate s) (pitch s)
    (partials s) (partialIdx s) (processedSamples s)
    (partialsBeingProcessed s) v.

(** [clearPartialsBeingProcessed]: pop until the queue is empty. *)
Definition clearPartialsBeingProcessed (s : Synth) : Synth := set_queue [] s.

(** [reset]. *)
Definition reset (s : Synth) : Synth :=
  clearPartialsBeingProcessed (set_processedSamples 0 (set_partialIdx 0 s)).

(** [setSampleRate]. *)
Definition setSampleRate (rate : Q) (s : Synth) : Synth :=
  set_rate rate (1 / rate)%Q s.

(** The body of the loop of [setup] for one source partial: [None] when
    the partial is skipped ([continue]), the [PartialStruct] that is
    pushed otherwise. *)
Definition prepare (fade : Q) (it : Partial) : option PartialStruct :=
  if SourcePartial.numBreakpoints it <=? 0 then None
  else
    let start := if Qltb fade (SourcePartial.startTime it)
                 then (SourcePartial.startTime it - fade)%Q else 0%Q in
    let first := hd (0%Q, Breakpoint0) it in
    let final := List.last it (0%Q, Breakpoint0) in
    Some (mkPartialStruct
            start
            (SourcePartial.endTime it + fade)%Q
            (SourcePartial.numBreakpoints it + 2)
            ((start, makeNullBefore first.2 (SourcePartial.startTime it - start)%Q)
               :: it
               ++ [((final.1 + fade)%Q, makeNullAfter final.2 fade)])
            SynthesizerState0).

(** [setup]. *)
Definition setup (ps : PartialList) (pitch0 : Q) (s : Synth) : Synth :=
  reset
    (set_partials (omap (prepare (m_fadeTimeSec s)) ps)
       (clearPartialsBeingProcessed (set_pitch pitch0 (set_partials [] s)))).

(** *** [synthesize]

    The state of the loop of [synthesize]: the loop variable [i],
    [sampleCounter], the position of the moving pointer [buffer] in the
    window (it starts at the first cell), the partial, the window and the
    oscillator. *)
Record Loop : Type := mkLoop {
  loop_i : Z;
  sampleCounter : Z;
  buffer_pos : Z;
  loop_p : PartialStruct;
  window : list Q;
  loop_osc : Osc
}.

Definition next_i (l : Loop) : Loop :=
  mkLoop (loop_i l + 1) (sampleCounter l) (buffer_pos l) (loop_p l)
    (window l) (loop_osc l).

(** The samples from the current one to breakpoint [i], as they are
    assigned to [sampleDiff]: [tgtSamp - p.state.currentSamp], computed in
    [index_type] and narrowed to [int]. *)
Definition span (srate : Q) (l : Loop) : Z :=
  let p := loop_p l in
  let tgtSamp := sample_index (breakpoint_at p (loop_i l)).1 srate in
  int_of_index (index_sub tgtSamp (index_of_int (currentSamp (state p)))).

(** Whether the segment toward breakpoint [i] does not fit in what is
    left of the block: [sampleCounter + (tgtSamp - currentSamp) > samples]. *)
Definition clipped (srate : Q) (samples : Z) (l : Loop) : bool :=
  sampleCounter l + span srate l >? samples.

(** The phase that the oscillator is set to before a segment is rendered,
    if it is set: the test is on the oscillator's amplitude. *)
Definition phase_reset (oneOver : Q) (st : SynthesizerState) (bp : Breakpoint)
    (sampleDiff : Z) (osc : Osc) : option Q :=
  if Qis_zero (amplitude osc) then
    let dphase := (Pi * (prevFrequency st + _frequency bp)
                     * inject_Z sampleDiff * oneOver)%Q in
    Some (_phase bp - dphase)%Q
  else None.

(** One pass through the body of the loop; the boolean tells whether the
    loop is left by [break]. *)
Definition segment (srate oneOver : Q) (samples : Z) (l : Loop) : Loop * bool :=
  let p := loop_p l in
  let st := state p in
  let sampleDiff0 := span srate l in
  let sampleCounter0 := sampleCounter l + sampleDiff0 in
  let over := sampleCounter0 >? samples in
  let sampleDiff :=
    if over then sampleDiff0 - (sampleCounter0 - samples) else sampleDiff0 in
  let sampleCounter1 := if over then samples else sampleCounter0 in
  let i := if over then loop_i l - 1 else loop_i l in
  let bp := (breakpoint_at p i).2 in
  let osc1 := match phase_reset oneOver st bp sampleDiff (loop_osc l) with
              | Some ph => setPhase ph (loop_osc l)
              | None => loop_osc l
              end in
  let '(osc2, ys) := oscillate sampleDiff bp srate osc1 in
  let w := Buffer.accumulate (buffer_pos l) ys (window l) in
  let bps := alter (fun tb => (tb.1, set_phase (phase osc2) tb.2))
               (Z.to_nat i) (breakpoints p) in
  let st' := mkState (currentSamp st + sampleDiff) i (envelope st)
               (_frequency bp) in
  (mkLoop i sampleCounter1 (buffer_pos l + sampleDiff)
     (with_state st' (with_breakpoints bps p)) w osc2,
   sampleCounter1 >=? samples).

(** The loop [for (i = ...; i < p.numBreakpoints; ++i)]. *)
Fixpoint segments (fuel : nat) (srate oneOver : Q) (samples : Z) (l : Loop)
    : Loop :=
  match fuel with
  | O => l
  | S fuel' =>
      if loop_i l <? numBreakpoints (loop_p l) then
        let '(l', brk) := segment srate oneOver samples l in
        if brk then l' else segments fuel' srate oneOver samples (next_i l')
      else l
  end.

(** The two early returns of [synthesize]. *)
Definition rejected (p : PartialStruct) : bool :=
  (numBreakpoints p <=? 0) || Qltb (startTime p) 0.

Definition finished (p : PartialStruct) : bool :=
  lastBreakpointIdx (state p) >=? numBreakpoints p - 1.

Definition with_envelope (e : Breakpoint) (p : PartialStruct) : PartialStruct :=
  with_state (mkState (currentSamp (state p)) (lastBreakpointIdx (state p)) e
                (prevFrequency (state p))) p.

(** [synthesize( p, buffer, samples )] on the window [d] with the
    oscillator [osc]. *)
Definition synthesize (srate oneOver : Q) (p : PartialStruct) (d : list Q)
    (samples : Z) (osc : Osc) : PartialStruct * list Q * Osc :=
  if rejected p then (p, d, osc)
  else if finished p then (p, d, osc)
  else
    let st := state p in
    let osc0 :=
      if lastBreakpointIdx st =? NoBreakpointProcessed
      then resetEnvelopes (envelope st) srate osc
      else restoreEnvelopes (envelope st) osc in
    let first := lastBreakpointIdx st + 1 in
    let l := segments (Z.to_nat (numBreakpoints p - first)) srate oneOver samples
               (mkLoop first 0 0 p d osc0) in
    (with_envelope (envelopes (loop_osc l)) (loop_p l), window l, loop_osc l).

(** *** [synthesizeNext] *)

Definition partial_at (s : Synth) (j : nat) : PartialStruct :=
  default PartialStruct0 (partials s !! j).

Definition with_cells (d : list Q) (v : FloatVector) : FloatVector :=
  mkVector d (vsize v).

(** [synthesize( *partial, buffer->data(), samples )] for the element [j]
    of [partials]. *)
Definition synthesize_at (j : nat) (samples : Z) (s : Synth) : Synth :=
  let '(p, d, osc) :=
    synthesize (m_srateHz s) (OneOverSrate s) (partial_at s j)
      (cells (buffer s)) samples (m_osc s) in
  set_osc osc
    (set_buffer (with_cells d (buffer s))
       (set_partials (<[j := p]> (partials s)) s)).

(** The test that decides whether a partial stays in the queue. *)
Definition unfinished (p : PartialStruct) : bool :=
  lastBreakpointIdx (state p) <? numBreakpoints p - 1.

(** The loop over the partials being processed, [size] passes. *)
Fixpoint resume (size : nat) (samples : Z) (s : Synth) : Synth :=
  match size with
  | O => s
  | S size' =>
      match partialsBeingProcessed s with
      | [] => s
      | j :: rest =>
          let s1 := synthesize_at j samples s in
          let q := if unfinished (partial_at s1 j) then rest ++ [j] else rest in
          resume size' samples (set_queue q s1)
      end
  end.

(** The first statements of the second loop for the partial at
    [partialIdx]: its first sample. *)
Definition with_currentSamp (c : Z) (p : PartialStruct) : PartialStruct :=
  with_state (mkState c (lastBreakpointIdx (state p)) (envelope (state p))
                (prevFrequency (state p))) p.

Definition start_sample (srate : Q) (p : PartialStruct) : Z :=
  int_of_index (sample_index (startTime p) srate).

(** The state a partial is given when its turn has come. *)
Definition activated (p : PartialStruct) : PartialStruct :=
  with_state (mkState (currentSamp (state p)) NoBreakpointProcessed
                (breakpoint_at p 0).2
                (_frequency (breakpoint_at p 1).2)) p.

(** The loop [for (; partialIdx < partialSize; partialIdx++)]. *)
Fixpoint activate (fuel : nat) (samples : Z) (s : Synth) : Synth :=
  match fuel with
  | O => s
  | S fuel' =>
      if partialIdx s <? Z.of_nat (length (partials s)) then
        let j := Z.to_nat (partialIdx s) in
        let p := with_currentSamp (start_sample (m_srateHz s) (partial_at s j))
                   (partial_at s j) in
        if currentSamp (state p) >? processedSamples s then
          set_partials (<[j := p]> (partials s)) s
        else
          let s1 := synthesize_at j samples
                      (set_partials (<[j := activated p]> (partials s)) s) in
          let q := if unfinished (partial_at s1 j)
                   then partialsBeingProcessed s1 ++ [j]
                   else partialsBeingProcessed s1 in
          activate fuel' samples
            (set_partialIdx (partialIdx s1 + 1) (set_queue q s1))
      else s
  end.

(** The preparation of the buffer: [reserve] when the size is less than
    [samples], then [memset] of [samples * sizeof(pointer to float)]
    bytes. *)
Definition clear_bytes (samples : Z) : Z :=
  (index_of_int samples * sizeof_float_ptr) mod 2 ^ 64.

Definition prepare_buffer (samples : Z) (v : FloatVector) : FloatVector :=
  let v1 := if vsize v <? index_of_int samples
            then Buffer.reserve (index_of_int samples) v else v in
  with_cells (Buffer.memset0 (clear_bytes samples) (cells v1)) v1.

(** [synthesizeNext( samples )]. *)
Definition synthesizeNext (samples : Z) (s : Synth) : Synth :=
  let s1 := set_processedSamples (processedSamples s + samples) s in
  let s2 := set_buffer (prepare_buffer samples (buffer s1)) s1 in
  let s3 := resume (length (partialsBeingProcessed s2)) samples s2 in
  activate (Z.to_nat (Z.of_nat (length (partials s3)) - partialIdx s3))
    samples s3.

(** The block a call returns to its caller: the first [samples] cells. *)
Definition block (samples : Z) (s : Synth) : list Q :=
  take (Z.to_nat samples) (cells (buffer s)).

(** A sequence of calls; the blocks in order, and the synthesizer after
    the last call. *)
Fixpoint render (sizes : list Z) (s : Synth) : list (list Q) * Synth :=
  match sizes with
  | [] => ([], s)
  | n :: sizes' =>
      let s1 := synthesizeNext n s in
      let '(out, s2) := render sizes' s1 in
      (block n s1 :: out, s2)
  end.

End Synthesizer.

(** ** Reference collaborators

    Instances of the interfaces, used to run the synthesizer on concrete
    input. *)

Module Reference.

(** Modelled from the spec: an oscillator that moves its amplitude and its
    frequency linearly to the target over the samples of a segment, and
    advances its phase by the average frequency; its envelope snapshot is
    its whole state.  The carrier is the second order polynomial
    [1 - x^2/2] in place of the cosine. *)
Record Ramp : Type := mkRamp {
  r_frequency : Q;
  r_amplitude : Q;
  r_bandwidth : Q;
  r_phase : Q
}.

Definition of_breakpoint (bp : Breakpoint) : Ramp :=
  mkRamp (_frequency bp) (_amplitude bp) (_bandwidth bp) (_phase bp).

Definition carrier (x : Q) : Q := (1 - x * x / 2)%Q.

(** The phase after [k] of the [n] samples of a segment. *)
Definition phase_after (o : Ramp) (bp : Breakpoint) (srate : Q) (n : Z) (k : Z) : Q :=
  let f0 := r_frequency o in
  let fk := (f0 + (_frequency bp - f0) * inject_Z k / inject_Z n)%Q in
  (r_phase o + Pi * (f0 + fk) * inject_Z k / srate)%Q.

Definition amplitude_after (o : Ramp) (bp : Breakpoint) (n : Z) (k : Z) : Q :=
  (r_amplitude o + (_amplitude bp - r_amplitude o) * inject_Z k / inject_Z n)%Q.

Definition ramp_oscillate (n : Z) (bp : Breakpoint) (srate : Q) (o : Ramp)
    : Ramp * list Q :=
  let m := Z.max 0 n in
  (mkRamp (_frequency bp) (_amplitude bp) (_bandwidth bp)
     (Qred (phase_after o bp srate m m)),
   map (fun k => Qred (amplitude_after o bp m (Z.of_nat k)
                       * carrier (phase_after o bp srate m (Z.of_nat k))))
     (seq 0 (Z.to_nat m))).

#[export] Instance ramp_oscillator : RealtimeOscillator Ramp := {|
  resetEnvelopes bp _ _ := of_breakpoint bp;
  restoreEnvelopes bp _ := of_breakpoint bp;
  envelopes o := mkBreakpoint (r_frequency o) (r_amplitude o) (r_bandwidth o)
                   (r_phase o);
  amplitude := r_amplitude;
  phase := r_phase;
  setPhase ph o := mkRamp (r_frequency o) (r_amplitude o) (r_bandwidth o) ph;
  oscillate := ramp_oscillate
|}.

(** Modelled from the spec: zero-amplitude breakpoints with the frequency
    of the given one and the phase that frequency reaches over the fade. *)
#[export] Instance null_breakpoints : BreakpointUtils := {|
  makeNullBefore bp fadeTime :=
    mkBreakpoint (_frequency bp) 0 0
      (Qred (_phase bp - 2 * Pi * _frequency bp * fadeTime));
  makeNullAfter bp fadeTime :=
    mkBreakpoint (_frequency bp) 0 0
      (Qred (_phase bp + 2 * Pi * _frequency bp * fadeTime))
|}.

(** Targets with 8-byte and with 4-byte pointers. *)
Definition lp64 : Target := {| sizeof_float_ptr := 8 |}.

(** A synthesizer on a buffer of [n] cells that hold [x], before [setup]. *)
Definition fresh (srate fade : Q) (n : nat) (x : Q) : RealTimeSynthesizer Ramp :=
  mkSynth (mkRamp 0 0 0 0) srate fade (1 / srate)%Q 0 [] 0 0 []
    (mkVector (replicate n x) (Z.of_nat n)).

End Reference.

(** ** What rendering leaves alone

    Rendering writes the phase of breakpoints and the state of a partial;
    the rest of a [PartialStruct] is its shape. *)

Definition envelope_of (tb : Q * Breakpoint) : Q * (Q * Q * Q) :=
  (tb.1, (_frequency tb.2, _amplitude tb.2, _bandwidth tb.2)).

Definition shape (p : PartialStruct) : Q * Q * Z * list (Q * (Q * Q * Q)) :=
  (startTime p, endTime p, numBreakpoints p, envelope_of <$> breakpoints p).

(** A partial as [setup] leaves it: at least three breakpoints, as many as
    [numBreakpoints] says, and a start time that is not negative. *)
Definition prepared (p : PartialStruct) : Prop :=
  3 <= numBreakpoints p
  /\ Z.of_nat (length (breakpoints p)) = numBreakpoints p
  /\ (0 <= startTime p)%Q.


(** The members of the synthesizer that rendering leaves alone, with the
    shapes of its partials. *)
Definition config {Osc : Type} (s : RealTimeSynthesizer Osc)
    : Q * Q * Q * Q * list (Q * Q * Z * list (Q * (Q * Q * Q))) :=
  (m_srateHz s, OneOverSrate s, m_fadeTimeSec s, pitch s, shape <$> partials s).


(** ** Statements about [setup] *)

(** The render partial [p] is the source partial [it] between a fade-in
    breakpoint at [max(0, start - fade)] and a fade-out breakpoint at
    [end + fade], both with amplitude zero. *)
Definition fade_bounds (fade : Q) (it : Partial) (p : PartialStruct) : Prop :=
  startTime p = Qmax 0 (SourcePartial.startTime it - fade)
  /\ numBreakpoints p = SourcePartial.numBreakpoints it + 2
  /\ Z.of_nat (length (breakpoints p)) = SourcePartial.numBreakpoints it + 2
  /\ exists b0 bn : Breakpoint,
       breakpoints p
       = (startTime p, b0) :: it ++ [((SourcePartial.endTime it + fade)%Q, bn)]
       /\ _amplitude b0 = 0%Q /\ _amplitude bn = 0%Q.

(** What the activation of a partial and the first test of [synthesize]
    rely on. *)
Definition reads_in_bounds (p : PartialStruct) : Prop :=
  prepared p
  /\ is_Some (breakpoints p !! 0%nat)
  /\ is_Some (breakpoints p !! 1%nat)
  /\ rejected p = false.

(** ** Concrete input *)

Module Examples.
Import Reference.

Definition bp (f a : Q) : Breakpoint := mkBreakpoint f a 0 0.

(** Two breakpoints at 1 s and 2 s. *)
Definition two : Partial := [(1%Q, bp 0 1); (2%Q, bp 0 (1 # 2))].

(** One breakpoint, a quarter of a second before time zero. *)
Definition early : Partial := [((-1 # 4)%Q, bp 0 1)].

(** A synthesizer at 4 samples per second with a fade of half a second,
    on a buffer of 40 cells that hold 7. *)
Definition synth0 : RealTimeSynthesizer Ramp := fresh 4 (1 # 2) 40 7.

(** Two breakpoints at 1 s and 2 s with frequency 1 Hz. *)
Definition tone : Partial :=
  [(1%Q, mkBreakpoint 1 1 0 0); (2%Q, mkBreakpoint 1 1 0 0)].

(** Amplitude 0 at 1 s and amplitude 1 at 2 s. *)
Definition rise : Partial := [(1%Q, bp 0 0); (2%Q, bp 0 1)].

(** A partial whose first breakpoint, at 0.3 s, has amplitude zero. *)
Definition silent_onset : Partial := [((3 # 10)%Q, bp 1 0); (1%Q, bp 1 1)].

(** The loop of [synthesize] as it starts for that partial, once [setup]
    has prepared it and [synthesizeNext] has activated it. *)
Definition onset_partial : PartialStruct :=
  let s := setup [silent_onset] 1 synth0 in
  activated (with_currentSamp (start_sample 4 (partial_at s 0)) (partial_at s 0)).

Definition onset_loop : Loop :=
  mkLoop 1 0 0 onset_partial (replicate 8 0%Q)
    (resetEnvelopes (envelope (state onset_partial)) 4 (mkRamp 0 0 0 0)).

(** The loop of [synthesize] as it starts for the partial [two]: the
    partial starts at sample 2 and its first breakpoint is at sample 4. *)
Definition two_partial : PartialStruct :=
  let s := setup [two] 1 synth0 in
  activated (with_currentSamp (start_sample 4 (partial_at s 0)) (partial_at s 0)).

Definition two_loop : Loop :=
  mkLoop 1 0 0 two_partial (replicate 8 0%Q)
    (resetEnvelopes (envelope (state two_partial)) 4 (mkRamp 0 0 0 0)).

(** One breakpoint, one second before time zero, and the loop of
    [synthesize] as it starts for the partial that [setup] makes of it. *)
Definition before_zero : Partial := [((-1)%Q, bp 0 1)].

Definition before_zero_partial : PartialStruct :=
  let s := setup [before_zero] 1 synth0 in
  activated (with_currentSamp (start_sample 4 (partial_at s 0)) (partial_at s 0)).

Definition before_zero_loop : Loop :=
  mkLoop 1 0 0 before_zero_partial (replicate 8 0%Q)
    (resetEnvelopes (envelope (state before_zero_partial)) 4 (mkRamp 0 0 0 0)).

End Examples.


(** What the two loops of [synthesizeNext] leave as it is, besides
    [config]: the sample counter and the dimensions of the buffer and of
    the vector of partials. *)
Definition dims {Osc : Type} (s : RealTimeSynthesizer Osc) : Z * nat * Z * nat :=
  (processedSamples s, length (cells (buffer s)), vsize (buffer s),
   length (partials s)).

(** The invariant of the loop of [synthesize]: the loop variable is one
    past the last breakpoint that was rendered. *)
Definition loop_inv {Osc : Type} (l : @Loop Osc) : Prop :=
  loop_i l = lastBreakpointIdx (state (loop_p l)) + 1.


(** ** Cursors

    The sample index of breakpoint [i] of a partial, as [synthesize]
    computes it. *)
Definition target_sample (srate : Q) (p : PartialStruct) (i : Z) : Z :=
  sample_index (breakpoint_at p i).1 srate.

(** A prepared partial whose breakpoints come at sample indices that fit
    an [int] and do not decrease, the first of them at the start time. *)
Definition timed (srate : Q) (p : PartialStruct) : Prop :=
  prepared p
  /\ (breakpoint_at p 0).1 = startTime p
  /\ (forall i, 0 <= i < numBreakpoints p -> 0 <= target_sample srate p i < 2 ^ 31)
  /\ (forall i j, 0 <= i <= j -> j < numBreakpoints p ->
        target_sample srate p i <= target_sample srate p j).

(** The cursor of a partial that is being rendered: the index of the last
    breakpoint is in range and the current sample is between that
    breakpoint and the next. *)
Definition on_track (srate : Q) (p : PartialStruct) : Prop :=
  0 <= lastBreakpointIdx (state p) <= numBreakpoints p - 1
  /\ 0 <= currentSamp (state p)
  /\ (lastBreakpointIdx (state p) < numBreakpoints p - 1 ->
      currentSamp (state p)
      <= target_sample srate p (lastBreakpointIdx (state p) + 1))
  /\ target_sample srate p (lastBreakpointIdx (state p)) <= currentSamp (state p).

(** Neither cursor of [p'] is behind the one of [p]. *)
Definition advanced (p p' : PartialStruct) : Prop :=
  currentSamp (state p) <= currentSamp (state p')
  /\ lastBreakpointIdx (state p) <= lastBreakpointIdx (state p').


(** The invariant of the synthesizer between the passes of its two loops:
    the partials before [partialIdx] have been activated and are on track,
    and the queue holds exactly those of them that are not finished. *)
Definition session_inv {Osc : Type} (s : RealTimeSynthesizer Osc) : Prop :=
  0 <= partialIdx s <= Z.of_nat (length (partials s))
  /\ Forall (timed (m_srateHz s)) (partials s)
  /\ (forall (j : nat) p, partials s !! j = Some p -> Z.of_nat j < partialIdx s ->
        on_track (m_srateHz s) p
        /\ (j ∈ partialsBeingProcessed s <-> unfinished p = true))
  /\ (forall j : nat, j ∈ partialsBeingProcessed s -> Z.of_nat j < partialIdx s)
  /\ NoDup (partialsBeingProcessed s).

(** The cursors of the partials that were active in [s] have not moved
    back in [s']. *)
Definition cursors_advanced {Osc : Type} (s s' : RealTimeSynthesizer Osc) : Prop :=
  forall (j : nat) p p',
    Z.of_nat j < partialIdx s ->
    partials s !! j = Some p -> partials s' !! j = Some p' -> advanced p p'.


(** A source partial that the synthesizer can follow at the sample rate
    [srate] with the fade [fade]: it does not start before time zero, the
    times of its breakpoints do not decrease, and the sample index of the
    end of its fade-out fits an [int]. *)
Definition valid_source (srate fade : Q) (it : Partial) : Prop :=
  (0 <= SourcePartial.startTime it)%Q
  /\ (forall (i j : nat) a b, (i <= j)%nat ->
        it !! i = Some a -> it !! j = Some b -> (a.1 <= b.1)%Q)
  /\ ((SourcePartial.endTime it + fade) * srate + (1 # 2) < inject_Z (2 ^ 31))%Q.

(** What a call does to the cursors, from [s] to [s']: the partials that
    were active in [s] have not moved back and the index of their last
    breakpoint is in range; and an active partial of [s'] is in the queue
    exactly when that index is not the last one. *)
Definition epoch_step {Osc : Type} (s s' : RealTimeSynthesizer Osc) : Prop :=
  (forall (j : nat) p p',
     Z.of_nat j < partialIdx s ->
     partials s !! j = Some p -> partials s' !! j = Some p' ->
     currentSamp (state p) <= currentSamp (state p')
     /\ lastBreakpointIdx (state p) <= lastBreakpointIdx (state p')
     /\ lastBreakpointIdx (state p') <= numBreakpoints p' - 1)
  /\ (forall (j : nat) p',
        Z.of_nat j < partialIdx s' -> partials s' !! j = Some p' ->
        (j ∈ partialsBeingProcessed s'
         <-> lastBreakpointIdx (state p') <> numBreakpoints p' - 1)).


(** ** The contract of the oscillator

    Modelled from the spec: the envelope snapshot that the oscillator accepts
    is the state it takes on ("a serializable envelope snapshot, for the
    checkpoint/resume cycle across calls"). *)
Class EnvelopeIsState (Osc : Type) {osc_ops : RealtimeOscillator Osc} : Prop := {
  reset_any : forall e sr (o o' : Osc),
    resetEnvelopes e sr o = resetEnvelopes e sr o';
  restore_any : forall e (o o' : Osc),
    restoreEnvelopes e o = restoreEnvelopes e o'
}.

(** Modelled from the spec: restoring the snapshot of an oscillator gives
    that oscillator back, and [oscillate] produces as many samples as it is
    asked for. *)
Class SnapshotResumes (Osc : Type) {osc_ops : RealtimeOscillator Osc} : Prop := {
  restore_envelopes : forall o o' : Osc, restoreEnvelopes (envelopes o) o' = o;
  oscillate_length : forall n bp sr (o : Osc),
    length (oscillate n bp sr o).2 = Z.to_nat n
}.

(** ** Two synthesizers that render the same

    A partial without its state. *)
Definition static (p : PartialStruct) : PartialStruct :=
  with_state SynthesizerState0 p.

(** A vector whose size is within its capacity. *)
Definition buffer_ok (v : FloatVector) : Prop :=
  0 <= vsize v <= Buffer.capacity v.

(** [s] and [t] have the same sample rate, the same cursors, the same
    queue, partials with the same breakpoints, the same state of the
    partials in the queue, and buffers of the same size.  Their
    oscillators, the contents of their buffers and the states of the
    partials outside the queue may differ. *)
Record same_render {Osc : Type} (s t : RealTimeSynthesizer Osc) : Prop := {
  sr_rate : m_srateHz s = m_srateHz t;
  sr_oneOver : OneOverSrate s = OneOverSrate t;
  sr_idx : partialIdx s = partialIdx t;
  sr_processed : processedSamples s = processedSamples t;
  sr_queue : partialsBeingProcessed s = partialsBeingProcessed t;
  sr_static : static <$> partials s = static <$> partials t;
  sr_active : forall j : nat,
    j ∈ partialsBeingProcessed s -> partials s !! j = partials t !! j;
  sr_vsize : vsize (buffer s) = vsize (buffer t);
  sr_ok_l : buffer_ok (buffer s);
  sr_ok_r : buffer_ok (buffer t)
}.

(** The first [k] cells of the two buffers are the same. *)
Definition same_block {Osc : Type} (k : nat) (s t : RealTimeSynthesizer Osc) : Prop :=
  take k (cells (buffer s)) = take k (cells (buffer t)).


(** ** What a call makes of one partial

    The partial and the window that [synthesize] returns; [o0] is the
    oscillator it is started with. *)
Definition synP {Osc : Type} {osc_ops : RealtimeOscillator Osc}
    (srate oneOver : Q) (o0 : Osc) (n : Z) (p : PartialStruct) : PartialStruct :=
  (synthesize srate oneOver p [] n o0).1.1.

Definition synW {Osc : Type} {osc_ops : RealtimeOscillator Osc}
    (srate oneOver : Q) (o0 : Osc) (n : Z) (p : PartialStruct) (W : list Q) : list Q :=
  (synthesize srate oneOver p W n o0).1.2.

(** The partial at [partialIdx] after the first statements of the second
    loop, when its turn has not come and when it has. *)
Definition marked (srate : Q) (p : PartialStruct) : PartialStruct :=
  with_currentSamp (start_sample srate p) p.

Definition armed (srate : Q) (p : PartialStruct) : PartialStruct :=
  activated (marked srate p).

(** The number of partials from position [j] on whose turn has come when
    [limit] samples have been processed: the passes of the second loop of
    [synthesizeNext] before it is left. *)
Fixpoint due_count (fuel : nat) (srate : Q) (limit : Z) (ps : list PartialStruct)
    (j : nat) : nat :=
  match fuel with
  | O => O
  | S fuel' =>
      match ps !! j with
      | Some p =>
          if start_sample srate p >? limit then O
          else S (due_count fuel' srate limit ps (S j))
      | None => O
      end
  end.

(** The partial that the call renders for position [j]: the partial as it
    is when it is active, the partial as it is activated otherwise. *)
Definition input {Osc : Type} (s : RealTimeSynthesizer Osc) (j : nat) : PartialStruct :=
  if decide (Z.of_nat j < partialIdx s) then partial_at s j
  else armed (m_srateHz s) (partial_at s j).

(** The partial at position [j] is finished or on a breakpoint. *)
Definition on_breakpoint (srate : Q) (p : PartialStruct) : Prop :=
  currentSamp (state p) = target_sample srate p (lastBreakpointIdx (state p)).


(** ** Series of calls that split on breakpoints

    No partial comes to its turn within the next [n] samples. *)
Definition none_due {Osc : Type} (n : Z) (s : RealTimeSynthesizer Osc) : Prop :=
  forall p, partials s !! Z.to_nat (partialIdx s) = Some p ->
    processedSamples s + n < start_sample (m_srateHz s) p.

(** Every partial in the queue is on a breakpoint. *)
Definition aligned {Osc : Type} (s : RealTimeSynthesizer Osc) : Prop :=
  forall j : nat, j ∈ partialsBeingProcessed s ->
    on_breakpoint (m_srateHz s) (partial_at s j).

(** The number of samples of a series of calls. *)
Definition total (sizes : list Z) : Z := foldr Z.add 0 sizes.

(** Every call of the series but the last one leaves the partials of the
    queue on a breakpoint, and no partial comes to its turn in the calls
    after the first one. *)
Fixpoint aligned_run {Osc : Type} {osc_ops : RealtimeOscillator Osc}
    {target : Target} (sizes : list Z) (s : RealTimeSynthesizer Osc) : Prop :=
  match sizes with
  | [] => True
  | n :: rest =>
      rest = []
      \/ (aligned (synthesizeNext n s)
          /\ none_due (total rest) (synthesizeNext n s)
          /\ aligned_run rest (synthesizeNext n s))
  end.


(** ** What [setup] and rendering keep of a partial

    The source partial inside a render partial: its breakpoints without
    the first and the last one. *)
Definition source_of (p : PartialStruct) : Partial :=
  take (length (breakpoints p) - 2) (drop 1 (breakpoints p)).

(** Two breakpoints with the same time, frequency, amplitude and
    bandwidth; two partials with the same times and such breakpoints. *)
Definition same_curve (tb tb' : Q * Breakpoint) : Prop :=
  tb'.1 = tb.1
  /\ _frequency tb'.2 = _frequency tb.2
  /\ _amplitude tb'.2 = _amplitude tb.2
  /\ _bandwidth tb'.2 = _bandwidth tb.2.

Definition same_data (p p' : PartialStruct) : Prop :=
  startTime p' = startTime p
  /\ endTime p' = endTime p
  /\ numBreakpoints p' = numBreakpoints p
  /\ Forall2 same_curve (breakpoints p) (breakpoints p').

(** ** The earlier synthesizer

    [PartialStruct] and [resetSynth] of the header of the earlier version
    of the class (Loris/src/RealtimeSynthesizer.h), which rewinds all the
    partials at once. *)
Module Legacy.

(** [enum { NoBreakpointProcessed = -1, FirstBreakpoint }]. *)
Definition NoBreakpointProcessed : Z := -1.

Record SynthesizerState : Type := mkState {
  currentSamp : Z;
  endSamp : Z;
  lastBreakpoint : Z;
  prevFrequency : Q
}.

Record PartialStruct : Type := mkPartialStruct {
  duration : Q;
  startTime : Q;
  endTime : Q;
  numBreakpoints : Z;
  breakpoints : list (Q * Breakpoint);
  state : SynthesizerState
}.

(** The members of the class, with [m_srateHz] and the vector behind
    [m_sampleBuffer] of its base class; [bufferBegin] is a position in that
    vector.  [processedSamples] is a [double] here. *)
Record RealTimeSynthesizer : Type := mkSynth {
  m_srateHz : Q;
  m_sampleBuffer : list Q;
  OneOverSrate : Q;
  tgtSamp : Z;
  bufferBegin : Z;
  dphase : Q;
  partials : list PartialStruct;
  partialIdx : Z;
  processedSamples : Q;
  partialsBeingProcessed : list nat
}.

(** The body of the loop of [resetSynth] for one partial.  It reads
    [breakpoints[1]]; where the partial has no such breakpoint the read is
    undefined, and there is no result. *)
Definition rewind (srate : Q) (p : PartialStruct) : option PartialStruct :=
  match breakpoints p !! 1%nat with
  | Some tb =>
      Some (mkPartialStruct (duration p) (startTime p) (endTime p)
              (numBreakpoints p) (breakpoints p)
              (mkState (int_of_index (sample_index (startTime p) srate))
                 (endSamp (state p)) NoBreakpointProcessed (_frequency tb.2)))
  | None => None
  end.

(** [resetSynth]. *)
Definition resetSynth (s : RealTimeSynthesizer) : option RealTimeSynthesizer :=
  match mapM (rewind (m_srateHz s)) (partials s) with
  | Some ps =>
      Some (mkSynth (m_srateHz s)
              (replicate (length (m_sampleBuffer s)) 0%Q)
              (OneOverSrate s) (tgtSamp s) (bufferBegin s) (dphase s)
              ps 0 0 (partialsBeingProcessed s))
  | None => None
  end.

(** A synthesizer in the middle of a rendering, with one partial of three
    breakpoints. *)
Definition example : RealTimeSynthesizer :=
  mkSynth 4 [1; 2; 3]%Q (1 # 4) 0 0 0
    [mkPartialStruct 1 (1 # 2) (3 # 2) 3
       [((1 # 2)%Q, mkBreakpoint 5 0 0 0); (1%Q, mkBreakpoint 7 1 0 0);
        ((3 # 2)%Q, mkBreakpoint 7 0 0 0)]
       (mkState 9 0 2 0)]
    1 (9 # 1) [0%nat].

End Legacy.


(** ** The phases that a replay reads

    Rendering stores the phase of the oscillator in the breakpoint it has
    rendered toward, and [reset] leaves the breakpoints as they are.  A
    replay reads a stored phase in two places: the phase of the first
    breakpoint is the phase of the envelope a partial is activated with,
    and the phase of the breakpoint a segment is rendered toward is read
    when the amplitude of the oscillator is zero, which it is after a
    breakpoint of amplitude zero. *)

(** The phase that is stored in breakpoint [i]. *)
Definition stored_phase (p : PartialStruct) (i : Z) : Q :=
  _phase (breakpoint_at p i).2.

(** Whether breakpoint [i] is the first one or follows a breakpoint of
    amplitude zero. *)
Definition readable (p : PartialStruct) (i : Z) : bool :=
  (i =? 0) || Qis_zero (_amplitude (breakpoint_at p (i - 1)).2).

(** The stored phases of those breakpoints, by position. *)
Definition read_phases (p : PartialStruct) : list (option Q) :=
  imap (fun (k : nat) (tb : Q * Breakpoint) =>
          if readable p (Z.of_nat k) then Some (_phase tb.2) else None)
    (breakpoints p).

(** Two partials of the same shape that store the same phase wherever it
    can be read. *)
Definition agree (p q : PartialStruct) : Prop :=
  shape p = shape q
  /\ forall i, 0 <= i -> readable p i = true -> stored_phase p i = stored_phase q i.

(** Two such partials in the same state, with the same phase in the last
    breakpoint that was rendered. *)
Definition awake (p q : PartialStruct) : Prop :=
  agree p q /\ state p = state q
  /\ stored_phase p (lastBreakpointIdx (state p))
     = stored_phase q (lastBreakpointIdx (state p)).

(** The envelope that is kept for a partial has amplitude zero only where
    the last breakpoint that was rendered has. *)
Definition env_inv (p : PartialStruct) : Prop :=
  0 <= lastBreakpointIdx (state p)
  /\ (Qis_zero (_amplitude (envelope (state p))) = true ->
      Qis_zero (_amplitude (breakpoint_at p (lastBreakpointIdx (state p))).2) = true).

(** The same for the oscillator in the loop of [synthesize]. *)
Definition amp_inv {Osc : Type} {osc_ops : RealtimeOscillator Osc} (l : @Loop Osc)
    : Prop :=
  0 <= lastBreakpointIdx (state (loop_p l))
  /\ (Qis_zero (amplitude (loop_osc l)) = true ->
      Qis_zero (_amplitude (breakpoint_at (loop_p l)
                              (lastBreakpointIdx (state (loop_p l)))).2) = true).

(** Modelled from the spec: the oscillator renders a segment from the
    values it has to those of the breakpoint it is given ("given a
    start/end breakpoint pair, a sample count, and a sample rate"), and its
    phase is the one it has accumulated or has been told ("must support
    being told an explicit phase offset before oscillating a segment").  So
    the phase of the target plays no part in [oscillate], and the amplitude
    of the oscillator after a segment, a reset or a restore is zero only
    where the amplitude of the breakpoint it was given is. *)
Class TargetSetsAmplitude (Osc : Type) {osc_ops : RealtimeOscillator Osc} : Prop := {
  oscillate_any_phase : forall n bp ph sr (o : Osc),
    oscillate n (set_phase ph bp) sr o = oscillate n bp sr o;
  silent_reset : forall e sr (o : Osc),
    Qis_zero (amplitude (resetEnvelopes e sr o)) = true ->
    Qis_zero (_amplitude e) = true;
  silent_restore : forall e (o : Osc),
    Qis_zero (amplitude (restoreEnvelopes e o)) = true ->
    Qis_zero (_amplitude e) = true;
  silent_snapshot : forall o : Osc,
    Qis_zero (_amplitude (envelopes o)) = true -> Qis_zero (amplitude o) = true;
  silent_target : forall n bp sr (o : Osc),
    Qis_zero (amplitude (oscillate n bp sr o).1) = true ->
    Qis_zero (_amplitude bp) = true
}.

(** [s] and [t] differ in their partials at most; the partials agree, and
    those of the queue are awake. *)
Record replaying {Osc : Type} (s t : RealTimeSynthesizer Osc) : Prop := {
  rp_rest : set_partials [] s = set_partials [] t;
  rp_agree : Forall2 agree (partials s) (partials t);
  rp_awake : forall j : nat, j ∈ partialsBeingProcessed s ->
    awake (partial_at s j) (partial_at t j) /\ env_inv (partial_at s j)
}.


(** * Properties *)

(** ** Numbers *)

Lemma Qltb_lt (a b : Q) : Qltb a b = true <-> (a < b)%Q.
Proof.
  unfold Qltb. rewrite negb_true_iff, <- not_true_iff_false, Qle_bool_iff.
  split; [apply Qnot_le_lt | apply Qlt_not_le].
Qed.

Lemma Qltb_ge (a b : Q) : Qltb a b = false <-> (b <= a)%Q.
Proof.
  unfold Qltb. rewrite negb_false_iff, Qle_bool_iff. reflexivity.
Qed.

Lemma Qmax_0_sub (s f : Q) :
  (if Qltb f s then (s - f)%Q else 0%Q) = Qmax 0 (s - f).
Proof.
  unfold Qmax, GenericMinMax.gmax.
  destruct (Qltb f s) eqn:E.
  - apply Qltb_lt in E.
    assert (H : (0 < s - f)%Q) by (unfold Qminus; rewrite <- Qlt_minus_iff; exact E).
    rewrite Qlt_alt in H. rewrite H. reflexivity.
  - apply Qltb_ge in E.
    destruct (0 ?= s - f)%Q eqn:C; try reflexivity.
    rewrite <- Qlt_alt in C. unfold Qminus in C. rewrite <- Qlt_minus_iff in C.
    exfalso. exact (Qlt_not_le _ _ C E).
Qed.

Lemma start_nonneg (s f : Q) : (0 <= (if Qltb f s then (s - f)%Q else 0%Q))%Q.
Proof.
  destruct (Qltb f s) eqn:E.
  - apply Qltb_lt in E. apply Qlt_le_weak.
    unfold Qminus. rewrite <- Qlt_minus_iff. exact E.
  - apply Qle_refl.
Qed.

(** ** [setup] *)

Section SetupFacts.
Context {Osc : Type} {osc_ops : RealtimeOscillator Osc}
  {null_ops : BreakpointUtils}.

Lemma setup_partials (ps : PartialList) (pitch0 : Q) (s : RealTimeSynthesizer Osc) :
  partials (setup ps pitch0 s) = omap (prepare (m_fadeTimeSec s)) ps.
Proof. reflexivity. Qed.

Lemma setup_cursors (ps : PartialList) (pitch0 : Q) (s : RealTimeSynthesizer Osc) :
  partialIdx (setup ps pitch0 s) = 0
  /\ processedSamples (setup ps pitch0 s) = 0
  /\ partialsBeingProcessed (setup ps pitch0 s) = [].
Proof. repeat split. Qed.

Lemma prepare_skip (fade : Q) (it : Partial) :
  SourcePartial.numBreakpoints it <= 0 -> prepare fade it = None.
Proof.
  intros Hn. unfold prepare.
  destruct (Z.leb_spec (SourcePartial.numBreakpoints it) 0); [reflexivity | lia].
Qed.

Lemma prepare_keep (fade : Q) (it : Partial) :
  0 < SourcePartial.numBreakpoints it -> is_Some (prepare fade it).
Proof.
  intros Hn. unfold prepare.
  destruct (Z.leb_spec (SourcePartial.numBreakpoints it) 0); [lia | eauto].
Qed.

Lemma last_snoc {A} (l : list A) (x d : A) : List.last (l ++ [x]) d = x.
Proof. apply List.last_last. Qed.

(** What [prepare] builds. *)
Lemma prepare_Some (fade : Q) (it : Partial) (p : PartialStruct) :
  prepare fade it = Some p ->
  0 < SourcePartial.numBreakpoints it
  /\ startTime p = Qmax 0 (SourcePartial.startTime it - fade)
  /\ endTime p = (SourcePartial.endTime it + fade)%Q
  /\ numBreakpoints p = SourcePartial.numBreakpoints it + 2
  /\ breakpoints p =
       ((startTime p,
         makeNullBefore (hd (0%Q, Breakpoint0) it).2
           (SourcePartial.startTime it - startTime p)%Q)
          :: it
          ++ [((SourcePartial.endTime it + fade)%Q,
               makeNullAfter (List.last it (0%Q, Breakpoint0)).2 fade)])
  /\ state p = SynthesizerState0.
Proof.
  unfold prepare.
  destruct (Z.leb_spec (SourcePartial.numBreakpoints it) 0) as [Hle|Hlt];
    [discriminate|].
  intros [= <-]. simpl. rewrite <- Qmax_0_sub. repeat split; done.
Qed.

End SetupFacts.

(** ** Rendering keeps the shape of the partials *)

Section Frame.
Context {Osc : Type} {osc_ops : RealtimeOscillator Osc}
  {null_ops : BreakpointUtils} {target : Target}.
Implicit Types (s : RealTimeSynthesizer Osc) (p : PartialStruct) (l : @Loop Osc).

Lemma shape_with_state st p : shape (with_state st p) = shape p.
Proof. reflexivity. Qed.

Lemma shape_alter_phase ph i p :
  shape (with_breakpoints
           (alter (fun tb => (tb.1, set_phase ph tb.2)) i (breakpoints p)) p)
  = shape p.
Proof.
  unfold shape. simpl. f_equal.
  apply list_eq. intros k.
  rewrite !list_lookup_fmap.
  destruct (decide (k = i)) as [->|Hne].
  - rewrite list_lookup_alter_eq. destruct (breakpoints p !! i) as [[t b]|]; done.
  - rewrite list_lookup_alter_ne by done. done.
Qed.

Lemma prepared_shape p q : shape p = shape q -> prepared p -> prepared q.
Proof.
  unfold shape, prepared. intros [= Hs He Hn Hb] (H3 & Hlen & H0).
  rewrite <- Hs, <- Hn. repeat split; try done.
  rewrite <- Hlen. f_equal.
  apply (f_equal length) in Hb. rewrite !length_fmap in Hb. done.
Qed.

Lemma length_accumulate off ys d : length (Buffer.accumulate off ys d) = length d.
Proof. apply length_imap. Qed.

Lemma length_memset0 bytes d : length (Buffer.memset0 bytes d) = length d.
Proof. apply length_imap. Qed.

Lemma segment_frame srate oneOver samples l :
  shape (loop_p (segment srate oneOver samples l).1) = shape (loop_p l)
  /\ length (window (segment srate oneOver samples l).1) = length (window l).
Proof.
  unfold segment.
  destruct (oscillate _ _ _ _) as [osc2 ys]. simpl.
  rewrite shape_with_state, shape_alter_phase, length_accumulate. done.
Qed.

Lemma segments_frame fuel srate oneOver samples l :
  shape (loop_p (segments fuel srate oneOver samples l)) = shape (loop_p l)
  /\ length (window (segments fuel srate oneOver samples l)) = length (window l).
Proof.
  revert l. induction fuel as [|fuel IH]; intros l; simpl; [done|].
  destruct (loop_i l <? numBreakpoints (loop_p l)); [|done].
  pose proof (segment_frame srate oneOver samples l) as [Hs Hl].
  destruct (segment srate oneOver samples l) as [l' brk]. simpl in *.
  destruct brk; [done|].
  destruct (IH (next_i l')) as [Hs' Hl']. simpl in *.
  rewrite Hs', Hl'. done.
Qed.

Lemma synthesize_frame srate oneOver p d samples osc :
  shape (synthesize srate oneOver p d samples osc).1.1 = shape p
  /\ length (synthesize srate oneOver p d samples osc).1.2 = length d.
Proof.
  unfold synthesize.
  destruct (rejected p); [done|]. destruct (finished p); [done|]. simpl.
  apply (segments_frame _ srate oneOver samples (mkLoop _ 0 0 p d _)).
Qed.

End Frame.

Section SessionFrame.
Context {Osc : Type} {osc_ops : RealtimeOscillator Osc}
  {null_ops : BreakpointUtils} {target : Target}.
Implicit Types (s : RealTimeSynthesizer Osc) (p : PartialStruct).

Lemma shape_insert (ps : list PartialStruct) j p :
  shape p = shape (default PartialStruct0 (ps !! j)) ->
  shape <$> <[j := p]> ps = shape <$> ps.
Proof.
  intros Hs. rewrite list_fmap_insert.
  apply list_eq. intros k. destruct (decide (k = j)) as [->|Hne].
  - destruct (ps !! j) as [q|] eqn:E.
    + rewrite list_lookup_insert_eq
        by (rewrite length_fmap; eapply lookup_lt_Some; eauto).
      rewrite list_lookup_fmap, E. simpl in *. congruence.
    + rewrite list_insert_ge; [done|].
      rewrite length_fmap. by apply lookup_ge_None.
  - by rewrite list_lookup_insert_ne.
Qed.

Lemma synthesize_at_config j samples s :
  config (synthesize_at j samples s) = config s.
Proof.
  unfold synthesize_at.
  pose proof (synthesize_frame (m_srateHz s) (OneOverSrate s) (partial_at s j)
                (cells (buffer s)) samples (m_osc s)) as [Hs _].
  destruct (synthesize _ _ _ _ _ _) as [[p d] osc]. simpl in *.
  unfold config. simpl. f_equal. by apply shape_insert.
Qed.

Lemma synthesize_at_cursors j samples s :
  partialIdx (synthesize_at j samples s) = partialIdx s
  /\ processedSamples (synthesize_at j samples s) = processedSamples s
  /\ partialsBeingProcessed (synthesize_at j samples s) = partialsBeingProcessed s
  /\ length (partials (synthesize_at j samples s)) = length (partials s)
  /\ length (cells (buffer (synthesize_at j samples s))) = length (cells (buffer s))
  /\ vsize (buffer (synthesize_at j samples s)) = vsize (buffer s).
Proof.
  unfold synthesize_at.
  pose proof (synthesize_frame (m_srateHz s) (OneOverSrate s) (partial_at s j)
                (cells (buffer s)) samples (m_osc s)) as [_ Hl].
  destruct (synthesize _ _ _ _ _ _) as [[p d] osc]. simpl in *.
  rewrite length_insert. done.
Qed.

Lemma synthesize_at_other j k samples s :
  k <> j -> partials (synthesize_at j samples s) !! k = partials s !! k.
Proof.
  intros Hne. unfold synthesize_at.
  destruct (synthesize _ _ _ _ _ _) as [[p d] osc]. simpl.
  by rewrite list_lookup_insert_ne.
Qed.

Lemma resume_config size samples s : config (resume size samples s) = config s.
Proof.
  revert s. induction size as [|size IH]; intros s; simpl; [done|].
  destruct (partialsBeingProcessed s) as [|j rest]; [done|].
  rewrite IH. apply synthesize_at_config.
Qed.

Lemma activate_config fuel samples s : config (activate fuel samples s) = config s.
Proof.
  revert s. induction fuel as [|fuel IH]; intros s; simpl; [done|].
  destruct (partialIdx s <? Z.of_nat (length (partials s))); [|done].
  destruct (_ >? processedSamples s).
  - unfold config. simpl. f_equal. by apply shape_insert.
  - rewrite IH. unfold set_partialIdx, set_queue, config at 1. simpl.
    fold (config (synthesize_at (Z.to_nat (partialIdx s)) samples
            (set_partials
               (<[Z.to_nat (partialIdx s) :=
                    activated
                      (with_currentSamp
                         (start_sample (m_srateHz s)
                            (partial_at s (Z.to_nat (partialIdx s))))
                         (partial_at s (Z.to_nat (partialIdx s))))]>
                  (partials s)) s))).
    rewrite synthesize_at_config. unfold config. simpl. f_equal.
    by apply shape_insert.
Qed.

Lemma synthesizeNext_config samples s : config (synthesizeNext samples s) = config s.
Proof.
  unfold synthesizeNext. rewrite activate_config, resume_config. done.
Qed.

Lemma render_config sizes s : config (render sizes s).2 = config s.
Proof.
  revert s. induction sizes as [|n sizes IH]; intros s; simpl; [done|].
  specialize (IH (synthesizeNext n s)).
  destruct (render sizes (synthesizeNext n s)) as [out s2]. simpl in *.
  rewrite IH. apply synthesizeNext_config.
Qed.

Lemma prepared_of_shapes (ps qs : list PartialStruct) :
  shape <$> ps = shape <$> qs -> Forall prepared ps -> Forall prepared qs.
Proof.
  revert qs. induction ps as [|p ps IH]; intros [|q qs] Hs Hp;
    try discriminate; [constructor|].
  rewrite !fmap_cons in Hs.
  assert (Hs1 : shape p = shape q)
    by (apply (f_equal head) in Hs; simpl in Hs; congruence).
  assert (Hs2 : shape <$> ps = shape <$> qs)
    by (apply (f_equal tail) in Hs; exact Hs).
  apply Forall_cons in Hp as [Hp1 Hp2].
  constructor; [exact (prepared_shape _ _ Hs1 Hp1) | exact (IH _ Hs2 Hp2)].
Qed.

Lemma prepare_prepared fade it p : prepare fade it = Some p -> prepared p.
Proof.
  unfold prepare, prepared.
  destruct (Z.leb_spec (SourcePartial.numBreakpoints it) 0) as [Hle|Hlt];
    [discriminate|].
  intros [= <-]. simpl. unfold SourcePartial.numBreakpoints in *.
  split; [lia|]. split; [rewrite length_app; simpl; lia|].
  apply start_nonneg.
Qed.

Lemma setup_prepared ps pitch0 s : Forall prepared (partials (setup ps pitch0 s)).
Proof.
  rewrite setup_partials. apply Forall_forall. intros p Hp.
  apply list_elem_of_omap in Hp as (it & _ & Hit).
  eapply prepare_prepared; eauto.
Qed.

End SessionFrame.

(** ** Partial preparation *)

Section Preparation.
Context {Osc : Type} {osc_ops : RealtimeOscillator Osc}
  {null_ops : BreakpointUtils} {target : Target}.
Implicit Types (s : RealTimeSynthesizer Osc) (p : PartialStruct).

(** C7.  For every source partial with at least one breakpoint, original
    start S and original end E, the render partial that [setup] builds
    starts at exactly max(0, S - fadeDuration), ends with a breakpoint at
    E + fadeDuration, has the original breakpoints in between, so two
    more than the original, and both boundary breakpoints have amplitude
    exactly 0 (the helpers that make them return amplitude 0). *)
Theorem setup_fade_bounds (ps : PartialList) (pitch0 : Q) s (it : Partial) :
  (forall b t, _amplitude (makeNullBefore b t) = 0%Q) ->
  (forall b t, _amplitude (makeNullAfter b t) = 0%Q) ->
  it ∈ ps ->
  0 < SourcePartial.numBreakpoints it ->
  exists p, p ∈ partials (setup ps pitch0 s)
            /\ fade_bounds (m_fadeTimeSec s) it p.
Proof.
  intros Hbefore Hafter Hin Hn.
  destruct (prepare_keep (m_fadeTimeSec s) it Hn) as [p Hp].
  exists p. split.
  - rewrite setup_partials. apply list_elem_of_omap. eauto.
  - apply prepare_Some in Hp as (_ & Hstart & Hend & Hnum & Hbps & _).
    unfold fade_bounds. split; [done|]. split; [done|]. split.
    + rewrite Hbps. simpl. rewrite length_app. simpl.
      unfold SourcePartial.numBreakpoints. lia.
    + eexists _, _. split; [exact Hbps|]. split; [apply Hbefore | apply Hafter].
Qed.

(** The rejection that [setup] implements: a source partial without
    breakpoints is skipped and the others are prepared as if it had not
    been supplied. *)
Lemma setup_skips_empty (ps1 ps2 : PartialList) (it : Partial) (pitch0 : Q) s :
  SourcePartial.numBreakpoints it <= 0 ->
  setup (ps1 ++ it :: ps2) pitch0 s = setup (ps1 ++ ps2) pitch0 s.
Proof.
  intros Hn. unfold setup. do 2 f_equal.
  rewrite !omap_app. simpl. by rewrite (prepare_skip _ _ Hn).
Qed.

(** C10.  After [setup] and any sequence of calls of [synthesizeNext],
    every partial of the synthesizer has at least three breakpoints, as
    many as [numBreakpoints] says, and a start time that is not negative;
    so [breakpoints[0]] and [breakpoints[1]] exist and the first early
    return of [synthesize] is not taken. *)
Theorem prepared_reads_in_bounds (ps : PartialList) (pitch0 : Q) s (sizes : list Z) :
  Forall reads_in_bounds (partials (render sizes (setup ps pitch0 s)).2).
Proof.
  assert (Hprep : Forall prepared (partials (render sizes (setup ps pitch0 s)).2)).
  { eapply prepared_of_shapes; [|apply (setup_prepared ps pitch0 s)].
    pose proof (render_config sizes (setup ps pitch0 s)) as Hc.
    unfold config in Hc. congruence. }
  eapply Forall_impl; [exact Hprep|].
  intros p (H3 & Hlen & H0). split; [done|].
  split; [apply lookup_lt_is_Some; lia|].
  split; [apply lookup_lt_is_Some; lia|].
  unfold rejected. apply orb_false_iff. split.
  - apply Z.leb_gt. lia.
  - by apply Qltb_ge.
Qed.

End Preparation.

Import Reference.

(** C8.  A source partial that starts before time zero is not rejected.
    [setup] clamps the start time of its render partial to 0, so the test
    [p.startTime < 0] at the head of [synthesize] never holds, and the
    partial is kept with its breakpoints at their negative times.  When its
    turn comes, the first segment has the span -3: the current sample and
    the position of the moving pointer go to -3, in front of the buffer,
    and the two samples of the next segment are written there.  (The
    conversion of a negative double to [index_type] is undefined in C++;
    the spans are the two's complement ones.) *)
Theorem negative_start_is_rendered :
  let s := setup [Examples.before_zero] 1 Examples.synth0 in
  let p := partial_at s 0 in
  let l := Examples.before_zero_loop in
  let l1 := (segment 4 (1 # 4) 8 l).1 in
  let s' := synthesizeNext (target := Reference.lp64) 8 s in
  (SourcePartial.startTime Examples.before_zero < 0)%Q
  /\ length (partials s) = 1%nat
  /\ startTime p = 0%Q /\ rejected p = false
  /\ (breakpoint_at p 1).1 = (-1)%Q
  /\ span 4 l = -3
  /\ buffer_pos l1 = -3 /\ currentSamp (state (loop_p l1)) = -3
  /\ span 4 (next_i l1) = 2
  /\ partialIdx s' = 1
  /\ currentSamp (state (partial_at s' 0)) = -1.
Proof. vm_compute. repeat split; congruence. Qed.

Lemma setup_fade_bounds_witness :
  exists p, p ∈ partials (setup [Examples.two] 1 Examples.synth0)
            /\ fade_bounds (1 # 2) Examples.two p.
Proof.
  apply (setup_fade_bounds [Examples.two] 1 Examples.synth0 Examples.two).
  - reflexivity.
  - reflexivity.
  - apply list_elem_of_singleton. reflexivity.
  - reflexivity.
Defined.

(** ** The loops of [synthesizeNext] and the buffer *)

Section Dims.
Context {Osc : Type} {osc_ops : RealtimeOscillator Osc}
  {null_ops : BreakpointUtils} {target : Target}.
Implicit Types (s : RealTimeSynthesizer Osc) (p : PartialStruct).

Lemma synthesize_at_dims j samples s : dims (synthesize_at j samples s) = dims s.
Proof.
  pose proof (synthesize_at_cursors j samples s) as (_ & Hp & _ & Hl & Hc & Hv).
  unfold dims. by rewrite Hp, Hl, Hc, Hv.
Qed.

Lemma resume_dims size samples s : dims (resume size samples s) = dims s.
Proof.
  revert s. induction size as [|size IH]; intros s; simpl; [done|].
  destruct (partialsBeingProcessed s) as [|j rest]; [done|].
  rewrite IH. apply synthesize_at_dims.
Qed.

Lemma activate_dims fuel samples s : dims (activate fuel samples s) = dims s.
Proof.
  revert s. induction fuel as [|fuel IH]; intros s; simpl; [done|].
  destruct (partialIdx s <? Z.of_nat (length (partials s))); [|done].
  destruct (_ >? processedSamples s).
  - unfold dims. simpl. by rewrite length_insert.
  - rewrite IH.
    match goal with
    | |- dims (set_partialIdx _ (set_queue _ ?t)) = _ =>
        change (dims t = dims s)
    end.
    rewrite synthesize_at_dims. unfold dims. simpl. by rewrite length_insert.
Qed.

Lemma synthesizeNext_dims samples s :
  dims (synthesizeNext samples s)
  = (processedSamples s + samples,
     length (cells (prepare_buffer samples (buffer s))),
     vsize (prepare_buffer samples (buffer s)),
     length (partials s)).
Proof.
  unfold synthesizeNext. rewrite activate_dims, resume_dims. reflexivity.
Qed.

Lemma index_of_int_small n : 0 <= n < 2 ^ 31 -> index_of_int n = n.
Proof. intros Hn. unfold index_of_int. apply Z.mod_small. lia. Qed.

Lemma reserve_capacity n v :
  0 <= vsize v <= Buffer.capacity v -> 0 <= n ->
  n <= Buffer.capacity (Buffer.reserve n v).
Proof.
  unfold Buffer.reserve, Buffer.capacity. intros Hv Hn.
  destruct (Z.ltb_spec (Z.of_nat (length (cells v))) n); [|simpl; lia].
  simpl. rewrite length_app, length_take, length_replicate. lia.
Qed.

End Dims.

(** ** The preparation of the buffer *)

Section BufferFacts.
Context {Osc : Type} {osc_ops : RealtimeOscillator Osc}
  {null_ops : BreakpointUtils} {target : Target}.
Implicit Types (s : RealTimeSynthesizer Osc) (p : PartialStruct).


Lemma vsize_reserve n v : vsize (Buffer.reserve n v) = vsize v.
Proof. unfold Buffer.reserve. by destruct (_ <? _). Qed.

Lemma capacity_reserve_lt n v :
  0 <= vsize v <= Buffer.capacity v -> Buffer.capacity v < n ->
  Buffer.capacity (Buffer.reserve n v) = n.
Proof.
  unfold Buffer.reserve, Buffer.capacity. intros Hv Hn.
  destruct (Z.ltb_spec (Z.of_nat (length (cells v))) n); [|lia].
  simpl. rewrite length_app, length_take, length_replicate. lia.
Qed.


Lemma clear_bytes_cells (samples : Z) :
  0 <= samples < 2 ^ 31 -> 0 <= sizeof_float_ptr <= 8 ->
  Buffer.memset_cells (clear_bytes samples) = samples * sizeof_float_ptr / 4.
Proof.
  intros Hn Hp. unfold Buffer.memset_cells, clear_bytes, Buffer.sizeof_float.
  rewrite (index_of_int_small _ Hn). rewrite Z.mod_small; [done|]. nia.
Qed.

End BufferFacts.

(** C5, on a target with 8-byte pointers.  A call for two samples on a
    buffer of six cells, with no partial to render, clears four cells: the
    cells at positions 2 and 3 are written, though the block ends at
    position 1. *)
Theorem clear_exceeds_block :
  sizeof_float_ptr (Target := lp64) = 8
  /\ cells (buffer (fresh 4 (1 # 2) 6 7)) = [7; 7; 7; 7; 7; 7]%Q
  /\ cells (buffer (synthesizeNext (target := lp64) 2 (fresh 4 (1 # 2) 6 7)))
     = [0; 0; 0; 0; 7; 7]%Q.
Proof. vm_compute. repeat split. Qed.

(** ** One segment *)

Section Segment.
Context {Osc : Type} {osc_ops : RealtimeOscillator Osc}.
Implicit Types (p : PartialStruct) (l : @Loop Osc).

(** The loop of [synthesize] starts with its invariant, and a pass that
    does not leave the loop keeps it. *)
Lemma loop_inv_first p (d : list Q) (osc : Osc) :
  loop_inv (mkLoop (lastBreakpointIdx (state p) + 1) 0 0 p d osc).
Proof. reflexivity. Qed.

Lemma segment_break srate oneOver samples l :
  clipped srate samples l = true -> (segment srate oneOver samples l).2 = true.
Proof.
  unfold segment, clipped. intros ->.
  destruct (oscillate _ _ _ _) as [osc2 ys]. simpl. apply Z.geb_le. lia.
Qed.

Lemma segment_keeps_inv srate oneOver samples l :
  (segment srate oneOver samples l).2 = false ->
  clipped srate samples l = false
  /\ loop_inv (next_i (segment srate oneOver samples l).1).
Proof.
  intros Hb. destruct (clipped srate samples l) eqn:Hc.
  - rewrite segment_break in Hb by done. discriminate.
  - split; [done|]. unfold segment, loop_inv. unfold clipped in Hc. rewrite Hc.
    destruct (oscillate _ _ _ _) as [osc2 ys]. reflexivity.
Qed.

(** The phase is set exactly when the amplitude of the oscillator is zero;
    the amplitude of the breakpoint plays no part. *)
Lemma phase_reset_Some oneOver st bp sampleDiff (osc : Osc) :
  Qis_zero (amplitude osc) = true ->
  phase_reset oneOver st bp sampleDiff osc
  = Some (_phase bp
          - Pi * (prevFrequency st + _frequency bp) * inject_Z sampleDiff * oneOver)%Q.
Proof. unfold phase_reset. by intros ->. Qed.

Lemma phase_reset_None oneOver st bp sampleDiff (osc : Osc) :
  Qis_zero (amplitude osc) = false ->
  phase_reset oneOver st bp sampleDiff osc = None.
Proof. unfold phase_reset. by intros ->. Qed.

(** C6.  When the samples used so far in the call plus the span to the next
    breakpoint exceed the samples asked for, the pass renders exactly the
    samples that are left, the loop ends, and [lastBreakpointIdx] is the one
    from before the pass: the next call starts with the same breakpoint
    index. *)
Theorem clipped_segment_resumes srate oneOver samples l (fuel : nat) :
  loop_inv l ->
  loop_i l < numBreakpoints (loop_p l) ->
  sampleCounter l + span srate l > samples ->
  let l' := segments (S fuel) srate oneOver samples l in
  sampleCounter l' = samples
  /\ buffer_pos l' = buffer_pos l + (samples - sampleCounter l)
  /\ currentSamp (state (loop_p l'))
     = currentSamp (state (loop_p l)) + (samples - sampleCounter l)
  /\ lastBreakpointIdx (state (loop_p l')) = lastBreakpointIdx (state (loop_p l))
  /\ lastBreakpointIdx (state (loop_p l')) + 1 = loop_i l.
Proof.
  intros Hinv Hi Hover. simpl.
  destruct (Z.ltb_spec (loop_i l) (numBreakpoints (loop_p l))) as [_|]; [|lia].
  assert (Hc : clipped srate samples l = true) by (apply Z.gtb_gt; exact Hover).
  pose proof (segment_break srate oneOver samples l Hc) as Hb.
  destruct (segment srate oneOver samples l) as [l' brk] eqn:Hseg.
  simpl in Hb. subst brk.
  unfold segment in Hseg. unfold clipped in Hc. rewrite Hc in Hseg.
  destruct (oscillate _ _ _ _) as [osc2 ys].
  injection Hseg as <-. simpl. unfold loop_inv in Hinv. repeat split; lia.
Qed.

End Segment.

Lemma clipped_segment_resumes_witness :
  let l' := segments 3 4 (1 # 4) 1 Examples.two_loop in
  sampleCounter l' = 1
  /\ buffer_pos l' = buffer_pos Examples.two_loop + (1 - sampleCounter Examples.two_loop)
  /\ currentSamp (state (loop_p l'))
     = currentSamp (state (loop_p Examples.two_loop))
       + (1 - sampleCounter Examples.two_loop)
  /\ lastBreakpointIdx (state (loop_p l'))
     = lastBreakpointIdx (state (loop_p Examples.two_loop))
  /\ lastBreakpointIdx (state (loop_p l')) + 1 = loop_i Examples.two_loop.
Proof.
  apply (clipped_segment_resumes 4 (1 # 4) 1 Examples.two_loop 2);
    vm_compute; congruence.
Defined.

(** C4, at the first segment of a partial whose first breakpoint has
    amplitude zero.  The amplitude of the oscillator is zero and so is the
    amplitude of the target breakpoint; the code sets the phase of the
    oscillator to [phase - Pi * (prevFrequency + frequency) * span / srate]
    all the same, and the oscillator ends the segment in another state than
    it would have without that. *)
Theorem phase_is_set_before_silent_breakpoint :
  let l := Examples.onset_loop in
  let target := (breakpoint_at (loop_p l) 1).2 in
  let ph := (_phase target
             - Pi * (prevFrequency (state (loop_p l)) + _frequency target)
               * inject_Z (span 4 l) * (1 # 4))%Q in
  amplitude (loop_osc l) = 0%Q
  /\ _amplitude target = 0%Q
  /\ clipped 4 8 l = false
  /\ phase_reset (1 # 4) (state (loop_p l)) target (span 4 l) (loop_osc l) = Some ph
  /\ loop_osc (segment 4 (1 # 4) 8 l).1
     = (oscillate (span 4 l) target 4 (setPhase ph (loop_osc l))).1
  /\ loop_osc (segment 4 (1 # 4) 8 l).1
     <> (oscillate (span 4 l) target 4 (loop_osc l)).1.
Proof. vm_compute. repeat split; congruence. Qed.

(** ** The cursors of a partial *)

Section Cursors.
Context {Osc : Type} {osc_ops : RealtimeOscillator Osc}.
Implicit Types (p q : PartialStruct) (l : @Loop Osc).

Lemma shape_time p q i :
  shape p = shape q -> (breakpoint_at p i).1 = (breakpoint_at q i).1.
Proof.
  unfold shape, breakpoint_at. intros [= _ _ _ Hb].
  apply (f_equal (fun bs => bs !! Z.to_nat i)) in Hb.
  rewrite !list_lookup_fmap in Hb.
  destruct (breakpoints p !! _) as [[t b]|], (breakpoints q !! _) as [[t' b']|];
    simpl in *; unfold envelope_of in *; simpl in *; congruence.
Qed.

Lemma target_sample_shape srate p q i :
  shape p = shape q -> target_sample srate p i = target_sample srate q i.
Proof. intros Hs. unfold target_sample. by rewrite (shape_time p q i Hs). Qed.

Lemma shape_fields p q :
  shape p = shape q ->
  startTime p = startTime q /\ numBreakpoints p = numBreakpoints q.
Proof. unfold shape. by intros [= -> _ -> _]. Qed.

Lemma timed_shape srate p q : shape p = shape q -> timed srate p -> timed srate q.
Proof.
  intros Hs (Hp & H0 & Hr & Hm).
  destruct (shape_fields p q Hs) as [Hst Hn].
  split; [exact (prepared_shape p q Hs Hp)|].
  split; [by rewrite <- (shape_time p q 0 Hs), <- Hst|].
  split.
  - intros i Hi. rewrite <- (target_sample_shape srate p q i Hs). apply Hr. lia.
  - intros i j Hij Hj. rewrite <- !(target_sample_shape srate p q _ Hs).
    apply Hm; lia.
Qed.

Lemma int_of_index_small u : 0 <= u < 2 ^ 31 -> int_of_index u = u.
Proof.
  intros Hu. unfold int_of_index. rewrite Z.mod_small by lia.
  destruct (Z.ltb_spec u (2 ^ 31)); lia.
Qed.

(** Within the bounds of [timed] and [on_track] the span to the next
    breakpoint is the difference of the sample indices. *)
Lemma span_exact srate l :
  timed srate (loop_p l) -> on_track srate (loop_p l) -> loop_inv l ->
  loop_i l < numBreakpoints (loop_p l) ->
  span srate l
  = target_sample srate (loop_p l) (loop_i l) - currentSamp (state (loop_p l))
  /\ 0 <= span srate l.
Proof.
  intros (_ & _ & Hr & _) (Hl & Hc & Hnext & _) Hinv Hi.
  unfold loop_inv in Hinv.
  specialize (Hr (loop_i l) ltac:(lia)). specialize (Hnext ltac:(lia)).
  rewrite <- Hinv in Hnext.
  unfold span. fold (target_sample srate (loop_p l) (loop_i l)).
  unfold index_sub, index_of_int.
  rewrite (Z.mod_small (currentSamp _)) by lia.
  rewrite Z.mod_small by lia. rewrite int_of_index_small by lia. lia.
Qed.

Lemma segment_on_track srate oneOver samples l :
  timed srate (loop_p l) -> on_track srate (loop_p l) -> loop_inv l ->
  loop_i l < numBreakpoints (loop_p l) ->
  0 <= sampleCounter l <= samples ->
  on_track srate (loop_p (segment srate oneOver samples l).1)
  /\ advanced (loop_p l) (loop_p (segment srate oneOver samples l).1)
  /\ 0 <= sampleCounter (segment srate oneOver samples l).1 <= samples
  /\ ((segment srate oneOver samples l).2 = false ->
      sampleCounter (segment srate oneOver samples l).1 < samples).
Proof.
  intros Ht Ho Hinv Hi Hc.
  destruct (span_exact srate l Ht Ho Hinv Hi) as [Hspan Hspan0].
  pose proof (segment_frame srate oneOver samples l) as [Hshape _].
  pose proof (target_sample_shape srate _ _ (loop_i l) Hshape) as Htgt.
  pose proof (target_sample_shape srate _ _ (loop_i l + 1) Hshape) as Htgt1.
  pose proof (target_sample_shape srate _ _ (loop_i l - 1) Hshape) as Htgt0.
  destruct (shape_fields _ _ Hshape) as [_ Hnum].
  destruct Ht as (_ & _ & _ & Hm). destruct Ho as (Hl & Hc0 & Hnext & Hlow).
  unfold loop_inv in Hinv. unfold on_track, advanced.
  rewrite Hnum. revert Htgt Htgt1 Htgt0. unfold segment.
  destruct (oscillate _ _ _ _) as [osc2 ys]. simpl.
  destruct (Z.gtb_spec (sampleCounter l + span srate l) samples) as [Hover|Hfit];
    simpl; intros Htgt Htgt1 Htgt0.
  - replace (loop_i l - 1 + 1) with (loop_i l) by lia. rewrite Htgt, Htgt0.
    replace (loop_i l - 1) with (lastBreakpointIdx (state (loop_p l))) by lia.
    split; [|split; [|split]].
    + split; [lia|]. split; [lia|]. split; [intros _; lia|lia].
    + lia.
    + lia.
    + intros Hb. rewrite Z.geb_leb in Hb. apply Z.leb_gt in Hb. lia.
  - split; [|split; [|split]].
    + split; [lia|]. split; [lia|]. split; [|rewrite Htgt; lia].
      intros Hlt. rewrite Htgt1.
      specialize (Hm (loop_i l) (loop_i l + 1) ltac:(lia) ltac:(lia)). lia.
    + lia.
    + lia.
    + intros Hb. rewrite Z.geb_leb in Hb. apply Z.leb_gt in Hb. lia.
Qed.

End Cursors.

Section CursorsOfPartial.
Context {Osc : Type} {osc_ops : RealtimeOscillator Osc}.
Implicit Types (p q : PartialStruct) (l : @Loop Osc).

Lemma advanced_refl p : advanced p p.
Proof. unfold advanced. lia. Qed.

Lemma advanced_trans p q r : advanced p q -> advanced q r -> advanced p r.
Proof. unfold advanced. lia. Qed.

Lemma segments_on_track fuel srate oneOver samples l :
  timed srate (loop_p l) -> on_track srate (loop_p l) -> loop_inv l ->
  0 <= sampleCounter l <= samples ->
  on_track srate (loop_p (segments fuel srate oneOver samples l))
  /\ advanced (loop_p l) (loop_p (segments fuel srate oneOver samples l)).
Proof.
  revert l. induction fuel as [|fuel IH]; intros l Ht Ho Hinv Hc; simpl.
  { split; [done|apply advanced_refl]. }
  destruct (Z.ltb_spec (loop_i l) (numBreakpoints (loop_p l))) as [Hi|Hi];
    [|split; [done|apply advanced_refl]].
  pose proof (segment_on_track srate oneOver samples l Ht Ho Hinv Hi Hc)
    as (Ho' & Hadv & Hc' & Hlt).
  pose proof (segment_keeps_inv srate oneOver samples l) as Hkeep.
  pose proof (segment_frame srate oneOver samples l) as [Hshape _].
  destruct (segment srate oneOver samples l) as [l' brk]. simpl in *.
  destruct brk; [done|].
  destruct (Hkeep eq_refl) as [_ Hinv'].
  assert (Ht' : timed srate (loop_p l'))
    by exact (timed_shape srate _ _ (eq_sym Hshape) Ht).
  destruct (IH (next_i l') Ht' Ho' Hinv' Hc') as [Ho'' Hadv'].
  split; [done|]. eapply advanced_trans; eauto.
Qed.

Lemma synthesize_on_track srate oneOver p d samples (osc : Osc) :
  timed srate p -> on_track srate p -> 0 <= samples ->
  on_track srate (synthesize srate oneOver p d samples osc).1.1
  /\ advanced p (synthesize srate oneOver p d samples osc).1.1.
Proof.
  intros Ht Ho Hn. unfold synthesize.
  destruct (rejected p); [split; [done|apply advanced_refl]|].
  destruct (finished p); [split; [done|apply advanced_refl]|]. simpl.
  exact (segments_on_track _ srate oneOver samples
           (mkLoop _ 0 0 p d _) Ht Ho (loop_inv_first _ _ _) ltac:(simpl; lia)).
Qed.

(** A partial that has just been activated is on track. *)
Lemma activated_on_track srate p :
  timed srate p ->
  on_track srate (activated (with_currentSamp (start_sample srate p) p)).
Proof.
  intros ((H3 & Hlen & H0) & Hfirst & Hr & Hm).
  unfold on_track, activated, with_currentSamp, NoBreakpointProcessed. simpl.
  assert (Hs : start_sample srate p = target_sample srate p 0).
  { unfold start_sample, target_sample. rewrite Hfirst.
    apply int_of_index_small.
    specialize (Hr 0 ltac:(lia)). unfold target_sample in Hr.
    by rewrite Hfirst in Hr. }
  rewrite Hs. pose proof (Hr 0 ltac:(lia)).
  split; [lia|]. split; [lia|]. split; [|apply Z.le_refl]. intros _.
  exact (Hm 0 1 ltac:(lia) ltac:(lia)).
Qed.

End CursorsOfPartial.

(** ** The cursors across a call *)

Section CursorsOfSession.
Context {Osc : Type} {osc_ops : RealtimeOscillator Osc}
  {null_ops : BreakpointUtils} {target : Target}.
Implicit Types (s : RealTimeSynthesizer Osc) (p q : PartialStruct).

Lemma synthesize_at_lookup j samples s p :
  partials s !! j = Some p ->
  partials (synthesize_at j samples s) !! j
  = Some (synthesize (m_srateHz s) (OneOverSrate s) p (cells (buffer s))
            samples (m_osc s)).1.1.
Proof.
  intros Hp. unfold synthesize_at, partial_at. rewrite Hp. simpl.
  destruct (synthesize _ _ _ _ _ _) as [[p' d] osc]. simpl.
  apply list_lookup_insert_eq. eapply lookup_lt_Some; eauto.
Qed.

Lemma config_rate s s' : config s' = config s -> m_srateHz s' = m_srateHz s.
Proof. unfold config. by intros [= -> _ _ _ _]. Qed.

Lemma timed_of_shapes srate (ps qs : list PartialStruct) :
  shape <$> ps = shape <$> qs -> Forall (timed srate) ps -> Forall (timed srate) qs.
Proof.
  revert qs. induction ps as [|p ps IH]; intros [|q qs] Hs Hp;
    try discriminate; [constructor|].
  rewrite !fmap_cons in Hs.
  assert (Hs1 : shape p = shape q)
    by (apply (f_equal head) in Hs; simpl in Hs; congruence).
  assert (Hs2 : shape <$> ps = shape <$> qs)
    by (apply (f_equal tail) in Hs; exact Hs).
  apply Forall_cons in Hp as [Hp1 Hp2].
  constructor; [exact (timed_shape _ _ _ Hs1 Hp1) | exact (IH _ Hs2 Hp2)].
Qed.

Lemma config_timed s s' :
  config s' = config s ->
  Forall (timed (m_srateHz s)) (partials s) ->
  Forall (timed (m_srateHz s')) (partials s').
Proof.
  intros Hc Ht. rewrite (config_rate _ _ Hc).
  eapply timed_of_shapes; [|exact Ht]. unfold config in Hc. congruence.
Qed.

Lemma cursors_advanced_refl s : cursors_advanced s s.
Proof. intros j p p' _ Hp Hp'. assert (p = p') as -> by congruence. apply advanced_refl. Qed.

Lemma cursors_advanced_trans s1 s2 s3 :
  partialIdx s1 <= partialIdx s2 ->
  length (partials s2) = length (partials s1) ->
  cursors_advanced s1 s2 -> cursors_advanced s2 s3 -> cursors_advanced s1 s3.
Proof.
  intros Hidx Hlen H12 H23 j p p' Hj Hp Hp'.
  destruct (lookup_lt_is_Some_2 (partials s2) j) as [q Hq].
  { rewrite Hlen. eapply lookup_lt_Some; eauto. }
  eapply advanced_trans; [eapply H12 | eapply H23]; eauto. lia.
Qed.

(** One pass of the loop over the partials being processed. *)
Lemma resume_step_inv samples s j rest :
  0 <= samples -> session_inv s -> partialsBeingProcessed s = j :: rest ->
  let s1 := synthesize_at j samples s in
  let s2 := set_queue (if unfinished (partial_at s1 j) then rest ++ [j] else rest) s1 in
  session_inv s2 /\ cursors_advanced s s2 /\ partialIdx s2 = partialIdx s
  /\ length (partials s2) = length (partials s).
Proof.
  intros Hn (Hidx & Htimed & Hact & Hq & Hnd) Hqueue s1 s2.
  assert (Hj : Z.of_nat j < partialIdx s)
    by (apply Hq; rewrite Hqueue; apply elem_of_cons; by left).
  destruct (lookup_lt_is_Some_2 (partials s) j) as [p Hp]; [lia|].
  pose proof (Forall_lookup_1 _ _ _ _ Htimed Hp) as Htp.
  destruct (Hact j p Hp Hj) as [Hop _].
  pose proof (synthesize_on_track (m_srateHz s) (OneOverSrate s) p
                (cells (buffer s)) samples (m_osc s) Htp Hop Hn) as [Hop' Hadv].
  pose proof (synthesize_at_lookup j samples s p Hp) as Hp'.
  pose proof (synthesize_at_config j samples s) as Hcfg.
  pose proof (synthesize_at_cursors j samples s) as (Hpi & _ & _ & Hlen & _).
  pose proof (config_rate _ _ Hcfg) as Hrate.
  fold s1 in Hp', Hcfg, Hpi, Hlen, Hrate.
  set (p' := (synthesize (m_srateHz s) (OneOverSrate s) p (cells (buffer s))
                samples (m_osc s)).1.1) in *.
  assert (Hpa : partial_at s1 j = p') by (unfold partial_at; by rewrite Hp').
  rewrite Hqueue in Hnd. apply NoDup_cons in Hnd as [Hjrest Hndrest].
  assert (Hother : forall k, k <> j -> partials s1 !! k = partials s !! k)
    by (intros k Hk; by apply synthesize_at_other).
  split; [|split; [|split]].
  - unfold session_inv. subst s2. simpl. rewrite Hpi, Hlen, Hrate.
    split; [done|].
    split; [rewrite <- Hrate; exact (config_timed s s1 Hcfg Htimed)|].
    split; [|split].
    + intros k q Hk Hkidx. destruct (decide (k = j)) as [->|Hne].
      * assert (q = p') as -> by congruence. split; [done|].
        rewrite Hpa. destruct (unfinished p') eqn:Hu.
        -- split; [done|]. intros _. apply elem_of_app. right.
           by apply list_elem_of_singleton.
        -- split; [intros Hin; by destruct Hjrest | discriminate].
      * rewrite (Hother k Hne) in Hk. destruct (Hact k q Hk Hkidx) as [Hoq Hiff].
        split; [done|]. rewrite <- Hiff, Hqueue.
        destruct (unfinished (partial_at s1 j)).
        -- rewrite elem_of_app, !elem_of_cons, elem_of_nil. tauto.
        -- rewrite elem_of_cons. tauto.
    + intros k Hk. apply Hq. rewrite Hqueue.
      destruct (unfinished (partial_at s1 j)).
      * apply elem_of_app in Hk as [Hk|Hk]; [apply elem_of_cons; by right|].
        apply list_elem_of_singleton in Hk as ->. apply elem_of_cons. by left.
      * apply elem_of_cons. by right.
    + destruct (unfinished (partial_at s1 j)); [|done].
      apply NoDup_app. split; [done|]. split; [|apply NoDup_singleton].
      intros k Hk Hk'. apply list_elem_of_singleton in Hk' as ->. done.
  - intros k q q' Hk Hq1 Hq2. subst s2. simpl in Hq2.
    destruct (decide (k = j)) as [->|Hne].
    + assert (q = p) as -> by congruence. assert (q' = p') as -> by congruence.
      done.
    + rewrite (Hother k Hne) in Hq2. assert (q = q') as -> by congruence.
      apply advanced_refl.
  - done.
  - done.
Qed.

Lemma resume_inv size samples s :
  0 <= samples -> session_inv s ->
  session_inv (resume size samples s)
  /\ cursors_advanced s (resume size samples s)
  /\ partialIdx (resume size samples s) = partialIdx s
  /\ length (partials (resume size samples s)) = length (partials s).
Proof.
  intros Hn. revert s. induction size as [|size IH]; intros s Hinv; simpl.
  { split; [done|]. split; [apply cursors_advanced_refl|done]. }
  destruct (partialsBeingProcessed s) as [|j rest] eqn:Hq.
  { split; [done|]. split; [apply cursors_advanced_refl|done]. }
  destruct (resume_step_inv samples s j rest Hn Hinv Hq) as (Hinv1 & Hadv1 & Hidx1 & Hlen1).
  destruct (IH _ Hinv1) as (Hinv2 & Hadv2 & Hidx2 & Hlen2).
  split; [done|]. split; [|split; congruence].
  eapply cursors_advanced_trans; eauto. lia.
Qed.

(** The partial at [partialIdx] when its turn has not come: only its
    current sample is written. *)
Lemma not_due_inv s (j : nat) p0 :
  session_inv s -> partialIdx s = Z.of_nat j -> partials s !! j = Some p0 ->
  session_inv
    (set_partials
       (<[j := with_currentSamp (start_sample (m_srateHz s) p0) p0]> (partials s)) s).
Proof.
  intros (Hidx & Htimed & Hact & Hq & Hnd) Hj Hp0.
  unfold session_inv. simpl. rewrite length_insert.
  split; [done|]. split; [|split; [|done]].
  - apply Forall_insert; [done|].
    eapply timed_shape; [|exact (Forall_lookup_1 _ _ _ _ Htimed Hp0)]. done.
  - intros k q Hk Hkidx. rewrite list_lookup_insert_ne in Hk by lia. eauto.
Qed.

(** The partial at [partialIdx] when its turn has come. *)
Lemma due_inv samples s (j : nat) p0 :
  0 <= samples ->
  session_inv s -> partialIdx s = Z.of_nat j -> partials s !! j = Some p0 ->
  let p := with_currentSamp (start_sample (m_srateHz s) p0) p0 in
  let s1 := synthesize_at j samples
              (set_partials (<[j := activated p]> (partials s)) s) in
  let q := if unfinished (partial_at s1 j)
           then partialsBeingProcessed s1 ++ [j] else partialsBeingProcessed s1 in
  let s2 := set_partialIdx (partialIdx s1 + 1) (set_queue q s1) in
  session_inv s2
  /\ partialIdx s2 = partialIdx s + 1
  /\ length (partials s2) = length (partials s)
  /\ (forall k : nat, k <> j -> partials s2 !! k = partials s !! k).
Proof.
  intros Hn (Hidx & Htimed & Hact & Hq & Hnd) Hj Hp0 p.
  set (sA := set_partials (<[j := activated p]> (partials s)) s).
  intros s1 q s2.
  pose proof (lookup_lt_Some _ _ _ Hp0) as Hjlen.
  pose proof (Forall_lookup_1 _ _ _ _ Htimed Hp0) as Htp0.
  assert (HpA : partials sA !! j = Some (activated p))
    by (subst sA; simpl; by apply list_lookup_insert_eq).
  assert (Hta : timed (m_srateHz s) (activated p))
    by (eapply timed_shape; [|exact Htp0]; done).
  pose proof (activated_on_track (m_srateHz s) p0 Htp0) as Hoa. fold p in Hoa.
  pose proof (synthesize_on_track (m_srateHz sA) (OneOverSrate sA) (activated p)
                (cells (buffer sA)) samples (m_osc sA) Hta Hoa Hn) as [Hop' _].
  pose proof (synthesize_at_lookup j samples sA _ HpA) as Hp'. fold s1 in Hp'.
  set (p' := (synthesize (m_srateHz sA) (OneOverSrate sA) (activated p)
                (cells (buffer sA)) samples (m_osc sA)).1.1) in *.
  pose proof (synthesize_at_config j samples sA) as Hcfg. fold s1 in Hcfg.
  pose proof (synthesize_at_cursors j samples sA) as (Hpi & _ & Hqueue & Hlen & _).
  fold s1 in Hpi, Hqueue, Hlen.
  assert (HlenA : length (partials sA) = length (partials s))
    by (subst sA; simpl; apply length_insert).
  assert (HcfgA : config sA = config s).
  { subst sA. unfold config. simpl. f_equal. apply shape_insert. by rewrite Hp0. }
  assert (Hrate : m_srateHz s1 = m_srateHz s)
    by (rewrite (config_rate _ _ Hcfg); done).
  assert (Hpa : partial_at s1 j = p') by (unfold partial_at; by rewrite Hp').
  assert (Hother : forall k : nat, k <> j -> partials s1 !! k = partials s !! k).
  { intros k Hk. unfold s1. rewrite (synthesize_at_other j k samples sA Hk).
    unfold sA. simpl. by rewrite list_lookup_insert_ne. }
  assert (Hjq : j ∉ partialsBeingProcessed s)
    by (intros Hin; apply Hq in Hin; lia).
  assert (Hqs : partialsBeingProcessed s1 = partialsBeingProcessed s) by done.
  split; [|split; [|split]].
  - unfold session_inv. subst s2 q. simpl. rewrite Hpi, Hlen, HlenA, Hrate, Hqs, Hpa.
    change (partialIdx sA) with (partialIdx s).
    split; [lia|]. split; [|split; [|split]].
    + rewrite <- Hrate. apply (config_timed s s1); [congruence|done].
    + intros k r Hk Hkidx. destruct (decide (k = j)) as [->|Hne].
      * assert (r = p') as -> by congruence. split; [done|].
        destruct (unfinished p') eqn:Hu.
        -- split; [done|]. intros _. apply elem_of_app. right.
           by apply list_elem_of_singleton.
        -- split; [intros Hin; by destruct Hjq | discriminate].
      * rewrite (Hother k Hne) in Hk.
        destruct (Hact k r Hk ltac:(lia)) as [Hor Hiff].
        split; [done|]. rewrite <- Hiff.
        destruct (unfinished p').
        -- rewrite elem_of_app, elem_of_cons, elem_of_nil. tauto.
        -- done.
    + intros k Hk. destruct (unfinished p').
      * apply elem_of_app in Hk as [Hk|Hk]; [apply Hq in Hk; lia|].
        apply list_elem_of_singleton in Hk as ->. lia.
      * apply Hq in Hk; lia.
    + destruct (unfinished p'); [|done].
      apply NoDup_app. split; [done|]. split; [|apply NoDup_singleton].
      intros k Hk Hk'. apply list_elem_of_singleton in Hk' as ->. done.
  - subst s2. simpl. rewrite Hpi. done.
  - subst s2. simpl. congruence.
  - intros k Hk. subst s2. simpl. by apply Hother.
Qed.

Lemma activate_inv fuel samples s :
  0 <= samples -> session_inv s ->
  session_inv (activate fuel samples s)
  /\ partialIdx s <= partialIdx (activate fuel samples s)
  /\ length (partials (activate fuel samples s)) = length (partials s)
  /\ (forall k : nat, Z.of_nat k < partialIdx s ->
        partials (activate fuel samples s) !! k = partials s !! k).
Proof.
  intros Hn. revert s. induction fuel as [|fuel IH]; intros s Hinv; simpl.
  { split; [done|]. split; [lia|done]. }
  destruct (Z.ltb_spec (partialIdx s) (Z.of_nat (length (partials s)))) as [Hlt|Hge];
    [|split; [done|]; split; [lia|done]].
  pose proof Hinv as (Hidx & _).
  set (j := Z.to_nat (partialIdx s)).
  assert (Hj : partialIdx s = Z.of_nat j) by (subst j; lia).
  destruct (lookup_lt_is_Some_2 (partials s) j) as [p0 Hp0]; [lia|].
  assert (Hpa : partial_at s j = p0) by (unfold partial_at; by rewrite Hp0).
  rewrite Hpa.
  destruct (_ >? processedSamples s).
  - split; [by apply not_due_inv|]. simpl. rewrite length_insert.
    split; [lia|]. split; [done|].
    intros k Hk. apply list_lookup_insert_ne. lia.
  - destruct (due_inv samples s j p0 Hn Hinv Hj Hp0) as (Hinv2 & Hidx2 & Hlen2 & Hother).
    destruct (IH _ Hinv2) as (Hinv3 & Hidx3 & Hlen3 & Hother3).
    split; [exact Hinv3|]. split; [lia|].
    split; [exact (eq_trans Hlen3 Hlen2)|].
    intros k Hk. etrans; [apply Hother3; lia|apply Hother; lia].
Qed.

(** A call of [synthesizeNext] keeps the invariant, and the partials that
    were active before the call have not moved back. *)
Lemma synthesizeNext_inv samples s :
  0 <= samples -> session_inv s ->
  session_inv (synthesizeNext samples s)
  /\ cursors_advanced s (synthesizeNext samples s)
  /\ partialIdx s <= partialIdx (synthesizeNext samples s)
  /\ length (partials (synthesizeNext samples s)) = length (partials s).
Proof.
  intros Hn Hinv. unfold synthesizeNext.
  set (s2 := set_buffer _ (set_processedSamples _ s)).
  assert (Hinv2 : session_inv s2) by exact Hinv.
  destruct (resume_inv (length (partialsBeingProcessed s2)) samples s2 Hn Hinv2)
    as (Hinv3 & Hadv3 & Hidx3 & Hlen3).
  set (s3 := resume _ samples s2) in *.
  destruct (activate_inv (Z.to_nat (Z.of_nat (length (partials s3)) - partialIdx s3))
              samples s3 Hn Hinv3) as (Hinv4 & Hidx4 & Hlen4 & Hother4).
  split; [done|]. split; [|split; [|exact (eq_trans Hlen4 Hlen3)]].
  - intros j p p' Hj Hp Hp'.
    rewrite Hother4 in Hp' by (rewrite Hidx3; exact Hj).
    exact (Hadv3 j p p' Hj Hp Hp').
  - apply (Z.le_trans _ (partialIdx s3)); [|exact Hidx4].
    rewrite Hidx3. apply Z.le_refl.
Qed.

End CursorsOfSession.

(** ** Sample indices of a valid source partial *)

Lemma Qtrunc_floor (x : Q) : (0 <= x)%Q -> Qtrunc x = Qfloor x.
Proof.
  destruct x as [n d]. unfold Qle, Qtrunc, Qfloor. simpl. intros Hn.
  apply Z.quot_div_nonneg; lia.
Qed.

Lemma sample_index_mono (srate t1 t2 : Q) :
  (0 <= srate)%Q -> (0 <= t1)%Q -> (t1 <= t2)%Q ->
  (t2 * srate + (1 # 2) < inject_Z (2 ^ 31))%Q ->
  0 <= sample_index t1 srate <= sample_index t2 srate
  /\ sample_index t2 srate < 2 ^ 31.
Proof.
  intros Hr H1 H12 Hb.
  assert (H2 : (0 <= t2)%Q) by (eapply Qle_trans; eauto).
  assert (Hx1 : (0 <= t1 * srate + (1 # 2))%Q).
  { apply (Qle_trans _ (0 + 0)); [apply Qle_refl|].
    apply Qplus_le_compat; [by apply Qmult_le_0_compat | discriminate]. }
  assert (Hx12 : (t1 * srate + (1 # 2) <= t2 * srate + (1 # 2))%Q).
  { apply Qplus_le_compat; [|apply Qle_refl]. by apply Qmult_le_compat_r. }
  assert (Hx2 : (0 <= t2 * srate + (1 # 2))%Q) by (eapply Qle_trans; eauto).
  unfold sample_index, index_of_double.
  rewrite !Qtrunc_floor by done.
  assert (Hf1 : 0 <= Qfloor (t1 * srate + (1 # 2)))
    by (change 0 with (Qfloor 0); by apply Qfloor_resp_le).
  assert (Hf12 : Qfloor (t1 * srate + (1 # 2)) <= Qfloor (t2 * srate + (1 # 2)))
    by (by apply Qfloor_resp_le).
  assert (Hf2 : Qfloor (t2 * srate + (1 # 2)) < 2 ^ 31).
  { rewrite Zlt_Qlt. eapply Qle_lt_trans; [apply Qfloor_le|exact Hb]. }
  rewrite !Z.mod_small by lia. lia.
Qed.

Section ValidSource.
Context {null_ops : BreakpointUtils}.

(** The times of the breakpoints of a prepared partial. *)
Lemma prepare_times (srate fade : Q) (it : Partial) (p : PartialStruct) :
  (0 <= fade)%Q -> valid_source srate fade it -> prepare fade it = Some p ->
  forall (i j : nat) a b, (i <= j)%nat ->
    breakpoints p !! i = Some a -> breakpoints p !! j = Some b ->
    (0 <= a.1)%Q /\ (a.1 <= b.1)%Q
    /\ (b.1 <= SourcePartial.endTime it + fade)%Q.
Proof.
  intros Hf (Hs & Hsorted & _) Hp.
  apply prepare_Some in Hp as (Hn & Hstart & _ & _ & Hbps & _).
  assert (Hst0 : (0 <= startTime p)%Q) by (rewrite Hstart; apply Q.le_max_l).
  assert (HstS : (startTime p <= SourcePartial.startTime it)%Q).
  { rewrite Hstart. apply Q.max_lub; [done|].
    rewrite <- (Qplus_0_r (SourcePartial.startTime it)) at 2.
    apply Qplus_le_compat; [apply Qle_refl|].
    apply (Qopp_le_compat 0 fade) in Hf. exact Hf. }
  destruct it as [|hd0 tl0] eqn:Hit;
    [unfold SourcePartial.numBreakpoints in Hn; simpl in Hn; lia|].
  rewrite <- Hit in *.
  assert (Hhd : it !! 0%nat = Some hd0) by (by rewrite Hit).
  assert (Hlast : it !! (length it - 1)%nat = Some (List.last it (0%Q, Breakpoint0))).
  { rewrite Hit. clear. revert hd0. induction tl0 as [|x tl IH]; intros hd0; [done|].
    specialize (IH x). simpl in *. rewrite Nat.sub_0_r in *.
    destruct tl; [done|]. exact IH. }
  assert (HS : SourcePartial.startTime it = hd0.1)
    by (unfold SourcePartial.startTime; by rewrite Hit).
  (* every time of [it] is between its start and its end *)
  assert (Hmid : forall k c, it !! k = Some c ->
            (SourcePartial.startTime it <= c.1)%Q
            /\ (c.1 <= SourcePartial.endTime it)%Q).
  { intros k c Hk. pose proof (lookup_lt_Some _ _ _ Hk) as Hlt. split.
    - rewrite HS. apply (Hsorted 0%nat k hd0 c); [lia|done|done].
    - apply (Hsorted k (length it - 1)%nat c _); [lia|done|exact Hlast]. }
  assert (HSE : (SourcePartial.startTime it <= SourcePartial.endTime it)%Q)
    by (destruct (Hmid 0%nat hd0 Hhd) as [_ HE]; by rewrite HS).
  assert (HEF : (SourcePartial.endTime it <= SourcePartial.endTime it + fade)%Q).
  { rewrite <- (Qplus_0_r (SourcePartial.endTime it)) at 1.
    apply Qplus_le_compat; [apply Qle_refl|done]. }
  (* the time at a position of the prepared list *)
  assert (Hat : forall k c, breakpoints p !! k = Some c ->
            (k = 0%nat /\ c.1 = startTime p)
            \/ (exists c', (0 < k)%nat /\ it !! (k - 1)%nat = Some c' /\ c.1 = c'.1
                           /\ (k <= length it)%nat)
            \/ (k = S (length it) /\ c.1 = (SourcePartial.endTime it + fade)%Q)).
  { intros k c Hk. rewrite Hbps in Hk. destruct k as [|k]; simpl in Hk.
    - left. injection Hk as <-. done.
    - right. destruct (decide (k < length it)%nat) as [Hlt|Hge].
      + left. rewrite lookup_app_l in Hk by done. exists c.
        simpl. rewrite Nat.sub_0_r. repeat split; [lia|done|lia].
      + right. rewrite lookup_app_r in Hk by lia.
        destruct (k - length it)%nat as [|m] eqn:Hm; simpl in Hk; [|done].
        injection Hk as <-. split; [f_equal; lia|done]. }
  intros i j a b Hij Ha Hb.
  destruct (Hat i a Ha) as [[-> Hta]|[(a' & Hi & Ha' & Hta & Hil)|[-> Hta]]];
  destruct (Hat j b Hb) as [[-> Htb]|[(b' & Hj & Hb' & Htb & Hjl)|[-> Htb]]];
    rewrite Hta, Htb; try lia.
  - repeat split; [done|apply Qle_refl|].
    eapply Qle_trans; [exact HstS|]. eapply Qle_trans; eauto.
  - destruct (Hmid _ _ Hb') as [Hb1 Hb2].
    repeat split; [done|eapply Qle_trans; eauto|eapply Qle_trans; eauto].
  - repeat split; [done| |apply Qle_refl].
    eapply Qle_trans; [exact HstS|]. eapply Qle_trans; eauto.
  - destruct (Hmid _ _ Ha') as [Ha1 Ha2]. destruct (Hmid _ _ Hb') as [Hb1 Hb2].
    repeat split.
    + eapply Qle_trans; [exact Hs|done].
    + apply (Hsorted (i - 1)%nat (j - 1)%nat a' b'); [lia|done|done].
    + eapply Qle_trans; eauto.
  - destruct (Hmid _ _ Ha') as [Ha1 Ha2].
    repeat split.
    + eapply Qle_trans; [exact Hs|done].
    + eapply Qle_trans; eauto.
    + apply Qle_refl.
  - repeat split; [|apply Qle_refl|apply Qle_refl].
    eapply Qle_trans; [exact Hs|]. eapply Qle_trans; eauto.
Qed.

End ValidSource.

Section EpochInvariant.
Context {Osc : Type} {osc_ops : RealtimeOscillator Osc}
  {null_ops : BreakpointUtils} {target : Target}.
Implicit Types (s : RealTimeSynthesizer Osc) (p q : PartialStruct).

Lemma prepare_timed (srate fade : Q) (it : Partial) p :
  (0 <= srate)%Q -> (0 <= fade)%Q -> valid_source srate fade it ->
  prepare fade it = Some p -> timed srate p.
Proof.
  intros Hr Hf Hv Hp.
  pose proof (prepare_prepared fade it p Hp) as Hprep.
  pose proof (prepare_times srate fade it p Hf Hv Hp) as Htimes.
  destruct Hv as (_ & _ & Hbound).
  pose proof Hprep as (H3 & Hlen & _).
  assert (Hget : forall i, 0 <= i < numBreakpoints p ->
            breakpoints p !! Z.to_nat i = Some (breakpoint_at p i)).
  { intros i Hi. unfold breakpoint_at.
    destruct (lookup_lt_is_Some_2 (breakpoints p) (Z.to_nat i)) as [c Hc]; [lia|].
    by rewrite Hc. }
  split; [done|]. split; [|split].
  - apply prepare_Some in Hp as (_ & _ & _ & _ & Hbps & _).
    unfold breakpoint_at. by rewrite Hbps.
  - intros i Hi. unfold target_sample.
    destruct (Htimes _ _ _ _ (Nat.le_refl _) (Hget i Hi) (Hget i Hi)) as (H0 & _ & HE).
    assert (HE0 : (0 <= SourcePartial.endTime it + fade)%Q) by (eapply Qle_trans; eauto).
    pose proof (sample_index_mono srate _ _ Hr H0 HE Hbound) as [Ha Hb]. lia.
  - intros i j Hij Hj. unfold target_sample.
    destruct (Htimes (Z.to_nat i) (Z.to_nat j) _ _ ltac:(lia)
                (Hget i ltac:(lia)) (Hget j ltac:(lia))) as (H0 & Hle & HE).
    assert (Hbj : ((breakpoint_at p j).1 * srate + (1 # 2) < inject_Z (2 ^ 31))%Q).
    { eapply Qle_lt_trans; [|exact Hbound].
      apply Qplus_le_compat; [|apply Qle_refl]. by apply Qmult_le_compat_r. }
    pose proof (sample_index_mono srate _ _ Hr H0 Hle Hbj) as [Ha Hb]. lia.
Qed.

Lemma setup_inv (ps : PartialList) (pitch0 : Q) s :
  (0 <= m_srateHz s)%Q -> (0 <= m_fadeTimeSec s)%Q ->
  Forall (valid_source (m_srateHz s) (m_fadeTimeSec s)) ps ->
  session_inv (setup ps pitch0 s).
Proof.
  intros Hr Hf Hv. unfold session_inv. simpl.
  split; [lia|]. split; [|split; [|split]].
  - apply Forall_forall. intros p Hp.
    apply list_elem_of_omap in Hp as (it & Hit & Hp).
    rewrite Forall_forall in Hv. eapply prepare_timed; eauto.
  - intros j p _ Hj. lia.
  - intros j Hj. by apply elem_of_nil in Hj.
  - apply NoDup_nil_2.
Qed.

Lemma reset_inv s : session_inv s -> session_inv (reset s).
Proof.
  intros (_ & Htimed & _). unfold session_inv. simpl.
  split; [lia|]. split; [done|]. split; [|split].
  - intros j p _ Hj. lia.
  - intros j Hj. by apply elem_of_nil in Hj.
  - apply NoDup_nil_2.
Qed.

Lemma render_inv (sizes : list Z) s :
  Forall (Z.le 0) sizes -> session_inv s -> session_inv (render sizes s).2.
Proof.
  revert s. induction sizes as [|n sizes IH]; intros s Hs Hinv; simpl; [done|].
  apply Forall_cons in Hs as [Hn Hs].
  destruct (synthesizeNext_inv n s Hn Hinv) as (Hinv1 & _).
  specialize (IH _ Hs Hinv1).
  destruct (render sizes (synthesizeNext n s)) as [out s2]. exact IH.
Qed.

Lemma inv_epoch_step samples s :
  0 <= samples -> session_inv s -> epoch_step s (synthesizeNext samples s).
Proof.
  intros Hn Hinv.
  destruct (synthesizeNext_inv samples s Hn Hinv) as (Hinv' & Hadv & Hidx & Hlen).
  destruct Hinv' as (Hidx' & Htimed' & Hact' & _).
  split.
  - intros j p p' Hj Hp Hp'.
    destruct (Hadv j p p' Hj Hp Hp') as [Hc Hl].
    destruct (Hact' j p' Hp' ltac:(lia)) as [(Hrange & _) _]. lia.
  - intros j p' Hj Hp'.
    destruct (Hact' j p' Hp' Hj) as [(Hrange & _) Hiff].
    rewrite Hiff. unfold unfinished. rewrite Z.ltb_lt. lia.
Qed.

(** C9.  Take valid source partials, [setup], and any calls of
    [synthesizeNext].  Across one more call, for every partial that was
    active before it, [currentSamp] and [lastBreakpointIdx] have not
    decreased and [lastBreakpointIdx] is at most [numBreakpoints - 1]; and
    after the call an active partial is out of the queue exactly when its
    [lastBreakpointIdx] is [numBreakpoints - 1]. *)
Theorem cursors_monotone (ps : PartialList) (pitch0 : Q) s0 (sizes : list Z)
    (samples : Z) :
  (0 <= m_srateHz s0)%Q -> (0 <= m_fadeTimeSec s0)%Q ->
  Forall (valid_source (m_srateHz s0) (m_fadeTimeSec s0)) ps ->
  Forall (Z.le 0) sizes -> 0 <= samples ->
  epoch_step (render sizes (setup ps pitch0 s0)).2
    (synthesizeNext samples (render sizes (setup ps pitch0 s0)).2).
Proof.
  intros Hr Hf Hv Hs Hn. apply inv_epoch_step; [done|].
  apply render_inv; [done|]. by apply setup_inv.
Qed.

End EpochInvariant.

Lemma two_valid : valid_source 4 (1 # 2) Examples.two.
Proof.
  split; [discriminate|]. split; [|reflexivity].
  intros [|[|i]] [|[|j]] a b Hij Ha Hb; simpl in *;
    try discriminate; try lia; simplify_eq; simpl; discriminate.
Qed.

Lemma cursors_monotone_witness :
  epoch_step
    (render (target := lp64) [3] (setup [Examples.two] 1 Examples.synth0)).2
    (synthesizeNext (target := lp64) 3
       (render (target := lp64) [3] (setup [Examples.two] 1 Examples.synth0)).2).
Proof.
  apply (cursors_monotone (target := lp64) [Examples.two] 1 Examples.synth0 [3] 3).
  - discriminate.
  - discriminate.
  - constructor; [exact two_valid | constructor].
  - constructor; [lia | constructor].
  - lia.
Defined.

(** ** Rendering does not depend on the oscillator it starts with, nor on
    what the buffer holds *)

Section SameRender.
Context {Osc : Type} {osc_ops : RealtimeOscillator Osc}
  {osc_laws : EnvelopeIsState Osc}.
Implicit Types (p q : PartialStruct) (l : @Loop Osc).

Lemma take_accumulate (k : nat) off ys (d : list Q) :
  take k (Buffer.accumulate off ys d) = Buffer.accumulate off ys (take k d).
Proof.
  unfold Buffer.accumulate. apply list_eq. intros i.
  destruct (decide (i < k)%nat) as [Hlt|Hge].
  - rewrite lookup_take_lt, !list_lookup_imap, lookup_take_lt by done. done.
  - rewrite lookup_take_ge by lia. symmetry. apply lookup_ge_None.
    rewrite length_imap, length_take. lia.
Qed.

Lemma segment_same (k : nat) srate oneOver samples l (d' : list Q) :
  take k (window l) = take k d' ->
  let r := segment srate oneOver samples l in
  let r' := segment srate oneOver samples
              (mkLoop (loop_i l) (sampleCounter l) (buffer_pos l) (loop_p l) d'
                 (loop_osc l)) in
  r'.1 = mkLoop (loop_i r.1) (sampleCounter r.1) (buffer_pos r.1) (loop_p r.1)
           (window r'.1) (loop_osc r.1)
  /\ take k (window r.1) = take k (window r'.1)
  /\ r'.2 = r.2.
Proof.
  intros Hd. unfold segment, span. simpl.
  destruct (oscillate _ _ _ _) as [osc2 ys]. simpl.
  split; [done|]. split; [|done]. rewrite !take_accumulate. by rewrite Hd.
Qed.

Lemma segments_same (k : nat) fuel srate oneOver samples l (d' : list Q) :
  take k (window l) = take k d' ->
  let r := segments fuel srate oneOver samples l in
  let r' := segments fuel srate oneOver samples
              (mkLoop (loop_i l) (sampleCounter l) (buffer_pos l) (loop_p l) d'
                 (loop_osc l)) in
  loop_p r' = loop_p r /\ loop_osc r' = loop_osc r
  /\ take k (window r) = take k (window r').
Proof.
  revert l d'. induction fuel as [|fuel IH]; intros l d' Hd; simpl; [done|].
  destruct (loop_i l <? numBreakpoints (loop_p l)); [|done].
  pose proof (segment_same k srate oneOver samples l d' Hd) as (Heq & Hw & Hb).
  destruct (segment srate oneOver samples l) as [l1 brk].
  destruct (segment srate oneOver samples (mkLoop _ _ _ _ d' _)) as [l1' brk'].
  simpl in *. subst brk'. rewrite Heq. destruct brk; [done|].
  exact (IH (next_i l1) (window l1') Hw).
Qed.

Lemma synthesize_same (k : nat) srate oneOver p (d d' : list Q) samples (osc osc' : Osc) :
  take k d = take k d' ->
  (synthesize srate oneOver p d' samples osc').1.1
  = (synthesize srate oneOver p d samples osc).1.1
  /\ take k (synthesize srate oneOver p d samples osc).1.2
     = take k (synthesize srate oneOver p d' samples osc').1.2.
Proof.
  intros Hd. unfold synthesize.
  destruct (rejected p); [done|]. destruct (finished p); [done|].
  assert (Hosc : (if lastBreakpointIdx (state p) =? NoBreakpointProcessed
                  then resetEnvelopes (envelope (state p)) srate osc'
                  else restoreEnvelopes (envelope (state p)) osc')
                 = (if lastBreakpointIdx (state p) =? NoBreakpointProcessed
                    then resetEnvelopes (envelope (state p)) srate osc
                    else restoreEnvelopes (envelope (state p)) osc)).
  { destruct (_ =? _); [apply reset_any | apply restore_any]. }
  rewrite Hosc.
  set (o0 := if lastBreakpointIdx (state p) =? NoBreakpointProcessed
             then resetEnvelopes (envelope (state p)) srate osc
             else restoreEnvelopes (envelope (state p)) osc).
  pose proof (segments_same k (Z.to_nat (numBreakpoints p - (lastBreakpointIdx (state p) + 1)))
                srate oneOver samples
                (mkLoop (lastBreakpointIdx (state p) + 1) 0 0 p d o0) d' Hd)
    as (Hp & Ho & Hw).
  simpl in *. rewrite Hp, Ho. done.
Qed.

End SameRender.

Section SameSession.
Context {Osc : Type} {osc_ops : RealtimeOscillator Osc}
  {osc_laws : EnvelopeIsState Osc}
  {null_ops : BreakpointUtils} {target : Target}.
Implicit Types (s t : RealTimeSynthesizer Osc) (p q : PartialStruct).

Lemma same_length s t : same_render s t -> length (partials s) = length (partials t).
Proof.
  intros H. pose proof (f_equal length (sr_static s t H)) as Hl.
  by rewrite !length_fmap in Hl.
Qed.

Lemma synthesize_at_same (k : nat) (j : nat) samples s t :
  same_render s t -> same_block k s t -> partials s !! j = partials t !! j ->
  same_render (synthesize_at j samples s) (synthesize_at j samples t)
  /\ same_block k (synthesize_at j samples s) (synthesize_at j samples t)
  /\ partials (synthesize_at j samples s) !! j
     = partials (synthesize_at j samples t) !! j.
Proof.
  intros Hst Hblock Hj. pose proof (same_length s t Hst) as Hlen.
  destruct Hst as [Hrate Hone Hidx Hproc Hq Hstat Hact Hvs Hokl Hokr].
  unfold same_block in *. unfold synthesize_at, partial_at.
  rewrite <- Hj, <- Hrate, <- Hone.
  pose proof (synthesize_same k (m_srateHz s) (OneOverSrate s)
                (default PartialStruct0 (partials s !! j))
                (cells (buffer s)) (cells (buffer t)) samples (m_osc s) (m_osc t)
                Hblock) as [Hp Hw].
  pose proof (synthesize_frame (m_srateHz s) (OneOverSrate s)
                (default PartialStruct0 (partials s !! j)) (cells (buffer s))
                samples (m_osc s)) as [_ Hls].
  pose proof (synthesize_frame (m_srateHz s) (OneOverSrate s)
                (default PartialStruct0 (partials s !! j)) (cells (buffer t))
                samples (m_osc t)) as [_ Hlt].
  destruct (synthesize _ _ _ (cells (buffer s)) _ _) as [[p1 d1] o1].
  destruct (synthesize _ _ _ (cells (buffer t)) _ _) as [[p1' d1'] o1'].
  simpl in *. subst p1'.
  assert (Hins : forall i : nat, partials s !! i = partials t !! i ->
            <[j := p1]> (partials s) !! i = <[j := p1]> (partials t) !! i).
  { intros i Hi. rewrite !list_lookup_insert, Hlen, Hi. done. }
  split; [|split; [done|by apply Hins]].
  constructor; simpl; try done.
  - by rewrite !list_fmap_insert, Hstat.
  - intros i Hi. apply Hins. by apply Hact.
  - unfold buffer_ok, Buffer.capacity in *. simpl. by rewrite Hls.
  - unfold buffer_ok, Buffer.capacity in *. simpl. by rewrite Hlt.
Qed.

Lemma resume_same (k : nat) size samples s t :
  same_render s t -> same_block k s t ->
  same_render (resume size samples s) (resume size samples t)
  /\ same_block k (resume size samples s) (resume size samples t).
Proof.
  revert s t. induction size as [|size IH]; intros s t Hst Hblock; simpl; [done|].
  rewrite <- (sr_queue s t Hst).
  destruct (partialsBeingProcessed s) as [|j rest] eqn:Hq; [done|].
  assert (Hj : partials s !! j = partials t !! j)
    by (apply (sr_active s t Hst); rewrite Hq; apply elem_of_cons; by left).
  destruct (synthesize_at_same k j samples s t Hst Hblock Hj) as (Hst1 & Hb1 & Hj1).
  pose proof (synthesize_at_cursors j samples s) as (_ & _ & Hq1 & _).
  assert (Hpa : partial_at (synthesize_at j samples t) j
                = partial_at (synthesize_at j samples s) j)
    by (unfold partial_at; by rewrite Hj1).
  rewrite Hpa.
  set (q := if unfinished (partial_at (synthesize_at j samples s) j)
            then rest ++ [j] else rest).
  apply IH; [|exact Hb1].
  destruct Hst1 as [Hrate Hone Hidx Hproc Hqq Hstat Hact Hvs Hokl Hokr].
  constructor; simpl; try done.
  intros i Hi. apply Hact. rewrite Hq1, Hq. subst q.
  destruct (unfinished _).
  - apply elem_of_app in Hi as [Hi|Hi]; [apply elem_of_cons; by right|].
    apply list_elem_of_singleton in Hi as ->. apply elem_of_cons. by left.
  - apply elem_of_cons. by right.
Qed.

Lemma same_static s t (j : nat) :
  same_render s t -> static (partial_at s j) = static (partial_at t j).
Proof.
  intros Hst. pose proof (f_equal (fun l => l !! j) (sr_static s t Hst)) as Hj.
  simpl in Hj. rewrite !list_lookup_fmap in Hj. unfold partial_at.
  destruct (partials s !! j), (partials t !! j); simpl in *; congruence.
Qed.

Lemma static_fields p q :
  static p = static q ->
  startTime p = startTime q /\ endTime p = endTime q
  /\ numBreakpoints p = numBreakpoints q /\ breakpoints p = breakpoints q.
Proof. unfold static, with_state. by intros [= -> -> -> ->]. Qed.

Lemma activated_static c p q :
  static p = static q ->
  activated (with_currentSamp c p) = activated (with_currentSamp c q).
Proof.
  intros (Hs & He & Hn & Hb)%static_fields.
  unfold activated, with_currentSamp, with_state, breakpoint_at. simpl.
  by rewrite Hs, He, Hn, Hb.
Qed.

Lemma start_sample_static srate p q :
  static p = static q -> start_sample srate p = start_sample srate q.
Proof.
  intros (Hs & _)%static_fields. unfold start_sample. by rewrite Hs.
Qed.

Lemma activate_same (k : nat) fuel samples s t :
  same_render s t -> same_block k s t ->
  same_render (activate fuel samples s) (activate fuel samples t)
  /\ same_block k (activate fuel samples s) (activate fuel samples t).
Proof.
  revert s t. induction fuel as [|fuel IH]; intros s t Hst Hblock; simpl; [done|].
  pose proof (same_length s t Hst) as Hlen.
  pose proof (same_static s t (Z.to_nat (partialIdx s)) Hst) as Hstatic.
  pose proof Hst as [Hrate Hone Hidx Hproc Hq Hstat Hact Hvs Hokl Hokr].
  rewrite <- Hidx, <- Hlen, <- Hrate, <- Hproc.
  destruct (partialIdx s <? Z.of_nat (length (partials s))); [|done].
  set (j := Z.to_nat (partialIdx s)) in *.
  rewrite <- (start_sample_static (m_srateHz s) _ _ Hstatic).
  set (c := start_sample (m_srateHz s) (partial_at s j)).
  assert (Hins : forall (x : PartialStruct) (i : nat),
            partials s !! i = partials t !! i ->
            <[j := x]> (partials s) !! i = <[j := x]> (partials t) !! i).
  { intros x i Hi. rewrite !list_lookup_insert, Hlen, Hi. done. }
  simpl. destruct (c >? processedSamples s).
  - split; [|exact Hblock].
    constructor; simpl; try done.
    + rewrite !list_fmap_insert, Hstat. f_equal. exact Hstatic.
    + intros i Hi. specialize (Hact i Hi).
      destruct (decide (i = j)) as [->|Hne].
      * assert (partial_at s j = partial_at t j) as <-
          by (unfold partial_at; by rewrite Hact).
        by apply Hins.
      * rewrite !list_lookup_insert_ne by done. exact Hact.
  - rewrite <- (activated_static c _ _ Hstatic).
    set (a := activated (with_currentSamp c (partial_at s j))).
    set (sA := set_partials (<[j := a]> (partials s)) s).
    set (tA := set_partials (<[j := a]> (partials t)) t).
    assert (HstA : same_render sA tA).
    { constructor; simpl; try done.
      - by rewrite !list_fmap_insert, Hstat.
      - intros i Hi. apply Hins. by apply Hact. }
    assert (HjA : partials sA !! j = partials tA !! j).
    { subst sA tA. simpl. rewrite !list_lookup_insert, Hlen.
      destruct (decide _) as [_|Hn]; [done|].
      rewrite !(proj2 (lookup_ge_None _ _)); [done|lia|lia]. }
    destruct (synthesize_at_same k j samples sA tA HstA Hblock HjA)
      as (Hst1 & Hb1 & Hj1).
    pose proof (synthesize_at_cursors j samples sA) as (Hpi1 & _ & Hq1 & _).
    assert (Hpa : partial_at (synthesize_at j samples tA) j
                  = partial_at (synthesize_at j samples sA) j)
      by (unfold partial_at; by rewrite Hj1).
    rewrite Hpa, <- (sr_queue _ _ Hst1), <- (sr_idx _ _ Hst1).
    apply IH; [|exact Hb1].
    destruct Hst1 as [Hrate1 Hone1 Hidx1 Hproc1 Hqq1 Hstat1 Hact1 Hvs1 Hokl1 Hokr1].
    constructor; simpl; try done.
    intros i Hi. destruct (unfinished _).
    + apply elem_of_app in Hi as [Hi|Hi]; [by apply Hact1|].
      apply list_elem_of_singleton in Hi as ->. exact Hj1.
    + by apply Hact1.
Qed.

Lemma prepare_buffer_zero (n : Z) (v : FloatVector) :
  0 <= n < 2 ^ 31 -> 4 <= sizeof_float_ptr <= 8 -> buffer_ok v ->
  take (Z.to_nat n) (cells (prepare_buffer n v)) = replicate (Z.to_nat n) 0%Q
  /\ buffer_ok (prepare_buffer n v)
  /\ vsize (prepare_buffer n v) = vsize v.
Proof.
  intros Hn Hptr Hok. unfold prepare_buffer.
  rewrite (index_of_int_small n Hn).
  set (v1 := if vsize v <? n then Buffer.reserve n v else v).
  assert (Hv1 : vsize v1 = vsize v)
    by (subst v1; destruct (_ <? _); [apply vsize_reserve|done]).
  assert (Hc1 : n <= Buffer.capacity v1 /\ Buffer.capacity v <= Buffer.capacity v1).
  { subst v1. unfold buffer_ok in Hok.
    destruct (Z.ltb_spec (vsize v) n).
    - destruct (Z.lt_ge_cases (Buffer.capacity v) n) as [Hlt|Hge].
      + rewrite (capacity_reserve_lt n v Hok Hlt). lia.
      + unfold Buffer.reserve.
        destruct (Z.ltb_spec (Buffer.capacity v) n); [lia|]. lia.
    - lia. }
  simpl. split; [|split; [|done]].
  - apply list_eq. intros i. unfold Buffer.memset0.
    destruct (decide (i < Z.to_nat n)%nat) as [Hlt|Hge].
    + rewrite lookup_take_lt, list_lookup_imap by done.
      destruct (lookup_lt_is_Some_2 (cells v1) i) as [x Hx];
        [unfold Buffer.capacity in Hc1; lia|].
      rewrite Hx. simpl.
      rewrite (clear_bytes_cells n Hn) by lia.
      destruct (Z.ltb_spec (Z.of_nat i) (n * sizeof_float_ptr / 4)) as [_|Hbad].
      * symmetry. by apply lookup_replicate.
      * exfalso. assert (n <= n * sizeof_float_ptr / 4); [|lia].
        apply Z.div_le_lower_bound; [lia|nia].
    + rewrite lookup_take_ge by lia. symmetry. apply lookup_ge_None.
      rewrite length_replicate. lia.
  - unfold buffer_ok, Buffer.capacity in *. simpl. rewrite length_memset0. lia.
Qed.

Lemma synthesizeNext_same (n : Z) s t :
  0 <= n < 2 ^ 31 -> 4 <= sizeof_float_ptr <= 8 -> same_render s t ->
  same_render (synthesizeNext n s) (synthesizeNext n t)
  /\ block n (synthesizeNext n s) = block n (synthesizeNext n t).
Proof.
  intros Hn Hptr Hst. unfold synthesizeNext, block.
  pose proof Hst as [Hrate Hone Hidx Hproc Hq Hstat Hact Hvs Hokl Hokr].
  destruct (prepare_buffer_zero n (buffer s) Hn Hptr Hokl) as (Hzs & Hoks & Hvss).
  destruct (prepare_buffer_zero n (buffer t) Hn Hptr Hokr) as (Hzt & Hokt & Hvst).
  set (s2 := set_buffer _ (set_processedSamples _ s)).
  set (t2 := set_buffer _ (set_processedSamples _ t)).
  assert (Hst2 : same_render s2 t2).
  { constructor; try done.
    - simpl. by rewrite Hproc.
    - change (vsize (prepare_buffer n (buffer s)) = vsize (prepare_buffer n (buffer t))).
      by rewrite Hvss, Hvst. }
  assert (Hb2 : same_block (Z.to_nat n) s2 t2)
    by (unfold same_block;
        change (take (Z.to_nat n) (cells (prepare_buffer n (buffer s)))
                = take (Z.to_nat n) (cells (prepare_buffer n (buffer t))));
        by rewrite Hzs, Hzt).
  assert (Hq2 : partialsBeingProcessed t2 = partialsBeingProcessed s2) by (symmetry; exact Hq).
  rewrite Hq2.
  destruct (resume_same (Z.to_nat n) (length (partialsBeingProcessed s2)) n s2 t2
              Hst2 Hb2) as (Hst3 & Hb3).
  set (s3 := resume _ n s2) in *. set (t3 := resume _ n t2) in *.
  rewrite <- (same_length s3 t3 Hst3), <- (sr_idx s3 t3 Hst3).
  exact (activate_same (Z.to_nat n) _ n s3 t3 Hst3 Hb3).
Qed.

Lemma render_same (sizes : list Z) s t :
  Forall (fun n => 0 <= n < 2 ^ 31) sizes -> 4 <= sizeof_float_ptr <= 8 ->
  same_render s t -> (render sizes s).1 = (render sizes t).1.
Proof.
  intros Hs Hptr. revert s t.
  induction sizes as [|n sizes IH]; intros s t Hst; simpl; [done|].
  apply Forall_cons in Hs as [Hn Hs].
  destruct (synthesizeNext_same n s t Hn Hptr Hst) as (Hst1 & Hb1).
  specialize (IH Hs _ _ Hst1).
  destruct (render sizes (synthesizeNext n s)) as [out s2].
  destruct (render sizes (synthesizeNext n t)) as [out' t2].
  simpl in *. congruence.
Qed.

End SameSession.

(** ** The buffer over a sequence of calls *)

Section Replay.
Context {Osc : Type} {osc_ops : RealtimeOscillator Osc}
  {osc_laws : EnvelopeIsState Osc}
  {null_ops : BreakpointUtils} {target : Target}.
Implicit Types (s t : RealTimeSynthesizer Osc) (p q : PartialStruct).

Lemma synthesizeNext_buffer_ok (n : Z) s :
  0 <= n < 2 ^ 31 -> 4 <= sizeof_float_ptr <= 8 -> buffer_ok (buffer s) ->
  buffer_ok (buffer (synthesizeNext n s))
  /\ vsize (buffer (synthesizeNext n s)) = vsize (buffer s).
Proof.
  intros Hn Hptr Hok.
  destruct (prepare_buffer_zero n (buffer s) Hn Hptr Hok) as (_ & Hok' & Hv).
  pose proof (synthesizeNext_dims n s) as Hd. unfold dims in Hd.
  assert (Hlen : length (cells (buffer (synthesizeNext n s)))
                 = length (cells (prepare_buffer n (buffer s))))
    by exact (f_equal (fun d => d.1.1.2) Hd).
  assert (Hvs : vsize (buffer (synthesizeNext n s))
                = vsize (prepare_buffer n (buffer s)))
    by exact (f_equal (fun d => d.1.2) Hd).
  unfold buffer_ok, Buffer.capacity in *. rewrite Hlen, Hvs. lia.
Qed.

Lemma render_buffer_ok (sizes : list Z) s :
  Forall (fun n => 0 <= n < 2 ^ 31) sizes -> 4 <= sizeof_float_ptr <= 8 ->
  buffer_ok (buffer s) ->
  buffer_ok (buffer (render sizes s).2)
  /\ vsize (buffer (render sizes s).2) = vsize (buffer s).
Proof.
  intros Hs Hptr. revert s.
  induction sizes as [|n sizes IH]; intros s Hok; simpl; [done|].
  apply Forall_cons in Hs as [Hn Hs].
  destruct (synthesizeNext_buffer_ok n s Hn Hptr Hok) as [Hok1 Hv1].
  specialize (IH Hs _ Hok1).
  destruct (render sizes (synthesizeNext n s)) as [out s2]. simpl in *.
  split; [tauto|]. destruct IH as [_ ->]. done.
Qed.

End Replay.

Lemma ramp_envelope_is_state : EnvelopeIsState Ramp.
Proof. split; reflexivity. Qed.

(** ** One call or two: a single partial *)

Section SplitSegments.
Context {Osc : Type} {osc_ops : RealtimeOscillator Osc}
  {snapshot : SnapshotResumes Osc}.
Implicit Types (p q : PartialStruct) (l : @Loop Osc) (W : list Q).

Lemma accumulate_app_l off ys W1 W2 :
  off + Z.of_nat (length ys) <= Z.of_nat (length W1) ->
  Buffer.accumulate off ys (W1 ++ W2) = Buffer.accumulate off ys W1 ++ W2.
Proof.
  intros Hfit. unfold Buffer.accumulate. apply list_eq. intros i.
  rewrite list_lookup_imap.
  destruct (decide (i < length W1)%nat) as [Hlt|Hge].
  - rewrite !lookup_app_l by (rewrite ?length_imap; done).
    by rewrite list_lookup_imap.
  - rewrite !lookup_app_r by (rewrite ?length_imap; lia).
    rewrite length_imap.
    destruct (W2 !! (i - length W1)%nat) as [x|]; [|done]. simpl.
    destruct (Z.leb_spec off (Z.of_nat i)), (Z.ltb_spec (Z.of_nat i) (off + Z.of_nat (length ys)));
      simpl; try done; lia.
Qed.

Lemma accumulate_app_r off ys W1 W2 :
  0 <= off ->
  Buffer.accumulate (Z.of_nat (length W1) + off) ys (W1 ++ W2)
  = W1 ++ Buffer.accumulate off ys W2.
Proof.
  intros Hoff. unfold Buffer.accumulate. apply list_eq. intros i.
  rewrite list_lookup_imap.
  destruct (decide (i < length W1)%nat) as [Hlt|Hge].
  - rewrite !lookup_app_l by done.
    destruct (W1 !! i) as [x|]; [|done]. simpl.
    destruct (Z.leb_spec (Z.of_nat (length W1) + off) (Z.of_nat i)); [lia|done].
  - rewrite !lookup_app_r by lia. rewrite list_lookup_imap.
    destruct (W2 !! (i - length W1)%nat) as [x|]; [|done]. simpl.
    replace (Z.of_nat (i - length W1)) with (Z.of_nat i - Z.of_nat (length W1)) by lia.
    replace (Z.of_nat i - (Z.of_nat (length W1) + off))
      with (Z.of_nat i - Z.of_nat (length W1) - off) by lia.
    destruct (Z.leb_spec (Z.of_nat (length W1) + off) (Z.of_nat i)),
             (Z.leb_spec off (Z.of_nat i - Z.of_nat (length W1))); try lia; simpl.
    + destruct (Z.ltb_spec (Z.of_nat i) (Z.of_nat (length W1) + off + Z.of_nat (length ys))),
               (Z.ltb_spec (Z.of_nat i - Z.of_nat (length W1)) (off + Z.of_nat (length ys)));
        try lia; done.
    + done.
Qed.

Lemma with_envelope_absorb e e' p :
  with_envelope e (with_envelope e' p) = with_envelope e p.
Proof. reflexivity. Qed.

Lemma with_envelope_same p : with_envelope (envelope (state p)) p = p.
Proof. by destruct p as [? ? ? ? []]. Qed.

(** The position of the moving pointer is the number of samples used. *)
Lemma segment_pos srate oneOver samples l :
  buffer_pos l = sampleCounter l ->
  buffer_pos (segment srate oneOver samples l).1
  = sampleCounter (segment srate oneOver samples l).1.
Proof.
  intros Hpos. unfold segment.
  destruct (oscillate _ _ _ _) as [osc2 ys]. simpl.
  destruct (_ >? _); lia.
Qed.

(** A pass with [n1] samples more to render, [n1] samples further in a
    window that has [W1] in front, does the same [n1] cells later. *)
Lemma segment_shift srate oneOver (n1 n2 : Z) l (W1 : list Q) e :
  Z.of_nat (length W1) = n1 -> 0 <= buffer_pos l ->
  segment srate oneOver (n1 + n2)
    (mkLoop (loop_i l) (n1 + sampleCounter l) (n1 + buffer_pos l)
       (with_envelope e (loop_p l)) (W1 ++ window l) (loop_osc l))
  = let r := segment srate oneOver n2 l in
    (mkLoop (loop_i r.1) (n1 + sampleCounter r.1) (n1 + buffer_pos r.1)
       (with_envelope e (loop_p r.1)) (W1 ++ window r.1) (loop_osc r.1), r.2).
Proof.
  intros HW Hpos. unfold segment, span. simpl.
  set (d := int_of_index _).
  replace (n1 + sampleCounter l + d >? n1 + n2) with (sampleCounter l + d >? n2)
    by (rewrite !Z.gtb_ltb; destruct (Z.ltb_spec n2 (sampleCounter l + d)),
          (Z.ltb_spec (n1 + n2) (n1 + sampleCounter l + d)); lia || done).
  destruct (sampleCounter l + d >? n2) eqn:Hover.
  - replace (d - (n1 + sampleCounter l + d - (n1 + n2)))
      with (d - (sampleCounter l + d - n2)) by lia.
    destruct (oscillate _ _ _ _) as [osc2 ys]. simpl.
    rewrite <- HW, accumulate_app_r by done.
    f_equal; [f_equal; lia|].
    rewrite !Z.geb_leb. destruct (Z.leb_spec n2 n2), (Z.leb_spec (Z.of_nat (length W1) + n2) (Z.of_nat (length W1) + n2)); lia || done.
  - destruct (oscillate _ _ _ _) as [osc2 ys]. simpl.
    rewrite <- HW, accumulate_app_r by done.
    f_equal; [f_equal; lia|].
    rewrite !Z.geb_leb.
    destruct (Z.leb_spec n2 (sampleCounter l + d)),
             (Z.leb_spec (Z.of_nat (length W1) + n2)
                (Z.of_nat (length W1) + sampleCounter l + d)); lia || done.
Qed.

Lemma segments_shift fuel srate oneOver (n1 n2 : Z) l (W1 : list Q) e :
  Z.of_nat (length W1) = n1 ->
  timed srate (loop_p l) -> on_track srate (loop_p l) -> loop_inv l ->
  0 <= sampleCounter l <= n2 -> buffer_pos l = sampleCounter l ->
  segments fuel srate oneOver (n1 + n2)
    (mkLoop (loop_i l) (n1 + sampleCounter l) (n1 + buffer_pos l)
       (with_envelope e (loop_p l)) (W1 ++ window l) (loop_osc l))
  = let r := segments fuel srate oneOver n2 l in
    mkLoop (loop_i r) (n1 + sampleCounter r) (n1 + buffer_pos r)
      (with_envelope e (loop_p r)) (W1 ++ window r) (loop_osc r).
Proof.
  intros HW. revert l.
  induction fuel as [|fuel IH]; intros l Ht Ho Hinv Hc Hpos; simpl; [done|].
  destruct (Z.ltb_spec (loop_i l) (numBreakpoints (loop_p l))) as [Hi|Hi]; [|done].
  rewrite (segment_shift srate oneOver n1 n2 l W1 e HW) by lia.
  pose proof (segment_on_track srate oneOver n2 l Ht Ho Hinv Hi Hc)
    as (Ho' & _ & Hc' & _).
  pose proof (segment_keeps_inv srate oneOver n2 l) as Hkeep.
  pose proof (segment_pos srate oneOver n2 l Hpos) as Hpos'.
  pose proof (segment_frame srate oneOver n2 l) as [Hshape _].
  destruct (segment srate oneOver n2 l) as [l' brk]. simpl in *.
  destruct brk; [done|].
  destruct (Hkeep eq_refl) as [_ Hinv'].
  assert (Ht' : timed srate (loop_p l'))
    by exact (timed_shape srate _ _ (eq_sym Hshape) Ht).
  exact (IH (next_i l') Ht' Ho' Hinv' Hc' Hpos').
Qed.

(** A pass that fits in the first [n1] samples is the same pass when
    [n2] more samples are asked for and the window is longer. *)
Lemma segment_prefix srate oneOver (n1 n2 : Z) l (W2 : list Q) :
  Z.of_nat (length (window l)) = n1 ->
  clipped srate n1 l = false -> 0 <= span srate l -> 0 <= n2 ->
  buffer_pos l = sampleCounter l ->
  segment srate oneOver (n1 + n2)
    (mkLoop (loop_i l) (sampleCounter l) (buffer_pos l) (loop_p l)
       (window l ++ W2) (loop_osc l))
  = let r := segment srate oneOver n1 l in
    (mkLoop (loop_i r.1) (sampleCounter r.1) (buffer_pos r.1) (loop_p r.1)
       (window r.1 ++ W2) (loop_osc r.1),
     sampleCounter r.1 >=? n1 + n2).
Proof.
  intros HW Hfit Hspan Hn2 Hpos. unfold clipped in Hfit.
  unfold segment. fold (span srate l). simpl. rewrite Hfit.
  assert (Hle : sampleCounter l + span srate l <= n1)
    by (rewrite Z.gtb_ltb in Hfit; apply Z.ltb_ge in Hfit; exact Hfit).
  assert (HfitA : (sampleCounter l + span srate l >? n1 + n2) = false)
    by (rewrite Z.gtb_ltb; apply Z.ltb_ge; lia).
  change (span srate (mkLoop (loop_i l) (sampleCounter l) (buffer_pos l)
                        (loop_p l) (window l ++ W2) (loop_osc l)))
    with (span srate l).
  rewrite HfitA.
  pose proof (oscillate_length (span srate l) (breakpoint_at (loop_p l) (loop_i l)).2 srate) as Hlen.
  destruct (phase_reset _ _ _ _ _) as [ph|].
  - specialize (Hlen (setPhase ph (loop_osc l))).
    destruct (oscillate _ _ _ _) as [osc2 ys]. simpl in *.
    rewrite accumulate_app_l; [done|].
    rewrite Hlen, Hpos. lia.
  - specialize (Hlen (loop_osc l)).
    destruct (oscillate _ _ _ _) as [osc2 ys]. simpl in *.
    rewrite accumulate_app_l; [done|].
    rewrite Hlen, Hpos. lia.
Qed.

Lemma segment_clipped_state srate oneOver samples l :
  clipped srate samples l = true ->
  lastBreakpointIdx (state (loop_p (segment srate oneOver samples l).1)) = loop_i l - 1
  /\ currentSamp (state (loop_p (segment srate oneOver samples l).1))
     = currentSamp (state (loop_p l)) + (samples - sampleCounter l).
Proof.
  unfold clipped, segment. intros ->.
  destruct (oscillate _ _ _ _) as [osc2 ys]. simpl. lia.
Qed.

Lemma segment_unclipped_state srate oneOver samples l :
  clipped srate samples l = false ->
  loop_i (segment srate oneOver samples l).1 = loop_i l
  /\ lastBreakpointIdx (state (loop_p (segment srate oneOver samples l).1)) = loop_i l
  /\ sampleCounter (segment srate oneOver samples l).1
     = sampleCounter l + span srate l
  /\ (segment srate oneOver samples l).2
     = (sampleCounter l + span srate l >=? samples).
Proof.
  unfold clipped, segment. intros ->.
  destruct (oscillate _ _ _ _) as [osc2 ys]. simpl. done.
Qed.

(** The loop of a call for [n1 + n2] samples, when the loop of a call for
    [n1] samples ends on a breakpoint: its window is the window of the
    shorter call followed by the window of the loop that the next call, for
    [n2] samples, runs from there. *)
Lemma segments_prefix fuel srate oneOver (n1 n2 : Z) l (W2 : list Q) :
  0 < n1 -> 0 < n2 ->
  Z.of_nat (length (window l)) = n1 ->
  timed srate (loop_p l) -> on_track srate (loop_p l) -> loop_inv l ->
  0 <= sampleCounter l < n1 -> buffer_pos l = sampleCounter l ->
  fuel = Z.to_nat (numBreakpoints (loop_p l) - loop_i l) ->
  let lB := segments fuel srate oneOver n1 l in
  (unfinished (loop_p lB) = true ->
   currentSamp (state (loop_p lB))
   = target_sample srate (loop_p lB) (lastBreakpointIdx (state (loop_p lB)))) ->
  window (segments fuel srate oneOver (n1 + n2)
            (mkLoop (loop_i l) (sampleCounter l) (buffer_pos l) (loop_p l)
               (window l ++ W2) (loop_osc l)))
  = window lB
    ++ window (segments
                 (Z.to_nat (numBreakpoints (loop_p lB)
                            - (lastBreakpointIdx (state (loop_p lB)) + 1)))
                 srate oneOver n2
                 (mkLoop (lastBreakpointIdx (state (loop_p lB)) + 1) 0 0
                    (loop_p lB) W2 (loop_osc lB))).
Proof.
  intros Hn1 Hn2. revert l.
  induction fuel as [|fuel IH]; intros l HW Ht Ho Hinv Hc Hpos Hfuel; simpl.
  { intros _. unfold loop_inv in Hinv. rewrite <- Hinv, <- Hfuel. done. }
  destruct (Z.ltb_spec (loop_i l) (numBreakpoints (loop_p l))) as [Hi|Hi]; [|lia].
  pose proof (segment_frame srate oneOver n1 l) as [Hshape Hlen].
  destruct (shape_fields _ _ Hshape) as [_ Hnum].
  pose proof (segment_on_track srate oneOver n1 l Ht Ho Hinv Hi ltac:(lia))
    as (Ho' & _ & Hc' & Hlt').
  pose proof (segment_keeps_inv srate oneOver n1 l) as Hkeep.
  pose proof (segment_pos srate oneOver n1 l Hpos) as Hpos'.
  destruct (clipped srate n1 l) eqn:Hclip.
  - (* a clipped pass does not end on a breakpoint *)
    pose proof (segment_break srate oneOver n1 l Hclip) as Hb.
    destruct (segment_clipped_state srate oneOver n1 l Hclip) as [Hlast Hcur].
    pose proof (target_sample_shape srate _ _ (loop_i l - 1) Hshape) as Htgt.
    destruct (segment srate oneOver n1 l) as [l' brk]. simpl in *. subst brk.
    intros Hend. exfalso.
    destruct Ho as (_ & _ & _ & Hlow). unfold loop_inv in Hinv.
    rewrite Hlast, Htgt in Hend.
    replace (loop_i l - 1) with (lastBreakpointIdx (state (loop_p l))) in Hend by lia.
    assert (Hu : unfinished (loop_p l') = true)
      by (unfold unfinished; apply Z.ltb_lt; lia).
    specialize (Hend Hu). lia.
  - destruct (span_exact srate l Ht Ho Hinv Hi) as [_ Hspan].
    rewrite (segment_prefix srate oneOver n1 n2 l W2 HW Hclip Hspan) by lia.
    destruct (segment_unclipped_state srate oneOver n1 l Hclip)
      as (Hi' & Hlast & Hcnt & Hbrk).
    destruct (segment srate oneOver n1 l) as [l' brk]. simpl in *.
    assert (HbA : (sampleCounter l' >=? n1 + n2) = false)
      by (rewrite Z.geb_leb; apply Z.leb_gt; lia).
    rewrite HbA.
    assert (Ht' : timed srate (loop_p l'))
      by exact (timed_shape srate _ _ (eq_sym Hshape) Ht).
    destruct brk.
    + (* the call for [n1] samples ends here *)
      intros _.
      assert (Hc1 : sampleCounter l' = n1).
      { symmetry in Hbrk. rewrite Z.geb_leb in Hbrk. apply Z.leb_le in Hbrk. lia. }
      rewrite Hlast, Hnum, <- Hi'.
      replace (Z.to_nat (numBreakpoints (loop_p l) - (loop_i l' + 1))) with fuel by lia.
      pose proof (segments_shift fuel srate oneOver n1 n2
                    (mkLoop (loop_i l' + 1) 0 0 (loop_p l') W2 (loop_osc l'))
                    (window l') (envelope (state (loop_p l')))) as Hshift.
      simpl in Hshift. rewrite with_envelope_same, Z.add_0_r in Hshift.
      unfold next_i. simpl. rewrite Hpos', Hc1.
      rewrite Hshift; [done|lia|done|done| |lia|done].
      unfold loop_inv. simpl. lia.
    + destruct (Hkeep eq_refl) as [_ Hinv'].
      specialize (Hlt' eq_refl).
      apply (IH (next_i l')); simpl; try done; lia.
Qed.

Lemma timed_not_rejected srate p : timed srate p -> rejected p = false.
Proof.
  intros ((H3 & _ & H0) & _). unfold rejected. apply orb_false_iff. split.
  - apply Z.leb_gt. lia.
  - by apply Qltb_ge.
Qed.

(** The loop of a call that ends on a breakpoint has rendered at least as
    far as the breakpoint it started with. *)
Lemma segments_reach fuel srate oneOver (n1 : Z) l :
  0 < n1 ->
  timed srate (loop_p l) -> on_track srate (loop_p l) -> loop_inv l ->
  0 <= sampleCounter l < n1 ->
  loop_i l < numBreakpoints (loop_p l) -> (0 < fuel)%nat ->
  let lB := segments fuel srate oneOver n1 l in
  (unfinished (loop_p lB) = true ->
   currentSamp (state (loop_p lB))
   = target_sample srate (loop_p lB) (lastBreakpointIdx (state (loop_p lB)))) ->
  loop_i l <= lastBreakpointIdx (state (loop_p lB)).
Proof.
  intros Hn1 Ht Ho Hinv Hc Hi Hfuel. destruct fuel as [|fuel]; [lia|]. simpl.
  destruct (Z.ltb_spec (loop_i l) (numBreakpoints (loop_p l))) as [_|]; [|lia].
  pose proof (segment_frame srate oneOver n1 l) as [Hshape Hlen].
  destruct (shape_fields _ _ Hshape) as [_ Hnum].
  pose proof (segment_on_track srate oneOver n1 l Ht Ho Hinv Hi ltac:(lia))
    as (Ho' & _ & Hc' & Hlt').
  pose proof (segment_keeps_inv srate oneOver n1 l) as Hkeep.
  destruct (clipped srate n1 l) eqn:Hclip.
  - pose proof (segment_break srate oneOver n1 l Hclip) as Hb.
    destruct (segment_clipped_state srate oneOver n1 l Hclip) as [Hlast Hcur].
    pose proof (target_sample_shape srate _ _ (loop_i l - 1) Hshape) as Htgt.
    destruct (segment srate oneOver n1 l) as [l' brk]. simpl in *. subst brk.
    intros Hend. exfalso.
    destruct Ho as (_ & _ & _ & Hlow). unfold loop_inv in Hinv.
    rewrite Hlast, Htgt in Hend.
    replace (loop_i l - 1) with (lastBreakpointIdx (state (loop_p l))) in Hend by lia.
    assert (Hu : unfinished (loop_p l') = true)
      by (unfold unfinished; apply Z.ltb_lt; lia).
    specialize (Hend Hu). lia.
  - destruct (segment_unclipped_state srate oneOver n1 l Hclip)
      as (Hi' & Hlast & Hcnt & Hbrk).
    destruct (segment srate oneOver n1 l) as [l' brk]. simpl in *.
    intros _. destruct brk; [lia|].
    destruct (Hkeep eq_refl) as [_ Hinv'].
    assert (Ht' : timed srate (loop_p l'))
      by exact (timed_shape srate _ _ (eq_sym Hshape) Ht).
    destruct (segments_on_track fuel srate oneOver n1 (next_i l') Ht' Ho' Hinv' Hc')
      as [_ [_ Hadv]].
    simpl in Hadv. lia.
Qed.

(** A call for [n1 + n2] samples for one partial, when a call for [n1]
    samples leaves the partial finished or on a breakpoint: the window is
    the window of the call for [n1] samples followed by the window of the
    call for [n2] samples that comes after it. *)
Lemma synthesize_split srate oneOver (n1 n2 : Z) p (W1 W2 : list Q) (osc osc' : Osc) :
  0 < n1 -> 0 < n2 -> Z.of_nat (length W1) = n1 ->
  timed srate p -> on_track srate p ->
  let r1 := synthesize srate oneOver p W1 n1 osc in
  (unfinished r1.1.1 = true ->
   currentSamp (state r1.1.1)
   = target_sample srate r1.1.1 (lastBreakpointIdx (state r1.1.1))) ->
  (synthesize srate oneOver p (W1 ++ W2) (n1 + n2) osc).1.2
  = r1.1.2 ++ (synthesize srate oneOver r1.1.1 W2 n2 osc').1.2.
Proof.
  intros Hn1 Hn2 HW Ht Ho. unfold synthesize at 1 2 3.
  rewrite (timed_not_rejected srate p Ht).
  destruct (finished p) eqn:Hfin.
  { simpl. intros _. unfold synthesize.
    by rewrite (timed_not_rejected srate p Ht), Hfin. }
  set (osc0 := if lastBreakpointIdx (state p) =? NoBreakpointProcessed
               then resetEnvelopes (envelope (state p)) srate osc
               else restoreEnvelopes (envelope (state p)) osc).
  set (fuel := Z.to_nat (numBreakpoints p - (lastBreakpointIdx (state p) + 1))).
  set (l0 := mkLoop (lastBreakpointIdx (state p) + 1) 0 0 p W1 osc0).
  set (lB := segments fuel srate oneOver n1 l0). simpl.
  intros Hend.
  assert (Hunf : lastBreakpointIdx (state p) < numBreakpoints p - 1).
  { unfold finished in Hfin. rewrite Z.geb_leb in Hfin. apply Z.leb_gt in Hfin. lia. }
  pose proof (segments_frame fuel srate oneOver n1 l0) as [HshapeB HlenB].
  fold lB in HshapeB, HlenB. simpl in HshapeB, HlenB.
  destruct (shape_fields _ _ HshapeB) as [_ HnumB].
  assert (HtB : timed srate (loop_p lB))
    by exact (timed_shape srate _ _ (eq_sym HshapeB) Ht).
  destruct (segments_on_track fuel srate oneOver n1 l0 Ht Ho (loop_inv_first _ _ _)
              ltac:(simpl; lia)) as [HoB _].
  fold lB in HoB.
  pose proof (segments_prefix fuel srate oneOver n1 n2 l0 W2 Hn1 Hn2 HW Ht Ho
                (loop_inv_first _ _ _) ltac:(simpl; lia) eq_refl eq_refl Hend) as Hsplit.
  simpl in Hsplit. fold lB in Hsplit. rewrite Hsplit. f_equal.
  pose proof (segments_reach fuel srate oneOver n1 l0 Hn1 Ht Ho (loop_inv_first _ _ _)
                ltac:(simpl; lia) ltac:(simpl; lia) ltac:(subst fuel; lia) Hend) as Hreach.
  fold lB in Hreach. simpl in Hreach.
  unfold synthesize.
  assert (Hrej : rejected (with_envelope (envelopes (loop_osc lB)) (loop_p lB)) = false)
    by exact (timed_not_rejected srate _ HtB).
  rewrite Hrej. unfold finished. simpl.
  destruct (Z.geb_spec (lastBreakpointIdx (state (loop_p lB)))
              (numBreakpoints (loop_p lB) - 1)) as [Hge|Hlt].
  { replace (Z.to_nat _) with 0%nat by lia. done. }
  simpl.
  destruct (Z.eqb_spec (lastBreakpointIdx (state (loop_p lB))) NoBreakpointProcessed)
    as [Hz|_]; [unfold NoBreakpointProcessed in Hz; destruct Ho as ((Hl0 & _) & _); lia|].
  rewrite restore_envelopes.
  pose proof (segments_shift
                (Z.to_nat (numBreakpoints (loop_p lB)
                           - (lastBreakpointIdx (state (loop_p lB)) + 1)))
                srate oneOver 0 n2
                (mkLoop (lastBreakpointIdx (state (loop_p lB)) + 1) 0 0
                   (loop_p lB) W2 (loop_osc lB))
                [] (envelopes (loop_osc lB)) eq_refl HtB HoB eq_refl
                ltac:(simpl; lia) eq_refl) as Hshift.
  apply (f_equal window) in Hshift. symmetry. exact Hshift.
Qed.

End SplitSegments.

(** ** A call as a function of the partials it renders *)

Section Voices.
Context {Osc : Type} {osc_ops : RealtimeOscillator Osc}
  {osc_laws : EnvelopeIsState Osc}.
Implicit Types (p q : PartialStruct) (W : list Q) (o : Osc).

Lemma synthesize_p srate oneOver o0 p W n o :
  (synthesize srate oneOver p W n o).1.1 = synP srate oneOver o0 n p.
Proof.
  unfold synP. symmetry.
  apply (synthesize_same 0 srate oneOver p W [] n o o0). done.
Qed.

Lemma synthesize_w srate oneOver o0 p W n o :
  (synthesize srate oneOver p W n o).1.2 = synW srate oneOver o0 n p W.
Proof.
  unfold synW.
  pose proof (synthesize_same (length W) srate oneOver p W W n o o0 eq_refl) as [_ Hw].
  pose proof (synthesize_frame srate oneOver p W n o) as [_ Hl].
  pose proof (synthesize_frame srate oneOver p W n o0) as [_ Hl0].
  rewrite !take_ge in Hw by lia. done.
Qed.

Lemma length_synW srate oneOver o0 n p W :
  length (synW srate oneOver o0 n p W) = length W.
Proof. apply synthesize_frame. Qed.

Lemma synW_take (k : nat) srate oneOver o0 n p W :
  take k (synW srate oneOver o0 n p W) = synW srate oneOver o0 n p (take k W).
Proof.
  unfold synW.
  pose proof (synthesize_same k srate oneOver p W (take k W) n o0 o0) as [_ Hw].
  { by rewrite take_idemp. }
  rewrite Hw. apply take_ge.
  pose proof (synthesize_frame srate oneOver p (take k W) n o0) as [_ Hl].
  rewrite Hl, length_take. lia.
Qed.

Lemma synW_finished srate oneOver o0 n p W :
  unfinished p = false -> synW srate oneOver o0 n p W = W.
Proof.
  intros Hu. unfold synW, synthesize.
  destruct (rejected p); [done|].
  assert (Hf : finished p = true).
  { unfold unfinished in Hu. unfold finished.
    apply Z.ltb_ge in Hu. rewrite Z.geb_leb. apply Z.leb_le. lia. }
  by rewrite Hf.
Qed.

Lemma foldl_ext_in {A B} (f g : A -> B -> A) (l : list B) (a : A) :
  (forall x b, b ∈ l -> f x b = g x b) -> foldl f a l = foldl g a l.
Proof.
  revert a. induction l as [|b l IH]; intros a Hfg; simpl; [done|].
  rewrite (Hfg a b) by (apply elem_of_cons; by left).
  apply IH. intros x c Hc. apply Hfg. apply elem_of_cons. by right.
Qed.

Lemma filter_ext_in {A} (P1 P2 : A -> Prop)
    `{!forall x, Decision (P1 x), !forall x, Decision (P2 x)} (l : list A) :
  (forall x, x ∈ l -> P1 x <-> P2 x) -> filter P1 l = filter P2 l.
Proof.
  induction l as [|a l IH]; intros Hiff; [done|].
  assert (Ha : P1 a <-> P2 a) by (apply Hiff, elem_of_cons; by left).
  assert (Hl : filter P1 l = filter P2 l)
    by (apply IH; intros x Hx; apply Hiff, elem_of_cons; by right).
  destruct (decide (P1 a)) as [H1|H1].
  - rewrite !filter_cons_True by tauto. by rewrite Hl.
  - rewrite !filter_cons_False by tauto. done.
Qed.

Lemma foldl_filter_skip {A B} (f : A -> B -> A) (P : B -> Prop)
    `{!forall x, Decision (P x)} (l : list B) (a : A) :
  (forall x b, ~ P b -> f x b = x) -> foldl f a (filter P l) = foldl f a l.
Proof.
  intros Hskip. revert a. induction l as [|b l IH]; intros a; [done|].
  destruct (decide (P b)) as [Hb|Hb].
  - rewrite filter_cons_True by done. simpl. apply IH.
  - rewrite filter_cons_False by done. simpl. rewrite (Hskip a b Hb). apply IH.
Qed.

End Voices.

Section CallAsFunction.
Context {Osc : Type} {osc_ops : RealtimeOscillator Osc}
  {osc_laws : EnvelopeIsState Osc}
  {null_ops : BreakpointUtils} {target : Target}.
Implicit Types (s t : RealTimeSynthesizer Osc) (p q : PartialStruct) (W : list Q).

Lemma synthesize_at_char (o0 : Osc) (j : nat) n s :
  (j < length (partials s))%nat ->
  partial_at (synthesize_at j n s) j
  = synP (m_srateHz s) (OneOverSrate s) o0 n (partial_at s j)
  /\ (forall k : nat, k <> j -> partial_at (synthesize_at j n s) k = partial_at s k)
  /\ cells (buffer (synthesize_at j n s))
     = synW (m_srateHz s) (OneOverSrate s) o0 n (partial_at s j) (cells (buffer s)).
Proof.
  intros Hj. destruct (lookup_lt_is_Some_2 (partials s) j Hj) as [p Hp].
  pose proof (synthesize_at_lookup j n s p Hp) as Hl.
  assert (Hpa : partial_at s j = p) by (unfold partial_at; by rewrite Hp).
  split; [|split].
  - unfold partial_at at 1. rewrite Hl, Hpa. simpl. apply synthesize_p.
  - intros k Hk. unfold partial_at. by rewrite synthesize_at_other.
  - unfold synthesize_at. rewrite Hpa.
    rewrite <- (synthesize_w (m_srateHz s) (OneOverSrate s) o0 p (cells (buffer s)) n (m_osc s)).
    by destruct (synthesize _ _ _ _ _ _) as [[p' d] o'].
Qed.

Lemma synthesize_at_rates (j : nat) n s :
  m_srateHz (synthesize_at j n s) = m_srateHz s
  /\ OneOverSrate (synthesize_at j n s) = OneOverSrate s.
Proof.
  pose proof (synthesize_at_config j n s) as Hc. unfold config in Hc.
  by injection Hc as -> -> _ _ _.
Qed.

(** The first loop of [synthesizeNext]: every partial of the queue is
    rendered once, in the order of the queue, and the unfinished ones are
    queued again in that order. *)
Lemma resume_char (o0 : Osc) n (todo done : list nat) s :
  partialsBeingProcessed s = todo ++ done -> NoDup todo ->
  (forall j : nat, j ∈ todo -> (j < length (partials s))%nat) ->
  let voice j := synP (m_srateHz s) (OneOverSrate s) o0 n (partial_at s j) in
  let s' := resume (length todo) n s in
  partialsBeingProcessed s'
  = done ++ filter (fun j => unfinished (voice j) = true) todo
  /\ (forall j : nat,
        partial_at s' j = if decide (j ∈ todo) then voice j else partial_at s j)
  /\ cells (buffer s')
     = foldl (fun W j => synW (m_srateHz s) (OneOverSrate s) o0 n (partial_at s j) W)
         (cells (buffer s)) todo.
Proof.
  revert done s. induction todo as [|j todo IH]; intros done s Hq Hnd Hlt; simpl.
  { split; [by rewrite Hq, app_nil_r|]. split; [|done].
    intros j. destruct (decide (j ∈ [])) as [Hin|_]; [by apply elem_of_nil in Hin|done]. }
  rewrite Hq. simpl.
  apply NoDup_cons in Hnd as [Hj Hnd].
  assert (Hjlt : (j < length (partials s))%nat) by (apply Hlt, elem_of_cons; by left).
  destruct (synthesize_at_char o0 j n s Hjlt) as (Hpj & Hother & Hcells).
  destruct (synthesize_at_rates j n s) as [Hrate Hone].
  pose proof (synthesize_at_cursors j n s) as (_ & _ & _ & Hlen & _).
  set (s1 := synthesize_at j n s) in *.
  set (q1 := if unfinished (partial_at s1 j) then (todo ++ done) ++ [j] else todo ++ done).
  set (done1 := if unfinished (partial_at s1 j) then done ++ [j] else done).
  assert (Hq1 : partialsBeingProcessed (set_queue q1 s1) = todo ++ done1).
  { subst q1 done1. simpl. destruct (unfinished _); [by rewrite app_assoc|done]. }
  destruct (IH done1 (set_queue q1 s1) Hq1 Hnd) as (IHq & IHp & IHc).
  { intros k Hk. simpl. rewrite Hlen. apply Hlt, elem_of_cons. by right. }
  simpl in IHq, IHp, IHc. rewrite Hrate, Hone in IHq, IHp, IHc.
  change (partial_at (set_queue q1 s1)) with (partial_at s1) in IHq, IHp, IHc.
  assert (Hsame : forall k : nat, k ∈ todo -> partial_at s1 k = partial_at s k).
  { intros k Hk. apply Hother. intros ->. done. }
  split; [|split].
  - rewrite IHq.
    rewrite (filter_ext_in
               (fun k => unfinished (synP (m_srateHz s) (OneOverSrate s) o0 n
                                       (partial_at s1 k)) = true)
               (fun k => unfinished (synP (m_srateHz s) (OneOverSrate s) o0 n
                                       (partial_at s k)) = true) todo)
      by (intros k Hk; by rewrite (Hsame k Hk)).
    subst done1.
    destruct (unfinished (partial_at s1 j)) eqn:Hu; rewrite Hpj in Hu.
    + rewrite filter_cons_True by exact Hu. rewrite <- app_assoc. reflexivity.
    + rewrite filter_cons_False by (rewrite Hu; discriminate). done.
  - intros k. rewrite IHp.
    destruct (decide (k ∈ todo)) as [Hk|Hk].
    + rewrite decide_True by (apply elem_of_cons; by right). by rewrite (Hsame k Hk).
    + destruct (decide (k = j)) as [->|Hne].
      * rewrite decide_True by (apply elem_of_cons; by left). exact Hpj.
      * rewrite decide_False by (rewrite elem_of_cons; tauto). by apply Hother.
  - rewrite IHc. simpl. rewrite Hcells.
    apply foldl_ext_in. intros W k Hk. by rewrite (Hsame k Hk).
Qed.

Lemma due_count_ext fuel srate limit (ps ps' : list PartialStruct) (j : nat) :
  (forall i : nat, (j <= i)%nat -> ps !! i = ps' !! i) ->
  due_count fuel srate limit ps j = due_count fuel srate limit ps' j.
Proof.
  revert j. induction fuel as [|fuel IH]; intros j Hext; simpl; [done|].
  rewrite <- (Hext j (Nat.le_refl j)).
  destruct (ps !! j) as [p|]; [|done].
  destruct (_ >? _); [done|]. f_equal. apply IH. intros i Hi. apply Hext. lia.
Qed.

Lemma partial_at_ext s t (j : nat) :
  partials s !! j = partials t !! j -> partial_at s j = partial_at t j.
Proof. unfold partial_at. by intros ->. Qed.

(** The second loop of [synthesizeNext]: the partials whose turn has come
    are activated and rendered, in order, and the unfinished ones are
    queued; the first partial whose turn has not come gets its first
    sample. *)
Lemma activate_char (o0 : Osc) n fuel s :
  0 <= partialIdx s ->
  fuel = (length (partials s) - Z.to_nat (partialIdx s))%nat ->
  let j0 := Z.to_nat (partialIdx s) in
  let k := due_count fuel (m_srateHz s) (processedSamples s) (partials s) j0 in
  let voice j := synP (m_srateHz s) (OneOverSrate s) o0 n
                   (armed (m_srateHz s) (partial_at s j)) in
  let s' := activate fuel n s in
  partialIdx s' = partialIdx s + Z.of_nat k
  /\ partialsBeingProcessed s'
     = partialsBeingProcessed s ++ filter (fun j => unfinished (voice j) = true) (seq j0 k)
  /\ (forall j : nat,
        partial_at s' j
        = if decide (j0 <= j < j0 + k)%nat then voice j
          else if decide (j = (j0 + k)%nat /\ (j < length (partials s))%nat)
               then marked (m_srateHz s) (partial_at s j)
               else partial_at s j)
  /\ cells (buffer s')
     = foldl (fun W j => synW (m_srateHz s) (OneOverSrate s) o0 n
                           (armed (m_srateHz s) (partial_at s j)) W)
         (cells (buffer s)) (seq j0 k).
Proof.
  revert s. induction fuel as [|fuel IH]; intros s Hidx Hfuel; simpl.
  { split; [lia|]. split; [by rewrite app_nil_r|]. split; [|done].
    intros j. rewrite decide_False by lia. rewrite decide_False by lia. done. }
  set (j0 := Z.to_nat (partialIdx s)).
  destruct (Z.ltb_spec (partialIdx s) (Z.of_nat (length (partials s)))) as [Hlt|Hge];
    [|lia].
  destruct (lookup_lt_is_Some_2 (partials s) j0) as [p0 Hp0]; [lia|].
  assert (Hpa : partial_at s j0 = p0) by (unfold partial_at; by rewrite Hp0).
  rewrite Hp0, Hpa.
  change (currentSamp (state (with_currentSamp (start_sample (m_srateHz s) p0) p0)))
    with (start_sample (m_srateHz s) p0).
  destruct (start_sample (m_srateHz s) p0 >? processedSamples s) eqn:Hdue.
  - (* the turn of the partial at [partialIdx] has not come *)
    simpl. split; [lia|]. split; [by rewrite app_nil_r|]. split; [|done].
    intros j. rewrite decide_False by lia.
    rewrite Nat.add_0_r. unfold partial_at at 1. simpl.
    destruct (decide (j = j0 /\ (j < length (partials s))%nat)) as [[-> _]|Hne].
    + rewrite list_lookup_insert_eq by lia. by rewrite Hpa.
    + rewrite list_lookup_insert_ne by (intros <-; apply Hne; split; [done|lia]).
      done.
  - (* its turn has come *)
    change (activated (with_currentSamp (start_sample (m_srateHz s) p0) p0))
      with (armed (m_srateHz s) p0).
    set (sA := set_partials (<[j0 := armed (m_srateHz s) p0]> (partials s)) s).
    assert (HjA : (j0 < length (partials sA))%nat)
      by (subst sA; simpl; rewrite length_insert; lia).
    destruct (synthesize_at_char o0 j0 n sA HjA) as (Hpj & Hother & Hcells).
    destruct (synthesize_at_rates j0 n sA) as [Hrate Hone].
    pose proof (synthesize_at_cursors j0 n sA) as (Hpi & Hproc & Hqueue & Hlen & _).
    assert (HpA : partial_at sA j0 = armed (m_srateHz s) p0).
    { unfold partial_at. subst sA. simpl. by rewrite list_lookup_insert_eq by lia. }
    assert (HotherA : forall i : nat, i <> j0 -> partials sA !! i = partials s !! i).
    { intros i Hi. subst sA. simpl. by rewrite list_lookup_insert_ne. }
    rewrite HpA in Hpj, Hcells.
    set (s1 := synthesize_at j0 n sA) in *.
    set (q := if unfinished (partial_at s1 j0)
              then partialsBeingProcessed s1 ++ [j0] else partialsBeingProcessed s1).
    set (s2 := set_partialIdx (partialIdx s1 + 1) (set_queue q s1)).
    assert (Hidx2 : partialIdx s2 = partialIdx s + 1) by (subst s2; simpl; by rewrite Hpi).
    assert (Hj2 : Z.to_nat (partialIdx s2) = S j0) by (rewrite Hidx2; lia).
    assert (Hlen2 : length (partials s2) = length (partials s)).
    { subst s2. simpl. rewrite Hlen. subst sA. simpl. apply length_insert. }
    destruct (IH s2) as (IHi & IHq & IHp & IHc); [lia|lia|].
    rewrite ?Hj2 in IHi, IHq, IHp, IHc.
    change (m_srateHz s2) with (m_srateHz s1) in IHi, IHq, IHp, IHc.
    change (OneOverSrate s2) with (OneOverSrate s1) in IHi, IHq, IHp, IHc.
    change (processedSamples s2) with (processedSamples s1) in IHi, IHq, IHp, IHc.
    change (partials s2) with (partials s1) in IHi, IHq, IHp, IHc.
    change (partial_at s2) with (partial_at s1) in IHi, IHq, IHp, IHc.
    change (partialsBeingProcessed s2) with q in IHq.
    change (cells (buffer s2)) with (cells (buffer s1)) in IHc.
    rewrite ?Hrate, ?Hproc in IHi, IHq, IHp, IHc.
    rewrite Hone in IHq, IHp, IHc.
    change (m_srateHz sA) with (m_srateHz s) in *.
    change (OneOverSrate sA) with (OneOverSrate s) in *.
    change (processedSamples sA) with (processedSamples s) in *.
    change (cells (buffer sA)) with (cells (buffer s)) in *.
    assert (Hsame : forall i : nat, i <> j0 -> partial_at s1 i = partial_at s i).
    { intros i Hi. rewrite (Hother i Hi). apply partial_at_ext. by apply HotherA. }
    assert (Hk : due_count fuel (m_srateHz s) (processedSamples s) (partials s1) (S j0)
                 = due_count fuel (m_srateHz s) (processedSamples s) (partials s) (S j0)).
    { apply due_count_ext. intros i Hi.
      unfold s1. rewrite synthesize_at_other by lia. apply HotherA. lia. }
    rewrite ?Hk in IHi, IHq, IHp, IHc.
    set (k := due_count fuel (m_srateHz s) (processedSamples s) (partials s) (S j0)) in *.
    split; [lia|]. split; [|split].
    + rewrite IHq. subst q. rewrite Hqueue.
      change (partialsBeingProcessed sA) with (partialsBeingProcessed s).
      rewrite (filter_ext_in
                 (fun j => unfinished (synP (m_srateHz s) (OneOverSrate s) o0 n
                                         (armed (m_srateHz s) (partial_at s1 j))) = true)
                 (fun j => unfinished (synP (m_srateHz s) (OneOverSrate s) o0 n
                                         (armed (m_srateHz s) (partial_at s j))) = true)
                 (seq (S j0) k))
        by (intros i Hi; apply elem_of_seq in Hi; rewrite (Hsame i); [done|lia]).
      rewrite <- cons_seq.
      destruct (unfinished (partial_at s1 j0)) eqn:Hu; rewrite Hpj in Hu.
      * rewrite filter_cons_True by (by rewrite Hpa). by rewrite <- app_assoc.
      * rewrite filter_cons_False by (rewrite Hpa, Hu; discriminate). done.
    + intros j. rewrite IHp.
      assert (Hlen1 : length (partials s1) = length (partials s))
        by (rewrite Hlen; subst sA; simpl; apply length_insert).
      rewrite Hlen1.
      destruct (decide (j = j0)) as [->|Hne].
      * rewrite Hpj, Hpa. repeat case_decide; first [done | exfalso; lia].
      * rewrite (Hsame j Hne). repeat case_decide; first [done | exfalso; lia].
    + rewrite IHc, Hcells. rewrite <- cons_seq. simpl. rewrite Hpa.
      apply foldl_ext_in. intros W i Hi. apply elem_of_seq in Hi.
      rewrite (Hsame i); [done|lia].
Qed.

Lemma due_count_lt fuel srate limit (ps : list PartialStruct) (j : nat) :
  (j + due_count fuel srate limit ps j <= Nat.max j (length ps))%nat.
Proof.
  revert j. induction fuel as [|fuel IH]; intros j; simpl; [lia|].
  destruct (ps !! j) as [p|] eqn:Hp; [|lia].
  apply lookup_lt_Some in Hp.
  destruct (_ >? _); [lia|]. specialize (IH (S j)). lia.
Qed.

(** The second loop makes the same passes for a later limit when the
    partial it stops at does not start before that limit. *)
Lemma due_count_limit fuel srate limit limit' (ps : list PartialStruct) (j : nat) :
  limit <= limit' ->
  (forall p, ps !! (j + due_count fuel srate limit ps j)%nat = Some p ->
     limit' < start_sample srate p) ->
  due_count fuel srate limit' ps j = due_count fuel srate limit ps j.
Proof.
  intros Hle. revert j. induction fuel as [|fuel IH]; intros j Hstop; simpl in *;
    [done|].
  destruct (ps !! j) as [p|] eqn:Hp; [|done].
  destruct (Z.gtb_spec (start_sample srate p) limit) as [Hgt|Hngt].
  - rewrite Nat.add_0_r in Hstop. specialize (Hstop p Hp).
    destruct (Z.gtb_spec (start_sample srate p) limit'); [done|lia].
  - destruct (Z.gtb_spec (start_sample srate p) limit'); [lia|].
    f_equal. apply IH. intros q Hq. apply Hstop.
    by rewrite Nat.add_succ_r.
Qed.

Lemma none_due_count fuel n s :
  none_due n s ->
  due_count fuel (m_srateHz s) (processedSamples s + n) (partials s)
    (Z.to_nat (partialIdx s)) = O.
Proof.
  intros Hnone. destruct fuel as [|fuel]; simpl; [done|].
  destruct (partials s !! _) as [p|] eqn:Hp; [|done].
  specialize (Hnone p Hp).
  destruct (Z.gtb_spec (start_sample (m_srateHz s) p) (processedSamples s + n));
    [done|lia].
Qed.

Lemma lookup_of_partial_at s t (j : nat) :
  length (partials s) = length (partials t) ->
  partial_at s j = partial_at t j -> partials s !! j = partials t !! j.
Proof.
  unfold partial_at. intros Hlen Hpa.
  destruct (partials s !! j) as [p|] eqn:Hp, (partials t !! j) as [q|] eqn:Hq.
  - simpl in Hpa. by rewrite Hpa.
  - apply lookup_lt_Some in Hp. apply lookup_ge_None in Hq. lia.
  - apply lookup_lt_Some in Hq. apply lookup_ge_None in Hp. lia.
  - done.
Qed.

Lemma config_rates s t :
  config t = config s -> m_srateHz t = m_srateHz s /\ OneOverSrate t = OneOverSrate s.
Proof. unfold config. by intros [= -> -> _ _ _]. Qed.

Lemma input_active s (j : nat) :
  Z.of_nat j < partialIdx s -> input s j = partial_at s j.
Proof. intros Hj. unfold input. by rewrite decide_True. Qed.

Lemma input_waiting s (j : nat) :
  partialIdx s <= Z.of_nat j -> input s j = armed (m_srateHz s) (partial_at s j).
Proof. intros Hj. unfold input. by rewrite decide_False by lia. Qed.

(** A call as a function of the partials it renders: the partials of the
    queue and then the partials whose turn comes, each from the partial
    [input] gives and all into the buffer that was prepared. *)
Lemma synthesizeNext_char (o0 : Osc) n s :
  0 <= n -> session_inv s ->
  let srate := m_srateHz s in
  let oneOver := OneOverSrate s in
  let j0 := Z.to_nat (partialIdx s) in
  let k := due_count (length (partials s) - j0) srate (processedSamples s + n)
             (partials s) j0 in
  let work := partialsBeingProcessed s ++ seq j0 k in
  let s' := synthesizeNext n s in
  partialIdx s' = partialIdx s + Z.of_nat k
  /\ partialsBeingProcessed s'
     = filter (fun j => unfinished (synP srate oneOver o0 n (input s j)) = true) work
  /\ (forall j : nat, j ∈ work -> partial_at s' j = synP srate oneOver o0 n (input s j))
  /\ cells (buffer s')
     = foldl (fun W j => synW srate oneOver o0 n (input s j) W)
         (cells (prepare_buffer n (buffer s))) work.
Proof.
  intros Hn Hinv srate oneOver j0 k work s'.
  pose proof Hinv as (Hidx & Htimed & Hact & Hq & Hnd).
  subst s'. unfold synthesizeNext.
  set (sb := set_buffer
               (prepare_buffer n (buffer (set_processedSamples (processedSamples s + n) s)))
               (set_processedSamples (processedSamples s + n) s)).
  assert (Hinvb : session_inv sb) by exact Hinv.
  destruct (resume_char o0 n (partialsBeingProcessed sb) [] sb) as (Rq & Rp & Rc).
  { by rewrite app_nil_r. }
  { exact Hnd. }
  { intros j Hj. apply Hq in Hj. change (partials sb) with (partials s). lia. }
  destruct (resume_inv (length (partialsBeingProcessed sb)) n sb Hn Hinvb)
    as (Hinv3 & _ & Hidx3 & Hlen3).
  destruct (config_rates sb _ (resume_config (length (partialsBeingProcessed sb)) n sb))
    as [Hrate3 Hone3].
  pose proof (resume_dims (length (partialsBeingProcessed sb)) n sb) as Hd3.
  assert (Hproc3 : processedSamples (resume (length (partialsBeingProcessed sb)) n sb)
                   = processedSamples s + n)
    by exact (f_equal (fun d => d.1.1.1) Hd3).
  clear Hd3.
  set (s3 := resume (length (partialsBeingProcessed sb)) n sb) in *.
  change (partialsBeingProcessed sb) with (partialsBeingProcessed s) in *.
  change (partialIdx sb) with (partialIdx s) in *.
  change (partials sb) with (partials s) in *.
  change (m_srateHz sb) with srate in *.
  change (OneOverSrate sb) with oneOver in *.
  change (partial_at sb) with (partial_at s) in *.
  change (cells (buffer sb)) with (cells (prepare_buffer n (buffer s))) in *.
  simpl in Rq.
  assert (Hwait : forall j : nat, (j0 <= j)%nat -> partial_at s3 j = partial_at s j).
  { intros j Hj. rewrite Rp. rewrite decide_False; [done|].
    intros Hin%Hq. lia. }
  destruct (activate_char o0 n
              (Z.to_nat (Z.of_nat (length (partials s3)) - partialIdx s3)) s3)
    as (Ai & Aq & Ap & Ac); [lia|lia|].
  rewrite Hidx3, Hrate3, Hone3, Hproc3, Hlen3 in *.
  fold j0 in Ai, Aq, Ap, Ac.
  assert (Hk : due_count (Z.to_nat (Z.of_nat (length (partials s)) - partialIdx s))
                 srate (processedSamples s + n) (partials s3) j0 = k).
  { subst k. replace (Z.to_nat (Z.of_nat (length (partials s)) - partialIdx s))
      with (length (partials s) - j0)%nat by lia.
    apply due_count_ext. intros i Hi. apply lookup_of_partial_at; [done|].
    by apply Hwait. }
  rewrite Hk in Ai, Aq, Ap, Ac.
  split; [exact Ai|]. split; [|split].
  - rewrite Aq, Rq. unfold work. rewrite filter_app. f_equal.
    + apply filter_ext_in. intros j Hj%Hq. by rewrite input_active.
    + apply filter_ext_in. intros j Hj%elem_of_seq.
      rewrite input_waiting by lia. by rewrite Hwait by lia.
  - intros j Hj. rewrite Ap. unfold work in Hj. apply elem_of_app in Hj.
    destruct Hj as [Hj|Hj].
    + pose proof (Hq j Hj) as Hlt.
      rewrite decide_False by lia. rewrite decide_False by lia.
      rewrite Rp. rewrite decide_True by done. by rewrite input_active.
    + apply elem_of_seq in Hj. rewrite decide_True by lia.
      rewrite input_waiting by lia. by rewrite Hwait by lia.
  - rewrite Ac, Rc. unfold work. rewrite foldl_app.
    rewrite (foldl_ext_in
               (fun W j => synW srate oneOver o0 n (partial_at s j) W)
               (fun W j => synW srate oneOver o0 n (input s j) W))
      by (intros W j Hj%Hq; by rewrite input_active).
    apply foldl_ext_in. intros W j Hj%elem_of_seq.
    rewrite input_waiting by lia. by rewrite Hwait by lia.
Qed.

End CallAsFunction.

Section Chunks.
Context {Osc : Type} {osc_ops : RealtimeOscillator Osc}
  {osc_laws : EnvelopeIsState Osc} {snapshot : SnapshotResumes Osc}
  {null_ops : BreakpointUtils} {target : Target}.
Implicit Types (s t : RealTimeSynthesizer Osc) (p q : PartialStruct) (W : list Q).

(** The partials a call renders are timed and on track. *)
Lemma input_ok n s (j : nat) :
  session_inv s ->
  let j0 := Z.to_nat (partialIdx s) in
  let k := due_count (length (partials s) - j0) (m_srateHz s) (processedSamples s + n)
             (partials s) j0 in
  j ∈ partialsBeingProcessed s ++ seq j0 k ->
  timed (m_srateHz s) (input s j) /\ on_track (m_srateHz s) (input s j).
Proof.
  intros (Hidx & Htimed & Hact & Hq & Hnd) j0 k Hj.
  apply elem_of_app in Hj. destruct Hj as [Hj|Hj].
  - pose proof (Hq j Hj) as Hlt. rewrite input_active by done.
    destruct (lookup_lt_is_Some_2 (partials s) j) as [p Hp]; [lia|].
    unfold partial_at. rewrite Hp. simpl.
    split; [exact (Forall_lookup_1 _ _ _ _ Htimed Hp)|].
    by apply (Hact j p Hp Hlt).
  - apply elem_of_seq in Hj.
    pose proof (due_count_lt (length (partials s) - j0) (m_srateHz s)
                  (processedSamples s + n) (partials s) j0) as Hk.
    fold k in Hk.
    rewrite input_waiting by lia.
    destruct (lookup_lt_is_Some_2 (partials s) j) as [p Hp]; [lia|].
    unfold partial_at. rewrite Hp. simpl.
    pose proof (Forall_lookup_1 _ _ _ _ Htimed Hp) as Ht.
    split; [|exact (activated_on_track _ p Ht)].
    eapply timed_shape; [|exact Ht]. done.
Qed.

Lemma foldl_synW_take (k : nat) srate oneOver (o0 : Osc) n
    (inp : nat -> PartialStruct) (work : list nat) W :
  take k (foldl (fun W j => synW srate oneOver o0 n (inp j) W) W work)
  = foldl (fun W j => synW srate oneOver o0 n (inp j) W) (take k W) work.
Proof.
  revert W. induction work as [|j work IH]; intros W; simpl; [done|].
  by rewrite IH, synW_take.
Qed.

(** The partials of a call of [n1 + n2] samples fill the window as the
    same partials do in a call of [n1] samples followed by a call of [n2]
    samples, when the first call leaves each of them finished or on a
    breakpoint. *)
Lemma foldl_split srate oneOver (o0 : Osc) n1 n2 (inp : nat -> PartialStruct)
    (work : list nat) W1 W2 :
  0 < n1 -> 0 < n2 -> Z.of_nat (length W1) = n1 ->
  (forall j : nat, j ∈ work ->
     timed srate (inp j) /\ on_track srate (inp j)
     /\ (unfinished (synP srate oneOver o0 n1 (inp j)) = true ->
         on_breakpoint srate (synP srate oneOver o0 n1 (inp j)))) ->
  foldl (fun W j => synW srate oneOver o0 (n1 + n2) (inp j) W) (W1 ++ W2) work
  = foldl (fun W j => synW srate oneOver o0 n1 (inp j) W) W1 work
    ++ foldl (fun W j => synW srate oneOver o0 n2
                           (synP srate oneOver o0 n1 (inp j)) W) W2 work.
Proof.
  intros Hn1 Hn2. revert W1 W2.
  induction work as [|j work IH]; intros W1 W2 HW Hwork; simpl; [done|].
  destruct (Hwork j) as (Ht & Ho & Hb); [apply elem_of_cons; by left|].
  pose proof (synthesize_split srate oneOver n1 n2 (inp j) W1 W2 o0 o0
                Hn1 Hn2 HW Ht Ho) as Hsplit.
  cbv zeta in Hsplit. rewrite !(synthesize_p _ _ o0) in Hsplit.
  rewrite !(synthesize_w _ _ o0) in Hsplit.
  rewrite (Hsplit Hb). apply IH.
  - by rewrite length_synW.
  - intros i Hi. apply Hwork. apply elem_of_cons. by right.
Qed.

Lemma config_start_sample s t (j : nat) p q :
  config t = config s -> partials s !! j = Some p -> partials t !! j = Some q ->
  start_sample (m_srateHz t) q = start_sample (m_srateHz s) p.
Proof.
  intros Hc Hp Hq. rewrite (config_rate _ _ Hc).
  assert (Hs : shape <$> partials t = shape <$> partials s)
    by (unfold config in Hc; congruence).
  apply (f_equal (fun l => l !! j)) in Hs.
  rewrite !list_lookup_fmap, Hp, Hq in Hs. simpl in Hs.
  assert (Hs1 : shape q = shape p) by congruence.
  destruct (shape_fields q p Hs1) as [Hst _].
  unfold start_sample. by rewrite Hst.
Qed.

(** A call of [n1 + n2] samples returns the blocks of a call of [n1]
    samples and of a call of [n2] samples, one after the other, when the
    call of [n1] samples leaves the partials of the queue on a breakpoint
    and no partial comes to its turn in the call of [n2] samples. *)
Lemma two_chunks (n1 n2 : Z) s :
  4 <= sizeof_float_ptr <= 8 -> 0 < n1 -> 0 < n2 -> n1 + n2 < 2 ^ 31 ->
  session_inv s -> buffer_ok (buffer s) ->
  aligned (synthesizeNext n1 s) -> none_due n2 (synthesizeNext n1 s) ->
  block (n1 + n2) (synthesizeNext (n1 + n2) s)
  = block n1 (synthesizeNext n1 s)
    ++ block n2 (synthesizeNext n2 (synthesizeNext n1 s)).
Proof.
  intros Hptr Hn1 Hn2 HN Hinv Hok Haligned Hnone.
  set (o0 := m_osc s).
  destruct (synthesizeNext_inv n1 s) as (Hinv1 & _ & _ & Hlen1); [lia|done|].
  pose proof (synthesizeNext_config n1 s) as Hc1.
  destruct (config_rates s _ Hc1) as [Hrate1 Hone1].
  assert (Hproc1 : processedSamples (synthesizeNext n1 s) = processedSamples s + n1)
    by exact (f_equal (fun d => d.1.1.1) (synthesizeNext_dims n1 s)).
  destruct (synthesizeNext_buffer_ok n1 s) as [Hok1 _]; [lia|done|done|].
  destruct (synthesizeNext_char o0 n1 s) as (I1 & Q1 & P1 & C1); [lia|done|].
  destruct (synthesizeNext_char o0 (n1 + n2) s) as (_ & _ & _ & CN); [lia|done|].
  destruct (synthesizeNext_char o0 n2 (synthesizeNext n1 s))
    as (_ & _ & _ & C2); [lia|done|].
  pose proof (input_ok n1 s) as Hin.
  rewrite (none_due_count _ n2 _ Hnone) in C2.
  set (s1 := synthesizeNext n1 s) in *.
  set (j0 := Z.to_nat (partialIdx s)) in *.
  set (fuel := (length (partials s) - j0)%nat) in *.
  assert (Hk : due_count fuel (m_srateHz s) (processedSamples s + (n1 + n2))
                 (partials s) j0
               = due_count fuel (m_srateHz s) (processedSamples s + n1)
                   (partials s) j0).
  { apply due_count_limit; [lia|]. intros p Hp.
    destruct (lookup_lt_is_Some_2 (partials s1)
                (j0 + due_count fuel (m_srateHz s) (processedSamples s + n1)
                        (partials s) j0)) as [q Hq].
    { rewrite Hlen1. by apply lookup_lt_Some in Hp. }
    rewrite <- (config_start_sample s s1 _ p q Hc1 Hp Hq).
    assert (Hlim : processedSamples s1 + n2 < start_sample (m_srateHz s1) q).
    { apply Hnone. rewrite <- Hq. f_equal. rewrite I1.
      destruct Hinv as (Hidx & _). subst j0. lia. }
    lia. }
  rewrite Hk in CN.
  set (k := due_count fuel (m_srateHz s) (processedSamples s + n1) (partials s) j0) in *.
  set (work := partialsBeingProcessed s ++ seq j0 k) in *.
  cbn [seq] in C2. rewrite app_nil_r in C2. rewrite Hrate1, Hone1 in C2.
  destruct (prepare_buffer_zero n1 (buffer s)) as (Z1 & _); [lia|done|done|].
  destruct (prepare_buffer_zero (n1 + n2) (buffer s)) as (ZN & _); [lia|done|done|].
  destruct (prepare_buffer_zero n2 (buffer s1)) as (Z2 & _); [lia|done|done|].
  unfold block. rewrite CN, C1, C2. rewrite !foldl_synW_take. rewrite Z1, ZN, Z2.
  replace (Z.to_nat (n1 + n2)) with (Z.to_nat n1 + Z.to_nat n2)%nat by lia.
  rewrite replicate_add.
  assert (Hdone : forall j : nat, j ∈ partialsBeingProcessed s1 ->
            j ∈ work /\ input s1 j
                        = synP (m_srateHz s) (OneOverSrate s) o0 n1 (input s j)).
  { intros j Hj. pose proof Hj as Hj'. rewrite Q1 in Hj'.
    apply list_elem_of_filter in Hj' as [_ Hw]. split; [done|].
    destruct Hinv1 as (_ & _ & _ & Hq1 & _).
    rewrite input_active by (by apply Hq1). by apply P1. }
  rewrite foldl_split; [|done|done|by rewrite length_replicate; lia|].
  - f_equal.
    rewrite (foldl_ext_in
               (fun W j => synW (m_srateHz s) (OneOverSrate s) o0 n2 (input s1 j) W)
               (fun W j => synW (m_srateHz s) (OneOverSrate s) o0 n2
                             (synP (m_srateHz s) (OneOverSrate s) o0 n1 (input s j)) W))
      by (intros W j Hj; by rewrite (proj2 (Hdone j Hj))).
    rewrite Q1. symmetry. apply foldl_filter_skip.
    intros W j Hu. apply synW_finished. by apply not_true_is_false.
  - intros j Hj. destruct (Hin j Hinv Hj) as [Ht Ho].
    split; [done|]. split; [done|]. intros Hu.
    assert (Hjq : j ∈ partialsBeingProcessed s1)
      by (rewrite Q1; apply list_elem_of_filter; by split).
    specialize (Haligned j Hjq). rewrite Hrate1, (P1 j Hj) in Haligned. done.
Qed.

Lemma render_cons n (sizes : list Z) s :
  render (n :: sizes) s
  = (block n (synthesizeNext n s) :: (render sizes (synthesizeNext n s)).1,
     (render sizes (synthesizeNext n s)).2).
Proof. cbn [render]. by destruct (render sizes (synthesizeNext n s)). Qed.

Lemma total_pos (sizes : list Z) :
  sizes <> [] -> Forall (Z.lt 0) sizes -> 0 < total sizes.
Proof.
  intros Hne Hpos. destruct sizes as [|n sizes]; [done|].
  apply Forall_cons in Hpos as [Hn Hpos]. unfold total. simpl.
  assert (0 <= foldr Z.add 0 sizes); [|lia].
  clear Hne. induction Hpos as [|m sizes Hm Hpos IH]; simpl; lia.
Qed.

(** The blocks of a series of calls that split on breakpoints, one after
    the other, are the block of one call for all the samples. *)
Lemma aligned_chunks (sizes : list Z) s :
  4 <= sizeof_float_ptr <= 8 ->
  sizes <> [] -> Forall (Z.lt 0) sizes -> total sizes < 2 ^ 31 ->
  session_inv s -> buffer_ok (buffer s) -> aligned_run sizes s ->
  concat (render sizes s).1 = block (total sizes) (synthesizeNext (total sizes) s).
Proof.
  intros Hptr. revert s.
  induction sizes as [|n rest IH]; intros s Hne Hpos Htot Hinv Hok Hrun; [done|].
  apply Forall_cons in Hpos as [Hn Hpos].
  rewrite render_cons. cbn [fst concat].
  destruct (decide (rest = [])) as [->|Hrest].
  { cbn [render fst concat total foldr]. by rewrite app_nil_r, Z.add_0_r. }
  destruct Hrun as [Hnil|(Haligned & Hnone & Hrun)]; [done|].
  pose proof (total_pos rest Hrest Hpos) as Hrpos.
  change (total (n :: rest)) with (n + total rest) in *.
  destruct (synthesizeNext_inv n s) as (Hinv1 & _); [lia|done|].
  destruct (synthesizeNext_buffer_ok n s) as [Hok1 _]; [lia|done|done|].
  rewrite (IH (synthesizeNext n s)) by (done || lia).
  symmetry. by apply two_chunks.
Qed.

(** C1, amended.  Chunking invariance on breakpoints: for a list of source
    partials that the synthesizer can follow and a series of calls
    [n1, n2, ...] with positive sizes, the concatenation of the blocks the
    calls return is the block of a single call of [n1 + n2 + ...] samples,
    when every call but the last one leaves each partial of the queue on
    one of its breakpoints and no partial comes to its turn after the first
    call.  The equality is exact.  The oscillator is any one whose
    envelope snapshot is its state. *)
Theorem aligned_chunks_concatenate (ps : PartialList) (pitch0 : Q) s0
    (sizes : list Z) :
  4 <= sizeof_float_ptr <= 8 ->
  (0 <= m_srateHz s0)%Q -> (0 <= m_fadeTimeSec s0)%Q ->
  Forall (valid_source (m_srateHz s0) (m_fadeTimeSec s0)) ps ->
  buffer_ok (buffer s0) ->
  sizes <> [] -> Forall (Z.lt 0) sizes -> total sizes < 2 ^ 31 ->
  aligned_run sizes (setup ps pitch0 s0) ->
  concat (render sizes (setup ps pitch0 s0)).1
  = block (total sizes) (synthesizeNext (total sizes) (setup ps pitch0 s0)).
Proof.
  intros Hptr Hrate Hfade Hvalid Hok Hne Hpos Htot Hrun.
  apply aligned_chunks; try done.
  by apply setup_inv.
Qed.

End Chunks.

Lemma ramp_snapshot_resumes : SnapshotResumes Ramp.
Proof.
  split.
  - intros [f a b ph] o'. reflexivity.
  - intros n bp sr o. cbn [oscillate ramp_oscillator]. unfold ramp_oscillate.
    cbn [snd]. rewrite length_map, length_seq. lia.
Qed.

(** Two series of calls whose blocks are not the block of the single call.
    A call that ends inside a segment drives the oscillator toward the
    breakpoint before the segment for the rest of the call, so the ramp of
    the partial [rise] from sample 4 to sample 8 is rendered as two samples
    at amplitude 0 and a ramp of two samples.  A partial whose turn comes
    in a later call is rendered from the first sample of that call, so the
    partial [two] starts one sample later after a call of one sample. *)
Lemma chunked_render_differs :
  let s := setup [Examples.rise] 1 Examples.synth0 in
  let t := setup [Examples.two] 1 Examples.synth0 in
  concat (render (target := lp64) [4; 4] s).1
  = [0; 0; 0; 0; 0; 1 # 2; 1; 1 # 2]%Q
  /\ block (total [4; 4]) (synthesizeNext (target := lp64) (total [4; 4]) s)
     = [0; 0; 0; 1 # 4; 1 # 2; 3 # 4; 1; 1 # 2]%Q
  /\ concat (render (target := lp64) [1; 3] t).1 = [0; 0; 1 # 2; 1]%Q
  /\ block (total [1; 3]) (synthesizeNext (target := lp64) (total [1; 3]) t)
     = [0; 1 # 2; 1; 1]%Q
  /\ concat (render (target := lp64) [4; 4] s).1
     <> block (total [4; 4]) (synthesizeNext (target := lp64) (total [4; 4]) s)
  /\ concat (render (target := lp64) [1; 3] t).1
     <> block (total [1; 3]) (synthesizeNext (target := lp64) (total [1; 3]) t).
Proof. vm_compute. repeat split; (reflexivity || discriminate). Qed.

Lemma aligned_chunks_concatenate_witness :
  concat (render (target := lp64) [2; 6] (setup [Examples.two] 1 Examples.synth0)).1
  = block (total [2; 6])
      (synthesizeNext (target := lp64) (total [2; 6])
         (setup [Examples.two] 1 Examples.synth0)).
Proof.
  apply (aligned_chunks_concatenate (osc_laws := ramp_envelope_is_state)
           (snapshot := ramp_snapshot_resumes) (target := lp64)
           [Examples.two] 1 Examples.synth0 [2; 6]).
  - vm_compute. split; discriminate.
  - discriminate.
  - discriminate.
  - constructor; [exact two_valid | constructor].
  - vm_compute. split; discriminate.
  - discriminate.
  - constructor; [lia | constructor; [lia | constructor]].
  - vm_compute. reflexivity.
  - right. split; [|split].
    + intros j Hj.
      assert (Hq : partialsBeingProcessed
                     (synthesizeNext (target := lp64) 2
                        (setup [Examples.two] 1 Examples.synth0)) = [0%nat])
        by (vm_compute; reflexivity).
      rewrite Hq in Hj. apply list_elem_of_singleton in Hj. subst j.
      vm_compute. reflexivity.
    + intros p Hp. vm_compute in Hp. discriminate.
    + left. reflexivity.
Defined.

(** * Further properties of the renderer *)

(** ** The samples a call takes from a partial *)

Section SamplesOfACall.
Context {Osc : Type} {osc_ops : RealtimeOscillator Osc}.
Implicit Types (p q : PartialStruct) (l : @Loop Osc).

(** A pass moves the current sample and the sample counter by the same
    number of samples. *)
Lemma segment_consume srate oneOver samples l :
  currentSamp (state (loop_p (segment srate oneOver samples l).1))
  - sampleCounter (segment srate oneOver samples l).1
  = currentSamp (state (loop_p l)) - sampleCounter l.
Proof.
  unfold segment. destruct (oscillate _ _ _ _) as [osc2 ys]. simpl.
  destruct (_ >? _); lia.
Qed.

Lemma segment_brk srate oneOver samples l :
  (segment srate oneOver samples l).2
  = (sampleCounter (segment srate oneOver samples l).1 >=? samples).
Proof. unfold segment. by destruct (oscillate _ _ _ _) as [osc2 ys]. Qed.

Lemma loop_inv_finished l :
  loop_inv l -> numBreakpoints (loop_p l) <= loop_i l ->
  unfinished (loop_p l) = false.
Proof.
  unfold loop_inv, unfinished. intros Hinv Hi. apply Z.ltb_ge. lia.
Qed.

Lemma segments_consume fuel srate oneOver samples l :
  timed srate (loop_p l) -> on_track srate (loop_p l) -> loop_inv l ->
  0 <= sampleCounter l <= samples ->
  fuel = Z.to_nat (numBreakpoints (loop_p l) - loop_i l) ->
  let l' := segments fuel srate oneOver samples l in
  currentSamp (state (loop_p l')) - sampleCounter l'
  = currentSamp (state (loop_p l)) - sampleCounter l
  /\ sampleCounter l <= sampleCounter l' <= samples
  /\ (unfinished (loop_p l') = true -> sampleCounter l' = samples).
Proof.
  revert l. induction fuel as [|fuel IH]; intros l Ht Ho Hinv Hc Hfuel; simpl.
  { split; [done|]. split; [lia|]. intros Hu.
    rewrite loop_inv_finished in Hu by (done || lia). discriminate. }
  destruct (Z.ltb_spec (loop_i l) (numBreakpoints (loop_p l))) as [Hi|Hi]; [|lia].
  pose proof (segment_on_track srate oneOver samples l Ht Ho Hinv Hi Hc)
    as (Ho' & Hadv & Hc' & Hlt).
  pose proof (segment_keeps_inv srate oneOver samples l) as Hkeep.
  pose proof (segment_frame srate oneOver samples l) as [Hshape _].
  pose proof (segment_consume srate oneOver samples l) as Hcons.
  pose proof (segment_brk srate oneOver samples l) as Hbrk.
  pose proof (segment_unclipped_state srate oneOver samples l) as Hun.
  destruct (shape_fields _ _ Hshape) as [_ Hnum].
  destruct Hadv as [Hadv _].
  destruct (segment srate oneOver samples l) as [l1 brk]. simpl in *.
  destruct brk.
  - split; [done|]. split; [lia|]. intros _.
    symmetry in Hbrk. rewrite Z.geb_leb in Hbrk. apply Z.leb_le in Hbrk. lia.
  - destruct (Hkeep eq_refl) as [Hclip Hinv'].
    assert (Ht' : timed srate (loop_p l1))
      by exact (timed_shape srate _ _ (eq_sym Hshape) Ht).
    destruct (Hun Hclip) as (Hi1 & _).
    destruct (IH (next_i l1) Ht' Ho' Hinv' Hc') as (IHc & IHr & IHu).
    { simpl. rewrite Hnum, Hi1. lia. }
    simpl in *. split; [lia|]. split; [lia|done].
Qed.

Lemma synthesize_advance srate oneOver p (d : list Q) samples (osc : Osc) :
  timed srate p -> on_track srate p -> 0 <= samples ->
  let p' := (synthesize srate oneOver p d samples osc).1.1 in
  currentSamp (state p) <= currentSamp (state p') <= currentSamp (state p) + samples
  /\ (unfinished p' = true ->
      currentSamp (state p') = currentSamp (state p) + samples).
Proof.
  intros Ht Ho Hn. unfold synthesize.
  rewrite (timed_not_rejected srate p Ht).
  destruct (finished p) eqn:Hfin.
  { simpl. split; [lia|]. intros Hu. unfold finished in Hfin. unfold unfinished in Hu.
    rewrite Z.geb_leb in Hfin. apply Z.leb_le in Hfin. apply Z.ltb_lt in Hu. lia. }
  cbn [fst snd].
  set (l0 := mkLoop _ 0 0 p d _).
  destruct (segments_consume _ srate oneOver samples l0 Ht Ho
              (loop_inv_first _ _ _) ltac:(simpl; lia) eq_refl) as (Hc & Hr & Hu).
  simpl in *. split; [lia|]. intros Hun. specialize (Hu Hun). lia.
Qed.

(** X1.  [synthesize] is sample accurate on a partial that is timed and on
    track: the current sample of the partial moves forward by at most
    [samples], and by exactly [samples] when breakpoints are left to
    render after the call. *)
Theorem synthesize_consumes srate oneOver p (d : list Q) samples (osc : Osc) :
  timed srate p -> on_track srate p -> 0 <= samples ->
  let p' := (synthesize srate oneOver p d samples osc).1.1 in
  currentSamp (state p) <= currentSamp (state p') <= currentSamp (state p) + samples
  /\ (unfinished p' = true ->
      currentSamp (state p') = currentSamp (state p) + samples).
Proof. apply synthesize_advance. Qed.

(** X21.  A partial ends in the call that goes past its last breakpoint:
    when fewer samples than the call renders are left to the sample of the
    last breakpoint, no breakpoint is left after the call. *)
Theorem synthesize_finishes srate oneOver p (d : list Q) samples (osc : Osc) :
  timed srate p -> on_track srate p -> 0 <= samples ->
  target_sample srate p (numBreakpoints p - 1) - currentSamp (state p) < samples ->
  unfinished (synthesize srate oneOver p d samples osc).1.1 = false.
Proof.
  intros Ht Ho Hn Hlast.
  destruct (synthesize_advance srate oneOver p d samples osc Ht Ho Hn) as [_ Hexact].
  destruct (synthesize_on_track srate oneOver p d samples osc Ht Ho Hn) as [Ho' _].
  pose proof (synthesize_frame srate oneOver p d samples osc) as [Hshape _].
  set (p' := (synthesize srate oneOver p d samples osc).1.1) in *.
  destruct (unfinished p') eqn:Hu; [|done]. exfalso.
  specialize (Hexact eq_refl).
  destruct (shape_fields _ _ Hshape) as [_ Hnum].
  destruct Ho' as (Hl & _ & Hnext & _).
  unfold unfinished in Hu. apply Z.ltb_lt in Hu. specialize (Hnext Hu).
  rewrite (target_sample_shape srate p' p _ Hshape) in Hnext.
  destruct Ht as (_ & _ & _ & Hmono).
  specialize (Hmono (lastBreakpointIdx (state p') + 1) (numBreakpoints p - 1)
                ltac:(lia) ltac:(lia)).
  lia.
Qed.

End SamplesOfACall.

Lemma two_partial_ready :
  timed 4 Examples.two_partial /\ on_track 4 Examples.two_partial.
Proof.
  assert (Hp : exists p, prepare (1 # 2) Examples.two = Some p
                         /\ partial_at (setup [Examples.two] 1 Examples.synth0) 0 = p).
  { eexists. split; reflexivity. }
  destruct Hp as (p & Hp & Hat).
  assert (Ht : timed 4 p).
  { eapply (prepare_timed 4 (1 # 2) Examples.two p);
      [discriminate|discriminate|exact two_valid|exact Hp]. }
  unfold Examples.two_partial. cbv zeta. rewrite Hat. split.
  - eapply timed_shape; [|exact Ht]. reflexivity.
  - by apply activated_on_track.
Qed.

Lemma two_setup_inv : session_inv (setup [Examples.two] 1 Examples.synth0).
Proof.
  apply setup_inv; [discriminate|discriminate|].
  constructor; [exact two_valid|constructor].
Qed.

Lemma two_session_inv (sizes : list Z) :
  Forall (Z.le 0) sizes ->
  session_inv (render (target := lp64) sizes (setup [Examples.two] 1 Examples.synth0)).2.
Proof.
  intros Hs. apply render_inv; [done|].
  apply setup_inv; [discriminate|discriminate|].
  constructor; [exact two_valid|constructor].
Qed.

Lemma synthesize_consumes_witness :
  let p' := (synthesize 4 (1 # 4) Examples.two_partial (replicate 8 0%Q) 3
               (mkRamp 0 0 0 0)).1.1 in
  currentSamp (state Examples.two_partial) <= currentSamp (state p')
  <= currentSamp (state Examples.two_partial) + 3
  /\ (unfinished p' = true ->
      currentSamp (state p') = currentSamp (state Examples.two_partial) + 3).
Proof.
  apply (synthesize_consumes 4 (1 # 4) Examples.two_partial (replicate 8 0%Q) 3
           (mkRamp 0 0 0 0)).
  - exact (proj1 two_partial_ready).
  - exact (proj2 two_partial_ready).
  - lia.
Defined.

(** ** Where a call writes *)

Section WithinTheBlock.
Context {Osc : Type} {osc_ops : RealtimeOscillator Osc}
  {snapshot : SnapshotResumes Osc}
  {null_ops : BreakpointUtils} {target : Target}.
Implicit Types (s : RealTimeSynthesizer Osc) (p : PartialStruct) (l : @Loop Osc).

Lemma accumulate_beyond off ys (d : list Q) (k : nat) :
  off + Z.of_nat (length ys) <= Z.of_nat k ->
  Buffer.accumulate off ys d !! k = d !! k.
Proof.
  intros Hk. unfold Buffer.accumulate. rewrite list_lookup_imap.
  destruct (d !! k) as [x|]; [|done]. simpl.
  destruct (Z.ltb_spec (Z.of_nat k) (off + Z.of_nat (length ys))); [lia|].
  by rewrite andb_false_r.
Qed.

(** A pass writes below the end of the block. *)
Lemma segment_within srate oneOver samples l (k : nat) :
  buffer_pos l = sampleCounter l -> sampleCounter l <= samples ->
  samples <= Z.of_nat k ->
  window (segment srate oneOver samples l).1 !! k = window l !! k
  /\ sampleCounter (segment srate oneOver samples l).1 <= samples.
Proof.
  intros Hpos Hc Hk. unfold segment.
  destruct (Z.gtb_spec (sampleCounter l + span srate l) samples) as [Hover|Hfit].
  - destruct (oscillate _ _ _ _) as [osc2 ys] eqn:Hosc. simpl.
    split; [|lia]. apply accumulate_beyond.
    pose proof (f_equal (fun r => length r.2) Hosc) as Hlen. simpl in Hlen.
    rewrite oscillate_length in Hlen. lia.
  - destruct (oscillate _ _ _ _) as [osc2 ys] eqn:Hosc. simpl.
    split; [|lia]. apply accumulate_beyond.
    pose proof (f_equal (fun r => length r.2) Hosc) as Hlen. simpl in Hlen.
    rewrite oscillate_length in Hlen. lia.
Qed.

Lemma segments_within fuel srate oneOver samples l (k : nat) :
  buffer_pos l = sampleCounter l -> sampleCounter l <= samples ->
  samples <= Z.of_nat k ->
  window (segments fuel srate oneOver samples l) !! k = window l !! k.
Proof.
  revert l. induction fuel as [|fuel IH]; intros l Hpos Hc Hk; simpl; [done|].
  destruct (loop_i l <? numBreakpoints (loop_p l)); [|done].
  pose proof (segment_within srate oneOver samples l k Hpos Hc Hk) as [Hw Hc'].
  pose proof (segment_pos srate oneOver samples l Hpos) as Hpos'.
  destruct (segment srate oneOver samples l) as [l' brk]. simpl in *.
  destruct brk; [done|]. by rewrite (IH (next_i l')).
Qed.

Lemma synthesize_within srate oneOver p (d : list Q) samples (osc : Osc) (k : nat) :
  0 <= samples -> samples <= Z.of_nat k ->
  (synthesize srate oneOver p d samples osc).1.2 !! k = d !! k.
Proof.
  intros Hn Hk. unfold synthesize.
  destruct (rejected p); [done|]. destruct (finished p); [done|]. cbn [fst snd].
  by rewrite segments_within.
Qed.

Lemma synthesize_at_within (j : nat) n s (k : nat) :
  0 <= n -> n <= Z.of_nat k ->
  cells (buffer (synthesize_at j n s)) !! k = cells (buffer s) !! k.
Proof.
  intros Hn Hk. unfold synthesize_at.
  pose proof (synthesize_within (m_srateHz s) (OneOverSrate s) (partial_at s j)
                (cells (buffer s)) n (m_osc s) k Hn Hk) as Hw.
  destruct (synthesize _ _ _ _ _ _) as [[p d] osc]. exact Hw.
Qed.

Lemma resume_within size n s (k : nat) :
  0 <= n -> n <= Z.of_nat k ->
  cells (buffer (resume size n s)) !! k = cells (buffer s) !! k.
Proof.
  intros Hn Hk. revert s. induction size as [|size IH]; intros s; simpl; [done|].
  destruct (partialsBeingProcessed s) as [|j rest]; [done|].
  rewrite IH. apply (synthesize_at_within j n s k Hn Hk).
Qed.

Lemma activate_within fuel n s (k : nat) :
  0 <= n -> n <= Z.of_nat k ->
  cells (buffer (activate fuel n s)) !! k = cells (buffer s) !! k.
Proof.
  intros Hn Hk. revert s. induction fuel as [|fuel IH]; intros s; simpl; [done|].
  destruct (partialIdx s <? Z.of_nat (length (partials s))); [|done].
  destruct (_ >? processedSamples s); [done|].
  rewrite IH. cbn [buffer set_partialIdx set_queue].
  by rewrite (synthesize_at_within _ n _ k Hn Hk).
Qed.

(** X2.  The rendering of a call stays in its block: from a state that
    keeps the invariant of the synthesizer, the block fits the allocation
    of the buffer, and the cells from position [samples] on are as the
    preparation of the buffer left them; no partial is rendered into
    them. *)
Theorem rendering_stays_in_block n s :
  session_inv s -> 0 <= n < 2 ^ 31 -> buffer_ok (buffer s) ->
  n <= Buffer.capacity (buffer (synthesizeNext n s))
  /\ forall k : nat, n <= Z.of_nat k ->
       cells (buffer (synthesizeNext n s)) !! k
       = cells (prepare_buffer n (buffer s)) !! k.
Proof.
  intros _ Hn Hok. split.
  - pose proof (synthesizeNext_dims n s) as Hd.
    assert (Hlen : length (cells (buffer (synthesizeNext n s)))
                   = length (cells (prepare_buffer n (buffer s))))
      by exact (f_equal (fun d => d.1.1.2) Hd).
    unfold Buffer.capacity. rewrite Hlen.
    unfold prepare_buffer. rewrite (index_of_int_small _ Hn).
    cbn [cells with_cells]. rewrite length_memset0.
    destruct (Z.ltb_spec (vsize (buffer s)) n) as [Hlt|Hge].
    + apply (reserve_capacity n (buffer s)); [exact Hok|lia].
    + unfold buffer_ok, Buffer.capacity in Hok. lia.
  - intros k Hk. unfold synthesizeNext.
    rewrite activate_within, resume_within by lia. done.
Qed.

(** X3.  A call for zero samples, from a state that keeps the invariant of
    the synthesizer, leaves the contents of the buffer and the sample
    counter as they are. *)
Theorem zero_samples_keep_buffer s :
  session_inv s -> 0 <= vsize (buffer s) ->
  cells (buffer (synthesizeNext 0 s)) = cells (buffer s)
  /\ processedSamples (synthesizeNext 0 s) = processedSamples s.
Proof.
  intros _ Hv. split.
  - apply list_eq. intros k. unfold synthesizeNext.
    rewrite activate_within, resume_within by lia.
    cbn [buffer set_buffer set_processedSamples]. unfold prepare_buffer.
    change (index_of_int 0) with 0.
    destruct (Z.ltb_spec (vsize (buffer s)) 0); [lia|].
    cbn [cells with_cells]. unfold Buffer.memset0.
    rewrite list_lookup_imap. destruct (cells (buffer s) !! k) as [x|]; [|done].
    simpl. assert (Hb : Buffer.memset_cells (clear_bytes 0) = 0) by reflexivity.
    rewrite Hb. by destruct (Z.ltb_spec (Z.of_nat k) 0); [lia|].
  - pose proof (synthesizeNext_dims 0 s) as Hd.
    assert (Hp : processedSamples (synthesizeNext 0 s) = processedSamples s + 0)
      by exact (f_equal (fun d => d.1.1.1) Hd).
    lia.
Qed.

End WithinTheBlock.

(** ** A buffer that is too small *)

Section SmallBuffer.
Context {Osc : Type} {osc_ops : RealtimeOscillator Osc}
  {snapshot : SnapshotResumes Osc}
  {null_ops : BreakpointUtils} {target : Target}.
Implicit Types (s : RealTimeSynthesizer Osc) (p : PartialStruct).


End SmallBuffer.



(** ** Calls that render nothing *)

Section Silence.
Context {Osc : Type} {osc_ops : RealtimeOscillator Osc}
  {null_ops : BreakpointUtils} {target : Target}.
Implicit Types (s : RealTimeSynthesizer Osc) (p : PartialStruct).

(** With an empty queue and no partial whose turn comes, a call prepares
    the buffer and marks the partial it stops at. *)
Lemma quiet_call n s :
  0 <= partialIdx s -> partialsBeingProcessed s = [] -> none_due n s ->
  cells (buffer (synthesizeNext n s)) = cells (prepare_buffer n (buffer s))
  /\ partialsBeingProcessed (synthesizeNext n s) = []
  /\ partialIdx (synthesizeNext n s) = partialIdx s.
Proof.
  intros Hidx Hq Hnone. unfold synthesizeNext.
  set (s2 := set_buffer _ _).
  assert (Hr : resume (length (partialsBeingProcessed s2)) n s2 = s2).
  { change (partialsBeingProcessed s2) with (partialsBeingProcessed s).
    by rewrite Hq. }
  rewrite Hr. generalize (Z.to_nat (Z.of_nat (length (partials s2)) - partialIdx s2)).
  intros [|fuel]; simpl; [done|].
  destruct (Z.ltb_spec (partialIdx s) (Z.of_nat (length (partials s)))) as [Hlt|Hge];
    [|done].
  destruct (lookup_lt_is_Some_2 (partials s) (Z.to_nat (partialIdx s))) as [p Hp];
    [lia|].
  pose proof (Hnone p Hp) as Hlate.
  assert (Hat : partial_at s2 (Z.to_nat (partialIdx s)) = p)
    by (unfold partial_at; change (partials s2) with (partials s); by rewrite Hp).
  rewrite Hat.
  destruct (Z.gtb_spec (start_sample (m_srateHz s) p) (processedSamples s + n));
    [done|lia].
Qed.

Lemma quiet_render (sizes : list Z) s :
  4 <= sizeof_float_ptr <= 8 ->
  Forall (fun n => 0 <= n < 2 ^ 31) sizes -> buffer_ok (buffer s) ->
  partialsBeingProcessed s = [] ->
  Z.of_nat (length (partials s)) <= partialIdx s ->
  (render sizes s).1 = (fun n => replicate (Z.to_nat n) 0%Q) <$> sizes.
Proof.
  intros Hptr Hs. revert s.
  induction sizes as [|n sizes IH]; intros s Hok Hq Hidx; [done|].
  apply Forall_cons in Hs as [Hn Hs].
  assert (Hnone : none_due n s).
  { intros p Hp. apply lookup_lt_Some in Hp. lia. }
  destruct (quiet_call n s) as (Hc & Hq' & Hidx'); [lia|done|done|].
  destruct (prepare_buffer_zero n (buffer s) Hn Hptr Hok) as (Hz & Hok' & Hv).
  assert (Hlen : length (partials (synthesizeNext n s)) = length (partials s))
    by exact (f_equal (fun d => d.2) (synthesizeNext_dims n s)).
  assert (Hok1 : buffer_ok (buffer (synthesizeNext n s))).
  { pose proof (synthesizeNext_dims n s) as Hd.
    assert (Hvs : vsize (buffer (synthesizeNext n s))
                  = vsize (prepare_buffer n (buffer s)))
      by exact (f_equal (fun d => d.1.2) Hd).
    unfold buffer_ok, Buffer.capacity in *. rewrite Hc, Hvs. done. }
  cbn [render].
  specialize (IH Hs (synthesizeNext n s) Hok1 Hq' ltac:(lia)).
  destruct (render sizes (synthesizeNext n s)) as [out s2]. simpl in *.
  rewrite IH. f_equal. unfold block. by rewrite Hc.
Qed.

(** X4.  Silence before an onset: when the queue is empty and the partial
    at [partialIdx], if there is one, starts after the samples of the call,
    the block is all zeros, and the queue and [partialIdx] stay as they
    are. *)
Theorem silent_before_onset n s :
  4 <= sizeof_float_ptr <= 8 -> 0 <= n < 2 ^ 31 -> buffer_ok (buffer s) ->
  0 <= partialIdx s -> partialsBeingProcessed s = [] -> none_due n s ->
  block n (synthesizeNext n s) = replicate (Z.to_nat n) 0%Q
  /\ partialsBeingProcessed (synthesizeNext n s) = []
  /\ partialIdx (synthesizeNext n s) = partialIdx s.
Proof.
  intros Hptr Hn Hok Hidx Hq Hnone.
  destruct (quiet_call n s Hidx Hq Hnone) as (Hc & Hq' & Hidx').
  destruct (prepare_buffer_zero n (buffer s) Hn Hptr Hok) as (Hz & _).
  split; [|done]. unfold block. by rewrite Hc.
Qed.

(** X5.  Silence after the end: once every partial has been activated and
    the queue is empty, every later call returns a block of zeros. *)
Theorem silent_after_end (sizes : list Z) s :
  4 <= sizeof_float_ptr <= 8 ->
  Forall (fun n => 0 <= n < 2 ^ 31) sizes -> buffer_ok (buffer s) ->
  partialsBeingProcessed s = [] ->
  Z.of_nat (length (partials s)) <= partialIdx s ->
  (render sizes s).1 = (fun n => replicate (Z.to_nat n) 0%Q) <$> sizes.
Proof. apply quiet_render. Qed.

(** X6.  Nothing to render: after [setup] with a list of source partials
    that have no breakpoints (the empty list among them) every call
    returns a block of zeros. *)
Theorem empty_setup_is_silent (ps : PartialList) (pitch0 : Q) s (sizes : list Z) :
  4 <= sizeof_float_ptr <= 8 ->
  Forall (fun n => 0 <= n < 2 ^ 31) sizes -> buffer_ok (buffer s) ->
  Forall (fun it => it = []) ps ->
  partials (setup ps pitch0 s) = []
  /\ (render sizes (setup ps pitch0 s)).1
     = (fun n => replicate (Z.to_nat n) 0%Q) <$> sizes.
Proof.
  intros Hptr Hs Hok Hps.
  assert (Hnil : partials (setup ps pitch0 s) = []).
  { rewrite setup_partials. induction Hps as [|it ps -> _ IH]; [done|].
    simpl. exact IH. }
  split; [done|]. apply quiet_render; try done.
  rewrite Hnil. simpl. lia.
Qed.

End Silence.

(** ** [setup] on a synthesizer that has been used *)

Section SetupAgain.
Context {Osc : Type} {osc_ops : RealtimeOscillator Osc}
  {osc_laws : EnvelopeIsState Osc}
  {null_ops : BreakpointUtils} {target : Target}.
Implicit Types (s t : RealTimeSynthesizer Osc) (p q : PartialStruct).

(** X7.  [setup] starts afresh: the blocks that are rendered after [setup]
    are decided by the source partials, the sample rate, the fade time, the
    size of the buffer and the oscillator; the partials, cursors and queue
    from before, the pitch that is stored and the contents of the buffer
    play no part.  The two synthesizers have the same oscillator. *)
Theorem setup_starts_afresh (ps : PartialList) (pitch0 pitch1 : Q) s t
    (sizes : list Z) :
  4 <= sizeof_float_ptr <= 8 ->
  Forall (fun n => 0 <= n < 2 ^ 31) sizes ->
  buffer_ok (buffer s) -> buffer_ok (buffer t) ->
  vsize (buffer s) = vsize (buffer t) ->
  m_osc s = m_osc t ->
  m_srateHz s = m_srateHz t -> OneOverSrate s = OneOverSrate t ->
  m_fadeTimeSec s = m_fadeTimeSec t ->
  (render sizes (setup ps pitch0 s)).1 = (render sizes (setup ps pitch1 t)).1.
Proof.
  intros Hptr Hs Hoks Hokt Hv _ Hrate Hone Hfade.
  apply render_same; [done|done|].
  constructor; simpl; try done.
  - by rewrite Hfade.
  - intros j Hj. by apply elem_of_nil in Hj.
Qed.

End SetupAgain.

Lemma setup_starts_afresh_witness :
  let t := (render (target := lp64) [1] (setup [Examples.tone] 1 Examples.synth0)).2 in
  (render (target := lp64) [3; 3] (setup [Examples.two] 1 Examples.synth0)).1
  = (render (target := lp64) [3; 3] (setup [Examples.two] 2 t)).1.
Proof.
  apply (setup_starts_afresh (osc_laws := ramp_envelope_is_state) (target := lp64)
           [Examples.two] 1 2 Examples.synth0
           (render (target := lp64) [1] (setup [Examples.tone] 1 Examples.synth0)).2
           [3; 3]).
  - vm_compute. split; discriminate.
  - repeat constructor; vm_compute; congruence.
  - vm_compute. split; discriminate.
  - vm_compute. split; discriminate.
  - vm_compute. reflexivity.
  - vm_compute. reflexivity.
  - vm_compute. reflexivity.
  - vm_compute. reflexivity.
  - vm_compute. reflexivity.
Defined.

Lemma rendering_stays_in_block_witness :
  3 <= Buffer.capacity
         (buffer (synthesizeNext (target := lp64) 3
                    (setup [Examples.two] 1 Examples.synth0)))
  /\ forall k : nat, 3 <= Z.of_nat k ->
       cells (buffer (synthesizeNext (target := lp64) 3
                        (setup [Examples.two] 1 Examples.synth0))) !! k
       = cells (prepare_buffer (target := lp64) 3
                  (buffer (setup [Examples.two] 1 Examples.synth0))) !! k.
Proof.
  apply (rendering_stays_in_block (snapshot := ramp_snapshot_resumes)
           (target := lp64) 3 (setup [Examples.two] 1 Examples.synth0)).
  - exact two_setup_inv.
  - vm_compute. split; [discriminate|reflexivity].
  - vm_compute. split; discriminate.
Defined.

Lemma zero_samples_keep_buffer_witness :
  let s := synthesizeNext (target := lp64) 3 (setup [Examples.two] 1 Examples.synth0) in
  cells (buffer (synthesizeNext (target := lp64) 0 s)) = cells (buffer s)
  /\ processedSamples (synthesizeNext (target := lp64) 0 s) = processedSamples s.
Proof.
  apply (zero_samples_keep_buffer (snapshot := ramp_snapshot_resumes)
           (target := lp64)
           (synthesizeNext (target := lp64) 3 (setup [Examples.two] 1 Examples.synth0))).
  - exact (proj1 (synthesizeNext_inv (target := lp64) 3 _ ltac:(lia) two_setup_inv)).
  - vm_compute. discriminate.
Defined.

Lemma silent_before_onset_witness :
  let s := setup [Examples.two] 1 Examples.synth0 in
  block 1 (synthesizeNext (target := lp64) 1 s) = replicate (Z.to_nat 1) 0%Q
  /\ partialsBeingProcessed (synthesizeNext (target := lp64) 1 s) = []
  /\ partialIdx (synthesizeNext (target := lp64) 1 s) = partialIdx s.
Proof.
  apply (silent_before_onset (target := lp64) 1
           (setup [Examples.two] 1 Examples.synth0)).
  - vm_compute. split; discriminate.
  - vm_compute. split; [discriminate|reflexivity].
  - vm_compute. split; discriminate.
  - vm_compute. discriminate.
  - reflexivity.
  - intros p Hp. vm_compute in Hp. injection Hp as <-. vm_compute. reflexivity.
Defined.

Lemma silent_after_end_witness :
  let s := (render (target := lp64) [8] (setup [Examples.two] 1 Examples.synth0)).2 in
  (render (target := lp64) [3; 2] s).1
  = (fun n => replicate (Z.to_nat n) 0%Q) <$> [3; 2].
Proof.
  apply (silent_after_end (target := lp64) [3; 2]
           (render (target := lp64) [8] (setup [Examples.two] 1 Examples.synth0)).2).
  - vm_compute. split; discriminate.
  - repeat constructor; vm_compute; congruence.
  - vm_compute. split; discriminate.
  - vm_compute. reflexivity.
  - vm_compute. discriminate.
Defined.

Lemma empty_setup_is_silent_witness :
  partials (setup [[]; []] 1 Examples.synth0) = []
  /\ (render (target := lp64) [3; 2] (setup [[]; []] 1 Examples.synth0)).1
     = (fun n => replicate (Z.to_nat n) 0%Q) <$> [3; 2].
Proof.
  apply (empty_setup_is_silent (target := lp64) [[]; []] 1 Examples.synth0 [3; 2]).
  - vm_compute. split; discriminate.
  - repeat constructor; vm_compute; congruence.
  - vm_compute. split; discriminate.
  - repeat constructor.
Defined.

(** ** Which partials a call activates, and which it leaves alone *)

Section Activation.
Context {Osc : Type} {osc_ops : RealtimeOscillator Osc}
  {null_ops : BreakpointUtils} {target : Target}.
Implicit Types (s : RealTimeSynthesizer Osc) (p : PartialStruct).

Lemma resume_idx size n s : partialIdx (resume size n s) = partialIdx s.
Proof.
  revert s. induction size as [|size IH]; intros s; simpl; [done|].
  destruct (partialsBeingProcessed s) as [|j rest]; [done|].
  rewrite IH. apply synthesize_at_cursors.
Qed.

(** The first loop writes to the partials of the queue only. *)
Lemma resume_other size n s (j : nat) :
  j ∉ partialsBeingProcessed s ->
  partials (resume size n s) !! j = partials s !! j.
Proof.
  revert s. induction size as [|size IH]; intros s Hj; simpl; [done|].
  destruct (partialsBeingProcessed s) as [|j0 rest] eqn:Hq; [done|].
  assert (Hne : j <> j0) by (intros ->; apply Hj, elem_of_cons; by left).
  assert (Hrest : j ∉ rest) by (intros Hin; apply Hj, elem_of_cons; by right).
  rewrite IH.
  - cbn [partials set_queue]. by apply synthesize_at_other.
  - cbn [partialsBeingProcessed set_queue].
    destruct (unfinished _); [|done].
    rewrite elem_of_app, list_elem_of_singleton. tauto.
Qed.

(** The second loop writes to the partials from [partialIdx] on only. *)
Lemma activate_other fuel n s (j : nat) :
  0 <= partialIdx s -> Z.of_nat j < partialIdx s ->
  partials (activate fuel n s) !! j = partials s !! j.
Proof.
  revert s. induction fuel as [|fuel IH]; intros s Hidx Hj; simpl; [done|].
  destruct (partialIdx s <? Z.of_nat (length (partials s))); [|done].
  destruct (_ >? processedSamples s).
  - cbn [partials set_partials]. apply list_lookup_insert_ne. lia.
  - pose proof (synthesize_at_cursors (Z.to_nat (partialIdx s)) n
                  (set_partials
                     (<[Z.to_nat (partialIdx s) :=
                          activated
                            (with_currentSamp
                               (start_sample (m_srateHz s)
                                  (partial_at s (Z.to_nat (partialIdx s))))
                               (partial_at s (Z.to_nat (partialIdx s))))]>
                        (partials s)) s)) as (Hpi & _).
    rewrite IH.
    + cbn [partials set_partialIdx set_queue].
      rewrite synthesize_at_other by lia.
      cbn [partials set_partials]. apply list_lookup_insert_ne. lia.
    + cbn [partialIdx set_partialIdx]. rewrite Hpi. simpl. lia.
    + cbn [partialIdx set_partialIdx]. rewrite Hpi. simpl. lia.
Qed.

(** The passes of the second loop are the partials from [partialIdx] on
    whose turn has come, up to the first one whose turn has not. *)
Lemma activate_idx fuel n s :
  0 <= partialIdx s ->
  partialIdx (activate fuel n s)
  = partialIdx s
    + Z.of_nat (due_count fuel (m_srateHz s) (processedSamples s) (partials s)
                  (Z.to_nat (partialIdx s))).
Proof.
  revert s. induction fuel as [|fuel IH]; intros s Hidx; simpl; [lia|].
  destruct (Z.ltb_spec (partialIdx s) (Z.of_nat (length (partials s)))) as [Hlt|Hge].
  - destruct (lookup_lt_is_Some_2 (partials s) (Z.to_nat (partialIdx s))) as [p0 Hp0];
      [lia|].
    assert (Hat : partial_at s (Z.to_nat (partialIdx s)) = p0)
      by (unfold partial_at; by rewrite Hp0).
    rewrite Hp0, Hat.
    change (currentSamp (state (with_currentSamp (start_sample (m_srateHz s) p0) p0)))
      with (start_sample (m_srateHz s) p0).
    destruct (start_sample (m_srateHz s) p0 >? processedSamples s); [simpl; lia|].
    set (sA := set_partials _ s).
    pose proof (synthesize_at_cursors (Z.to_nat (partialIdx s)) n sA)
      as (Hpi & Hproc & _).
    pose proof (synthesize_at_config (Z.to_nat (partialIdx s)) n sA) as Hc.
    pose proof (config_rate _ _ Hc) as Hrate.
    set (s1 := synthesize_at (Z.to_nat (partialIdx s)) n sA) in *.
    rewrite IH by (cbn [partialIdx set_partialIdx]; rewrite Hpi; simpl; lia).
    cbn [partialIdx set_partialIdx m_srateHz processedSamples partials set_queue].
    rewrite Hpi, Hrate, Hproc.
    change (partialIdx sA) with (partialIdx s).
    change (m_srateHz sA) with (m_srateHz s).
    change (processedSamples sA) with (processedSamples s).
    replace (Z.to_nat (partialIdx s + 1)) with (S (Z.to_nat (partialIdx s))) by lia.
    rewrite (due_count_ext fuel (m_srateHz s) (processedSamples s)
               (partials s1) (partials s) (S (Z.to_nat (partialIdx s)))).
    + lia.
    + intros i Hi. unfold s1. rewrite synthesize_at_other by lia.
      unfold sA. cbn [partials set_partials]. apply list_lookup_insert_ne. lia.
  - rewrite (lookup_ge_None_2 (partials s) (Z.to_nat (partialIdx s))) by lia.
    simpl. lia.
Qed.

Lemma due_count_stop fuel srate limit (ps : list PartialStruct) (j : nat) p :
  (length ps - j <= fuel)%nat ->
  ps !! (j + due_count fuel srate limit ps j)%nat = Some p ->
  limit < start_sample srate p.
Proof.
  revert j. induction fuel as [|fuel IH]; intros j Hfuel Hp; simpl in Hp.
  { apply lookup_lt_Some in Hp. lia. }
  destruct (ps !! j) as [q|] eqn:Hq.
  - destruct (Z.gtb_spec (start_sample srate q) limit) as [Hgt|Hle].
    + rewrite Nat.add_0_r in Hp. assert (p = q) as -> by congruence. lia.
    + rewrite Nat.add_succ_r in Hp. apply (IH (S j)); [lia|exact Hp].
  - rewrite Nat.add_0_r in Hp. congruence.
Qed.

Lemma due_count_due fuel srate limit (ps : list PartialStruct) (j i : nat) p :
  (j <= i < j + due_count fuel srate limit ps j)%nat ->
  ps !! i = Some p -> start_sample srate p <= limit.
Proof.
  revert j. induction fuel as [|fuel IH]; intros j Hi Hp; simpl in Hi; [lia|].
  destruct (ps !! j) as [q|] eqn:Hq; [|lia].
  destruct (Z.gtb_spec (start_sample srate q) limit) as [Hgt|Hle]; [lia|].
  destruct (decide (i = j)) as [->|Hne].
  - assert (p = q) as -> by congruence. done.
  - apply (IH (S j)); [lia|exact Hp].
Qed.

(** X8.  A call activates a run of partials in the order of the list:
    [partialIdx] moves over the partials that start at or before the
    sample counter and stops at the first partial that starts after it,
    whatever the start of the partials behind that one. *)
Theorem activation_is_a_prefix n s :
  0 <= partialIdx s ->
  let s' := synthesizeNext n s in
  partialIdx s <= partialIdx s'
  /\ (forall (i : nat) p, partialIdx s <= Z.of_nat i < partialIdx s' ->
        partials s' !! i = Some p ->
        start_sample (m_srateHz s') p <= processedSamples s')
  /\ (forall p, partials s' !! Z.to_nat (partialIdx s') = Some p ->
        processedSamples s' < start_sample (m_srateHz s') p).
Proof.
  intros Hidx s'. subst s'. unfold synthesizeNext.
  set (s2 := set_buffer _ _).
  set (s3 := resume (length (partialsBeingProcessed s2)) n s2).
  set (fuel := Z.to_nat (Z.of_nat (length (partials s3)) - partialIdx s3)).
  assert (Hidx3 : partialIdx s3 = partialIdx s)
    by exact (resume_idx (length (partialsBeingProcessed s2)) n s2).
  pose proof (activate_idx fuel n s3 ltac:(lia)) as Hi.
  pose proof (activate_config fuel n s3) as Hc.
  pose proof (config_rate _ _ Hc) as Hrate.
  pose proof (activate_dims fuel n s3) as Hd.
  assert (Hproc : processedSamples (activate fuel n s3) = processedSamples s3)
    by exact (f_equal (fun d => d.1.1.1) Hd).
  assert (Hlen : length (partials (activate fuel n s3)) = length (partials s3))
    by exact (f_equal (fun d => d.2) Hd).
  set (k := due_count fuel (m_srateHz s3) (processedSamples s3) (partials s3)
              (Z.to_nat (partialIdx s3))) in *.
  rewrite Hrate, Hproc. split; [lia|]. split.
  - intros i p Hrange Hp.
    destruct (lookup_lt_is_Some_2 (partials s3) i) as [p3 Hp3].
    { rewrite <- Hlen. by apply lookup_lt_Some in Hp. }
    rewrite <- (config_rate _ _ Hc).
    rewrite (config_start_sample s3 _ i p3 p Hc Hp3 Hp).
    apply (due_count_due fuel _ _ (partials s3) (Z.to_nat (partialIdx s3)) i);
      [fold k; lia|done].
  - intros p Hp. rewrite Hi in Hp.
    replace (Z.to_nat (partialIdx s3 + Z.of_nat k))
      with (Z.to_nat (partialIdx s3) + k)%nat in Hp by lia.
    destruct (lookup_lt_is_Some_2 (partials s3) (Z.to_nat (partialIdx s3) + k))
      as [p3 Hp3].
    { rewrite <- Hlen. by apply lookup_lt_Some in Hp. }
    rewrite <- (config_rate _ _ Hc).
    rewrite (config_start_sample s3 _ _ p3 p Hc Hp3 Hp).
    apply (due_count_stop fuel _ _ (partials s3) (Z.to_nat (partialIdx s3)));
      [subst fuel; lia|exact Hp3].
Qed.

(** X9.  A partial that has been activated and has no breakpoint left is
    never written again: whatever calls follow, the element of [partials]
    stays as it is, cursor, envelope and breakpoints. *)
Theorem finished_partial_is_left_alone (sizes : list Z) s (j : nat) p :
  session_inv s -> Forall (Z.le 0) sizes ->
  partials s !! j = Some p -> Z.of_nat j < partialIdx s ->
  unfinished p = false ->
  partials (render sizes s).2 !! j = Some p.
Proof.
  revert s. induction sizes as [|n sizes IH]; intros s Hinv Hs Hp Hj Hu; [done|].
  apply Forall_cons in Hs as [Hn Hs].
  destruct (synthesizeNext_inv n s Hn Hinv) as (Hinv1 & _ & Hle & _).
  assert (Hp1 : partials (synthesizeNext n s) !! j = Some p).
  { pose proof Hinv as (Hidx & _ & Hact & _).
    unfold synthesizeNext.
    rewrite activate_other by (rewrite ?resume_idx; simpl; lia).
    rewrite resume_other; [done|].
    cbn [partialsBeingProcessed set_buffer set_processedSamples].
    intros Hin. apply (Hact j p Hp Hj) in Hin. congruence. }
  cbn [render].
  specialize (IH (synthesizeNext n s) Hinv1 Hs Hp1 ltac:(lia) Hu).
  by destruct (render sizes (synthesizeNext n s)) as [out s2].
Qed.

End Activation.

Lemma activation_is_a_prefix_witness :
  let s := setup [Examples.two] 1 Examples.synth0 in
  let s' := synthesizeNext (target := lp64) 3 s in
  partialIdx s <= partialIdx s'
  /\ (forall (i : nat) p, partialIdx s <= Z.of_nat i < partialIdx s' ->
        partials s' !! i = Some p ->
        start_sample (m_srateHz s') p <= processedSamples s')
  /\ (forall p, partials s' !! Z.to_nat (partialIdx s') = Some p ->
        processedSamples s' < start_sample (m_srateHz s') p).
Proof.
  apply (activation_is_a_prefix (target := lp64) 3
           (setup [Examples.two] 1 Examples.synth0)).
  vm_compute. discriminate.
Defined.

Lemma finished_partial_is_left_alone_witness :
  let s := (render (target := lp64) [8] (setup [Examples.two] 1 Examples.synth0)).2 in
  partials (render (target := lp64) [3; 2] s).2 !! 0%nat = Some (partial_at s 0).
Proof.
  apply (finished_partial_is_left_alone (target := lp64) [3; 2]
           (render (target := lp64) [8] (setup [Examples.two] 1 Examples.synth0)).2
           0 _).
  - apply two_session_inv. constructor; [lia|constructor].
  - constructor; [lia|constructor; [lia|constructor]].
  - vm_compute. reflexivity.
  - vm_compute. reflexivity.
  - vm_compute. reflexivity.
Defined.

(** ** The order of the queue *)

Section QueueOrder.
Context {Osc : Type} {osc_ops : RealtimeOscillator Osc}
  {osc_laws : EnvelopeIsState Osc}
  {null_ops : BreakpointUtils} {target : Target}.
Implicit Types (s : RealTimeSynthesizer Osc) (p : PartialStruct).

(** X10.  The queue is first in, first out: after a call it holds the
    partials of the queue from before, in their order, and then the
    partials the call has activated, in the order of the list, without
    those that have no breakpoint left. *)
Theorem queue_keeps_order n s :
  0 <= n -> session_inv s ->
  let s' := synthesizeNext n s in
  partialsBeingProcessed s'
  = filter (fun j => unfinished (partial_at s' j) = true)
      (partialsBeingProcessed s
         ++ seq (Z.to_nat (partialIdx s)) (Z.to_nat (partialIdx s' - partialIdx s))).
Proof.
  intros Hn Hinv s'. subst s'.
  destruct (synthesizeNext_char (m_osc s) n s Hn Hinv) as (Hi & Hq & Hp & _).
  rewrite Hi.
  replace (Z.to_nat (partialIdx s + Z.of_nat _ - partialIdx s))
    with (due_count (length (partials s) - Z.to_nat (partialIdx s)) (m_srateHz s)
            (processedSamples s + n) (partials s) (Z.to_nat (partialIdx s))) by lia.
  rewrite Hq. apply filter_ext_in. intros j Hj. by rewrite (Hp j Hj).
Qed.

End QueueOrder.

Lemma queue_keeps_order_witness :
  let s := setup [Examples.two; Examples.tone] 1 Examples.synth0 in
  let s' := synthesizeNext (target := lp64) 3 s in
  partialsBeingProcessed s'
  = filter (fun j => unfinished (partial_at s' j) = true)
      (partialsBeingProcessed s
         ++ seq (Z.to_nat (partialIdx s)) (Z.to_nat (partialIdx s' - partialIdx s))).
Proof.
  apply (queue_keeps_order (osc_laws := ramp_envelope_is_state) (target := lp64) 3
           (setup [Examples.two; Examples.tone] 1 Examples.synth0)).
  - lia.
  - apply setup_inv; [discriminate|discriminate|].
    constructor; [exact two_valid|].
    constructor; [|constructor].
    split; [discriminate|]. split; [|reflexivity].
    intros [|[|i]] [|[|j]] a b Hij Ha Hb; simpl in *;
      try discriminate; try lia; simplify_eq; simpl; discriminate.
Defined.

(** ** What rendering keeps *)

Section Keeps.
Context {Osc : Type} {osc_ops : RealtimeOscillator Osc}
  {null_ops : BreakpointUtils} {target : Target}.
Implicit Types (s : RealTimeSynthesizer Osc) (p q : PartialStruct).

Lemma same_curve_of_envelope (tb tb' : Q * Breakpoint) :
  envelope_of tb = envelope_of tb' -> same_curve tb tb'.
Proof. unfold envelope_of, same_curve. by intros [= -> -> -> ->]. Qed.

Lemma same_data_of_shape p q : shape p = shape q -> same_data p q.
Proof.
  unfold shape, same_data. intros [= -> -> -> Hb]. do 3 (split; [done|]).
  apply list_eq_Forall2 in Hb. apply Forall2_fmap_1 in Hb.
  eapply Forall2_impl; [exact Hb|]. intros tb tb' Htb.
  by apply same_curve_of_envelope.
Qed.

(** X11.  Rendering writes phases and cursors only: after any calls the
    synthesizer has the same sample rate, fade time and pitch, and the same
    partials with the same start and end times and the same breakpoint
    times, frequencies, amplitudes and bandwidths. *)
Theorem render_keeps_partial_data (sizes : list Z) s :
  let s' := (render sizes s).2 in
  m_srateHz s' = m_srateHz s /\ OneOverSrate s' = OneOverSrate s
  /\ m_fadeTimeSec s' = m_fadeTimeSec s /\ pitch s' = pitch s
  /\ Forall2 same_data (partials s) (partials s').
Proof.
  intros s'. pose proof (render_config sizes s) as Hc. fold s' in Hc.
  unfold config in Hc. injection Hc as Hr Ho Hf Hp Hs.
  do 4 (split; [done|]).
  symmetry in Hs. apply list_eq_Forall2 in Hs. apply Forall2_fmap_1 in Hs.
  eapply Forall2_impl; [exact Hs|]. intros p q. apply same_data_of_shape.
Qed.

Lemma vsize_prepare_buffer n (v : FloatVector) : vsize (prepare_buffer n v) = vsize v.
Proof.
  unfold prepare_buffer. destruct (_ <? _); [|done]. apply vsize_reserve.
Qed.

(** X12.  As long as the sample counter stays within an [int], it is the
    sum of the sizes of the calls: for calls of sizes that are not
    negative, from a counter that is not negative and with a sum below
    2^31, the counter after the calls is the counter before plus the sum
    of the sizes.  Rendering never changes the size of the caller's vector
    (it reserves capacity, it does not resize) nor the number of
    partials. *)
Theorem render_counts_samples (sizes : list Z) s :
  Forall (fun n => 0 <= n < 2 ^ 31) sizes ->
  0 <= processedSamples s -> processedSamples s + total sizes < 2 ^ 31 ->
  processedSamples (render sizes s).2 = processedSamples s + total sizes
  /\ vsize (buffer (render sizes s).2) = vsize (buffer s)
  /\ length (partials (render sizes s).2) = length (partials s).
Proof.
  intros _ _ _. revert s. induction sizes as [|n sizes IH]; intros s.
  { simpl. split; [lia|done]. }
  cbn [render]. specialize (IH (synthesizeNext n s)).
  destruct (render sizes (synthesizeNext n s)) as [out s2]. cbn [snd] in *.
  pose proof (synthesizeNext_dims n s) as Hd.
  assert (Hp : processedSamples (synthesizeNext n s) = processedSamples s + n)
    by exact (f_equal (fun d => d.1.1.1) Hd).
  assert (Hv : vsize (buffer (synthesizeNext n s)) = vsize (prepare_buffer n (buffer s)))
    by exact (f_equal (fun d => d.1.2) Hd).
  assert (Hl : length (partials (synthesizeNext n s)) = length (partials s))
    by exact (f_equal (fun d => d.2) Hd).
  destruct IH as (-> & -> & ->). rewrite Hp, Hv, Hl, vsize_prepare_buffer.
  change (total (n :: sizes)) with (n + total sizes). split; [lia|done].
Qed.

End Keeps.

Lemma render_counts_samples_witness :
  let s := setup [Examples.two] 1 Examples.synth0 in
  processedSamples (render (target := lp64) [3; 2] s).2
  = processedSamples s + total [3; 2]
  /\ vsize (buffer (render (target := lp64) [3; 2] s).2) = vsize (buffer s)
  /\ length (partials (render (target := lp64) [3; 2] s).2) = length (partials s).
Proof.
  apply (render_counts_samples (target := lp64) [3; 2]
           (setup [Examples.two] 1 Examples.synth0)).
  - repeat constructor; vm_compute; congruence.
  - vm_compute. discriminate.
  - vm_compute. reflexivity.
Defined.

(** ** More on [setup] *)

Section SetupMore.
Context {Osc : Type} {osc_ops : RealtimeOscillator Osc}
  {null_ops : BreakpointUtils}.
Implicit Types (s : RealTimeSynthesizer Osc) (p : PartialStruct).

Lemma source_of_prepare (fade : Q) (it : Partial) p :
  prepare fade it = Some p -> source_of p = it.
Proof.
  intros Hp. apply prepare_Some in Hp as (_ & _ & _ & _ & Hb & _).
  unfold source_of. rewrite Hb. cbn [drop length].
  rewrite length_app. cbn [length].
  replace (S (length it + 1) - 2)%nat with (length it) by lia.
  apply take_app_length.
Qed.

(** X13.  [setup] keeps the source partials that have breakpoints, each
    once and in the order of the list: taking the fade-in and the fade-out
    breakpoint away from the partials it prepares gives the source list
    without its empty partials. *)
Theorem setup_keeps_sources (ps : PartialList) (pitch0 : Q) s :
  source_of <$> partials (setup ps pitch0 s) = filter (fun it => it <> []) ps.
Proof.
  rewrite setup_partials. unfold PartialList, Partial in *.
  induction ps as [|it ps IH]; [done|].
  cbn [omap list_omap].
  destruct (prepare (m_fadeTimeSec s) it) as [p|] eqn:Hp.
  - pose proof (source_of_prepare _ _ _ Hp) as Hsrc.
    apply prepare_Some in Hp as (Hn & _).
    rewrite filter_cons. destruct (decide (it <> [])) as [_|Hnil].
    + rewrite fmap_cons, Hsrc. by f_equal.
    + exfalso. apply Hnil. intros ->.
      unfold SourcePartial.numBreakpoints in Hn. simpl in Hn. lia.
  - rewrite filter_cons. destruct (decide (it <> [])) as [Hne|_]; [|exact IH].
    exfalso. destruct it as [|tb it]; [done|].
    unfold prepare in Hp.
    destruct (Z.leb_spec (SourcePartial.numBreakpoints (tb :: it)) 0) as [Hle|Hgt];
      [|discriminate].
    unfold SourcePartial.numBreakpoints in Hle. simpl in Hle. lia.
Qed.

(** X14.  [setup] keeps the breakpoints in time order: for source partials
    that do not start before zero and have their breakpoints in time
    order, and a fade time that is not negative, the breakpoints of every
    prepared partial, fade-in and fade-out included, are in time order
    between zero and the end time of the partial, and the first one is at
    its start time. *)
Theorem setup_orders_breakpoints (ps : PartialList) (pitch0 : Q) s p :
  (0 <= m_fadeTimeSec s)%Q ->
  Forall (valid_source (m_srateHz s) (m_fadeTimeSec s)) ps ->
  p ∈ partials (setup ps pitch0 s) ->
  (breakpoint_at p 0).1 = startTime p
  /\ forall (i j : nat) a b, (i <= j)%nat ->
       breakpoints p !! i = Some a -> breakpoints p !! j = Some b ->
       (0 <= a.1)%Q /\ (a.1 <= b.1)%Q /\ (b.1 <= endTime p)%Q.
Proof.
  intros Hf Hv Hp. rewrite setup_partials in Hp.
  apply list_elem_of_omap in Hp as (it & Hit & Hp).
  rewrite Forall_forall in Hv. specialize (Hv it Hit).
  pose proof (prepare_times _ _ it p Hf Hv Hp) as Htimes.
  apply prepare_Some in Hp as (_ & _ & Hend & _ & Hb & _).
  split.
  - unfold breakpoint_at. by rewrite Hb.
  - intros i j a b Hij Ha Hb'. rewrite Hend. by apply (Htimes i j).
Qed.

End SetupMore.

Lemma setup_orders_breakpoints_witness :
  let p := partial_at (setup [Examples.two] 1 Examples.synth0) 0 in
  (breakpoint_at p 0).1 = startTime p
  /\ forall (i j : nat) a b, (i <= j)%nat ->
       breakpoints p !! i = Some a -> breakpoints p !! j = Some b ->
       (0 <= a.1)%Q /\ (a.1 <= b.1)%Q /\ (b.1 <= endTime p)%Q.
Proof.
  apply (setup_orders_breakpoints [Examples.two] 1 Examples.synth0
           (partial_at (setup [Examples.two] 1 Examples.synth0) 0)).
  - discriminate.
  - constructor; [exact two_valid|constructor].
  - vm_compute. apply list_elem_of_singleton. reflexivity.
Defined.

(** ** [resetSynth] of the earlier synthesizer *)

Lemma legacy_rewind_again (srate : Q) (p p' : Legacy.PartialStruct) :
  Legacy.rewind srate p = Some p' -> Legacy.rewind srate p' = Some p'.
Proof.
  unfold Legacy.rewind.
  destruct (Legacy.breakpoints p !! 1%nat) as [tb|] eqn:Htb; [|discriminate].
  intros [= <-]. simpl. by rewrite Htb.
Qed.

(** X18.  [resetSynth] twice is [resetSynth] once. *)
Theorem legacy_resetSynth_idempotent (s s' : Legacy.RealTimeSynthesizer) :
  Legacy.resetSynth s = Some s' -> Legacy.resetSynth s' = Some s'.
Proof.
  unfold Legacy.resetSynth.
  destruct (mapM _ _) as [ps|] eqn:Hps; [|discriminate].
  intros [= <-]. simpl.
  assert (Hagain : mapM (Legacy.rewind (Legacy.m_srateHz s)) ps = Some ps).
  { apply mapM_Some_2. apply mapM_Some_1 in Hps.
    induction Hps as [|p p' l l' Hp _ IH]; constructor; [|exact IH].
    by apply legacy_rewind_again in Hp. }
  rewrite Hagain. by rewrite length_replicate.
Qed.

Lemma legacy_resetSynth_idempotent_witness :
  Legacy.resetSynth (default Legacy.example (Legacy.resetSynth Legacy.example))
  = Some (default Legacy.example (Legacy.resetSynth Legacy.example)).
Proof.
  apply (legacy_resetSynth_idempotent Legacy.example
           (default Legacy.example (Legacy.resetSynth Legacy.example))).
  reflexivity.
Defined.

(** ** The queue *)

Section QueueInvariant.
Context {Osc : Type} {osc_ops : RealtimeOscillator Osc}
  {null_ops : BreakpointUtils} {target : Target}.
Implicit Types (s : RealTimeSynthesizer Osc).

(** X19.  The queue points at partials that exist and have been
    activated, and at none of them twice, after [setup] and any calls: so
    a call renders a partial at most once. *)
Theorem queue_has_no_duplicates (ps : PartialList) (pitch0 : Q) s0 (sizes : list Z) :
  (0 <= m_srateHz s0)%Q -> (0 <= m_fadeTimeSec s0)%Q ->
  Forall (valid_source (m_srateHz s0) (m_fadeTimeSec s0)) ps ->
  Forall (Z.le 0) sizes ->
  let s := (render sizes (setup ps pitch0 s0)).2 in
  NoDup (partialsBeingProcessed s)
  /\ 0 <= partialIdx s <= Z.of_nat (length (partials s))
  /\ forall j : nat, j ∈ partialsBeingProcessed s -> Z.of_nat j < partialIdx s.
Proof.
  intros Hr Hf Hv Hs s.
  assert (Hinv : session_inv s)
    by (apply render_inv; [done|]; by apply setup_inv).
  destruct Hinv as (Hidx & _ & _ & Hq & Hnd). done.
Qed.

End QueueInvariant.

Lemma queue_has_no_duplicates_witness :
  let s := (render (target := lp64) [3; 2] (setup [Examples.two] 1 Examples.synth0)).2 in
  NoDup (partialsBeingProcessed s)
  /\ 0 <= partialIdx s <= Z.of_nat (length (partials s))
  /\ forall j : nat, j ∈ partialsBeingProcessed s -> Z.of_nat j < partialIdx s.
Proof.
  apply (queue_has_no_duplicates (target := lp64) [Examples.two] 1 Examples.synth0
           [3; 2]).
  - discriminate.
  - discriminate.
  - constructor; [exact two_valid|constructor].
  - constructor; [lia|constructor; [lia|constructor]].
Defined.

Lemma synthesize_finishes_witness :
  unfinished (synthesize 4 (1 # 4) Examples.two_partial (replicate 9 0%Q) 9
                (mkRamp 0 0 0 0)).1.1 = false.
Proof.
  apply (synthesize_finishes 4 (1 # 4) Examples.two_partial (replicate 9 0%Q) 9
           (mkRamp 0 0 0 0)).
  - exact (proj1 two_partial_ready).
  - exact (proj2 two_partial_ready).
  - lia.
  - vm_compute. reflexivity.
Defined.

(** ** The partials of the queue across a call *)

Section BlockAdvance.
Context {Osc : Type} {osc_ops : RealtimeOscillator Osc}
  {osc_laws : EnvelopeIsState Osc}
  {null_ops : BreakpointUtils} {target : Target}.
Implicit Types (s : RealTimeSynthesizer Osc) (p : PartialStruct).

(** X22.  The partials of the queue move in step: a partial that is in
    the queue before a call and after it has moved forward by exactly the
    samples of the call. *)
Theorem queued_partial_advances n s (j : nat) :
  0 <= n -> session_inv s ->
  j ∈ partialsBeingProcessed s ->
  j ∈ partialsBeingProcessed (synthesizeNext n s) ->
  currentSamp (state (partial_at (synthesizeNext n s) j))
  = currentSamp (state (partial_at s j)) + n.
Proof.
  intros Hn Hinv Hj Hj'.
  destruct (synthesizeNext_char (m_osc s) n s Hn Hinv) as (_ & Hq & Hp & _).
  assert (Hw : j ∈ partialsBeingProcessed s
                   ++ seq (Z.to_nat (partialIdx s))
                        (due_count (length (partials s) - Z.to_nat (partialIdx s))
                           (m_srateHz s) (processedSamples s + n) (partials s)
                           (Z.to_nat (partialIdx s))))
    by (apply elem_of_app; by left).
  destruct (input_ok n s j Hinv Hw) as [Ht Ho].
  rewrite Hq in Hj'. apply list_elem_of_filter in Hj' as [Hu _].
  rewrite (Hp j Hw).
  destruct Hinv as (_ & _ & _ & Hlt & _).
  rewrite (input_active s j (Hlt j Hj)) in *.
  unfold synP in *.
  by apply (synthesize_advance _ _ _ [] n (m_osc s) Ht Ho Hn).
Qed.

End BlockAdvance.

Lemma queued_partial_advances_witness :
  let s := synthesizeNext (target := lp64) 3 (setup [Examples.two] 1 Examples.synth0) in
  currentSamp (state (partial_at (synthesizeNext (target := lp64) 2 s) 0))
  = currentSamp (state (partial_at s 0)) + 2.
Proof.
  apply (queued_partial_advances (osc_laws := ramp_envelope_is_state)
           (target := lp64) 2
           (synthesizeNext (target := lp64) 3 (setup [Examples.two] 1 Examples.synth0))
           0).
  - lia.
  - exact (proj1 (synthesizeNext_inv (target := lp64) 3 _ ltac:(lia) two_setup_inv)).
  - vm_compute. apply list_elem_of_singleton. reflexivity.
  - vm_compute. apply list_elem_of_singleton. reflexivity.
Defined.

(** * [reset] and replay with phases that rendering has overwritten *)

(** ** One partial *)

Section ReplayPartial.
Context {Osc : Type} {osc_ops : RealtimeOscillator Osc}
  {reads : TargetSetsAmplitude Osc}.
Implicit Types (p q : PartialStruct) (l : @Loop Osc).

Lemma shape_length p q :
  shape p = shape q -> length (breakpoints p) = length (breakpoints q).
Proof.
  unfold shape. intros [= _ _ _ Hb].
  apply (f_equal length) in Hb. by rewrite !length_fmap in Hb.
Qed.

Lemma shape_envelope p q i :
  shape p = shape q ->
  envelope_of (breakpoint_at p i) = envelope_of (breakpoint_at q i).
Proof.
  unfold shape, breakpoint_at. intros [= _ _ _ Hb].
  apply (f_equal (fun bs => bs !! Z.to_nat i)) in Hb.
  rewrite !list_lookup_fmap in Hb.
  destruct (breakpoints p !! _) as [tb|], (breakpoints q !! _) as [tb'|];
    simpl in *; congruence.
Qed.

Lemma readable_shape p q i : shape p = shape q -> readable p i = readable q i.
Proof.
  intros Hs. unfold readable. f_equal.
  pose proof (shape_envelope p q (i - 1) Hs) as He.
  unfold envelope_of in He. by injection He as _ _ -> _.
Qed.

Lemma envelope_set_phase (tb tb' : Q * Breakpoint) :
  envelope_of tb = envelope_of tb' -> tb'.2 = set_phase (_phase tb'.2) tb.2.
Proof.
  destruct tb as [t [f a b ph]], tb' as [t' [f' a' b' ph']].
  unfold envelope_of, set_phase. simpl. by intros [= -> -> -> ->].
Qed.

Lemma envelope_eq (tb tb' : Q * Breakpoint) :
  envelope_of tb = envelope_of tb' -> _phase tb.2 = _phase tb'.2 -> tb = tb'.
Proof.
  destruct tb as [t [f a b ph]], tb' as [t' [f' a' b' ph']].
  unfold envelope_of. simpl. by intros [= -> -> -> ->] ->.
Qed.

(** The phase that a pass stores is the same in two partials of the same
    length, and the other phases stay. *)
Lemma stored_phase_stamp_same ph (k : nat) st st' p q i :
  length (breakpoints p) = length (breakpoints q) -> Z.to_nat i = k ->
  stored_phase
    (with_state st
       (with_breakpoints
          (alter (fun tb => (tb.1, set_phase ph tb.2)) k (breakpoints p)) p)) i
  = stored_phase
      (with_state st'
         (with_breakpoints
            (alter (fun tb => (tb.1, set_phase ph tb.2)) k (breakpoints q)) q)) i.
Proof.
  intros Hlen <-. unfold stored_phase, breakpoint_at. simpl.
  rewrite !list_lookup_alter_eq.
  destruct (breakpoints p !! Z.to_nat i) as [tb|] eqn:Hp,
           (breakpoints q !! Z.to_nat i) as [tb'|] eqn:Hq; simpl; try done.
  - apply lookup_lt_Some in Hp. apply lookup_ge_None in Hq. lia.
  - apply lookup_lt_Some in Hq. apply lookup_ge_None in Hp. lia.
Qed.

Lemma stored_phase_stamp_other ph (k : nat) st p i :
  Z.to_nat i <> k ->
  stored_phase
    (with_state st
       (with_breakpoints
          (alter (fun tb => (tb.1, set_phase ph tb.2)) k (breakpoints p)) p)) i
  = stored_phase p i.
Proof.
  intros Hne. unfold stored_phase, breakpoint_at. simpl.
  by rewrite list_lookup_alter_ne.
Qed.

(** A pass on two partials that are awake: the same samples, the same
    oscillator, and partials that are awake. *)
Lemma segment_replay srate oneOver samples l q :
  loop_inv l -> awake (loop_p l) q -> amp_inv l ->
  exists q1,
    segment srate oneOver samples
      (mkLoop (loop_i l) (sampleCounter l) (buffer_pos l) q (window l) (loop_osc l))
    = (let r := segment srate oneOver samples l in
       (mkLoop (loop_i r.1) (sampleCounter r.1) (buffer_pos r.1) q1 (window r.1)
          (loop_osc r.1), r.2))
    /\ awake (loop_p (segment srate oneOver samples l).1) q1
    /\ amp_inv (segment srate oneOver samples l).1.
Proof.
  intros Hinv ((Hshape & Hph) & Hst & Hlast) (Hlast0 & Hamp).
  unfold loop_inv in Hinv.
  assert (Hspan : span srate
                    (mkLoop (loop_i l) (sampleCounter l) (buffer_pos l) q (window l)
                       (loop_osc l)) = span srate l).
  { unfold span. simpl. by rewrite <- (shape_time _ _ _ Hshape), <- Hst. }
  unfold segment. cbn [loop_p loop_i sampleCounter buffer_pos window loop_osc].
  rewrite Hspan.
  set (over := sampleCounter l + span srate l >? samples).
  set (sd := if over then span srate l - (sampleCounter l + span srate l - samples)
             else span srate l).
  set (i' := if over then loop_i l - 1 else loop_i l).
  assert (Hi' : 0 <= i'
                /\ (Qis_zero (amplitude (loop_osc l)) = true ->
                    stored_phase (loop_p l) i' = stored_phase q i')).
  { subst i'. destruct over.
    - replace (loop_i l - 1) with (lastBreakpointIdx (state (loop_p l))) by lia.
      split; [done|]. by intros _.
    - split; [lia|]. intros Hz. apply Hph; [lia|].
      unfold readable. apply orb_true_iff. right.
      replace (loop_i l - 1) with (lastBreakpointIdx (state (loop_p l))) by lia.
      by apply Hamp. }
  destruct Hi' as [Hi0 Hread].
  pose proof (shape_envelope _ _ i' Hshape) as Henv.
  pose proof (envelope_set_phase _ _ Henv) as Hbq.
  assert (Hf : _frequency (breakpoint_at q i').2 = _frequency (breakpoint_at (loop_p l) i').2)
    by (rewrite Hbq; reflexivity).
  assert (Hreset : phase_reset oneOver (state q) (breakpoint_at q i').2 sd (loop_osc l)
                   = phase_reset oneOver (state (loop_p l))
                       (breakpoint_at (loop_p l) i').2 sd (loop_osc l)).
  { unfold phase_reset. rewrite <- Hst, Hf.
    destruct (Qis_zero (amplitude (loop_osc l))) eqn:Hz; [|done].
    specialize (Hread eq_refl). unfold stored_phase in Hread. by rewrite Hread. }
  rewrite Hreset.
  set (osc1 := match phase_reset oneOver (state (loop_p l))
                       (breakpoint_at (loop_p l) i').2 sd (loop_osc l) with
               | Some ph => setPhase ph (loop_osc l)
               | None => loop_osc l
               end).
  replace (oscillate sd (breakpoint_at q i').2 srate osc1)
    with (oscillate sd (breakpoint_at (loop_p l) i').2 srate osc1)
    by (rewrite Hbq; symmetry; apply oscillate_any_phase).
  pose proof (silent_target sd (breakpoint_at (loop_p l) i').2 srate osc1) as Hsilent.
  destruct (oscillate sd (breakpoint_at (loop_p l) i').2 srate osc1) as [osc2 ys].
  cbn [fst snd] in *.
  eexists. split; [reflexivity|].
  cbn [loop_p loop_osc].
  pose proof (shape_length _ _ Hshape) as Hlen.
  split; [split; [split|split]|split].
  - rewrite !shape_with_state, !shape_alter_phase. exact Hshape.
  - intros i Hi Hr.
    destruct (decide (Z.to_nat i = Z.to_nat i')) as [Heq|Hne].
    + by apply stored_phase_stamp_same.
    + rewrite !stored_phase_stamp_other by done.
      apply Hph; [done|].
      rewrite <- Hr. apply readable_shape.
      by rewrite shape_with_state, shape_alter_phase.
  - cbn [state with_state]. by rewrite Hst, Hf.
  - cbn [state with_state lastBreakpointIdx].
    by apply stored_phase_stamp_same.
  - cbn [loop_p loop_osc state with_state lastBreakpointIdx]. done.
  - cbn [loop_p loop_osc state with_state lastBreakpointIdx]. intros Hz.
    specialize (Hsilent Hz).
    match goal with
    | |- Qis_zero (_amplitude (breakpoint_at ?p1 i').2) = true =>
        pose proof (shape_envelope p1 (loop_p l) i') as He
    end.
    rewrite shape_with_state, shape_alter_phase in He. specialize (He eq_refl).
    unfold envelope_of in He. injection He as _ _ Ha _. by rewrite Ha.
Qed.

Lemma segments_replay fuel srate oneOver samples l q :
  loop_inv l -> awake (loop_p l) q -> amp_inv l ->
  exists q1,
    segments fuel srate oneOver samples
      (mkLoop (loop_i l) (sampleCounter l) (buffer_pos l) q (window l) (loop_osc l))
    = (let r := segments fuel srate oneOver samples l in
       mkLoop (loop_i r) (sampleCounter r) (buffer_pos r) q1 (window r) (loop_osc r))
    /\ awake (loop_p (segments fuel srate oneOver samples l)) q1
    /\ amp_inv (segments fuel srate oneOver samples l).
Proof.
  revert l q. induction fuel as [|fuel IH]; intros l q Hinv Haw Hamp.
  - exists q. simpl. done.
  - cbn [segments loop_i loop_p].
    destruct (shape_fields _ _ (proj1 (proj1 Haw))) as [_ Hn]. rewrite <- Hn.
    destruct (loop_i l <? numBreakpoints (loop_p l)); [|by exists q].
    destruct (segment_replay srate oneOver samples l q Hinv Haw Hamp)
      as (q1 & Heq & Haw1 & Hamp1).
    rewrite Heq.
    pose proof (segment_keeps_inv srate oneOver samples l) as Hkeep.
    destruct (segment srate oneOver samples l) as [l1 brk]. cbn [fst snd] in *.
    destruct brk; [by exists q1|].
    destruct (Hkeep eq_refl) as [_ Hinv1].
    exact (IH (next_i l1) q1 Hinv1 Haw1 Hamp1).
Qed.

Lemma agree_with_state st st' p q :
  agree p q -> agree (with_state st p) (with_state st' q).
Proof.
  intros [Hs Hph]. split; [by rewrite !shape_with_state|]. exact Hph.
Qed.

Lemma awake_agree p q : awake p q -> agree p q.
Proof. by intros [H _]. Qed.

Lemma awake_fields p q :
  awake p q ->
  startTime p = startTime q /\ numBreakpoints p = numBreakpoints q
  /\ state p = state q.
Proof.
  intros ((Hs & _) & Hst & _). destruct (shape_fields _ _ Hs). done.
Qed.

Lemma awake_with_envelope e p q :
  awake p q -> awake (with_envelope e p) (with_envelope e q).
Proof.
  intros (Hag & Hst & Hlast). unfold with_envelope. rewrite <- Hst.
  split; [by apply agree_with_state|]. split; [done|]. exact Hlast.
Qed.

(** [synthesize] on two partials that are awake. *)
Lemma synthesize_replay srate oneOver p q (d : list Q) samples (osc : Osc) :
  awake p q -> env_inv p ->
  exists q1,
    synthesize srate oneOver q d samples osc
    = (let r := synthesize srate oneOver p d samples osc in (q1, r.1.2, r.2))
    /\ awake (synthesize srate oneOver p d samples osc).1.1 q1
    /\ env_inv (synthesize srate oneOver p d samples osc).1.1.
Proof.
  intros Haw Henv. destruct (awake_fields p q Haw) as (Hs & Hn & Hst).
  unfold synthesize, rejected, finished. rewrite <- Hs, <- Hn, <- Hst.
  destruct (_ || _); [by exists q|].
  destruct (_ >=? _); [by exists q|].
  set (osc0 := if lastBreakpointIdx (state p) =? NoBreakpointProcessed
               then resetEnvelopes (envelope (state p)) srate osc
               else restoreEnvelopes (envelope (state p)) osc).
  set (l := mkLoop (lastBreakpointIdx (state p) + 1) 0 0 p d osc0).
  assert (Hamp : amp_inv l).
  { destruct Henv as [H0 Hz]. split; [done|]. intros Ha. apply Hz.
    subst l osc0. cbn [loop_osc] in Ha.
    destruct (_ =? _); [by eapply silent_reset | by eapply silent_restore]. }
  destruct (segments_replay
              (Z.to_nat (numBreakpoints p - (lastBreakpointIdx (state p) + 1)))
              srate oneOver samples l q (loop_inv_first p d osc0) Haw Hamp)
    as (q1 & Heq & Haw1 & Hamp1).
  change (mkLoop (loop_i l) (sampleCounter l) (buffer_pos l) q (window l) (loop_osc l))
    with (mkLoop (lastBreakpointIdx (state p) + 1) 0 0 q d osc0) in Heq.
  rewrite Heq. cbn [loop_p window loop_osc fst snd].
  set (r := segments _ srate oneOver samples l) in *.
  exists (with_envelope (envelopes (loop_osc r)) q1).
  split; [done|]. split; [by apply awake_with_envelope|].
  destruct Hamp1 as [H0 Hz]. split; [done|].
  cbn [with_envelope state with_state envelope lastBreakpointIdx].
  intros Ha. apply silent_snapshot in Ha. exact (Hz Ha).
Qed.

End ReplayPartial.

(** ** The session *)

Section ReplaySession.
Context {Osc : Type} {osc_ops : RealtimeOscillator Osc}
  {reads : TargetSetsAmplitude Osc}
  {null_ops : BreakpointUtils} {target : Target}.
Implicit Types (s t : RealTimeSynthesizer Osc) (p q : PartialStruct).

Ltac replaying_rest H :=
  unfold set_osc, set_buffer, set_queue, set_partialIdx, set_processedSamples,
    set_partials in *;
  simpl in *; injection H; intros; congruence.

Lemma replaying_fields s t :
  replaying s t ->
  m_osc s = m_osc t /\ m_srateHz s = m_srateHz t
  /\ OneOverSrate s = OneOverSrate t /\ partialIdx s = partialIdx t
  /\ processedSamples s = processedSamples t
  /\ partialsBeingProcessed s = partialsBeingProcessed t
  /\ buffer s = buffer t /\ length (partials s) = length (partials t).
Proof.
  intros [Hrest Hag _]. unfold set_partials in Hrest.
  injection Hrest as H1 H2 H3 H4 H5 H6 H7 H8 H9.
  pose proof (Forall2_length _ _ _ Hag). done.
Qed.

Lemma agree_refl p : agree p p.
Proof. by split. Qed.

Lemma replaying_agree s t (j : nat) :
  replaying s t -> agree (partial_at s j) (partial_at t j).
Proof.
  intros [_ Hag _]. unfold partial_at.
  destruct (partials s !! j) as [p|] eqn:Hp.
  - destruct (Forall2_lookup_l _ _ _ j p Hag Hp) as (q & -> & Hpq). exact Hpq.
  - apply lookup_ge_None in Hp. rewrite (Forall2_length _ _ _ Hag) in Hp.
    apply lookup_ge_None in Hp. rewrite Hp. apply agree_refl.
Qed.

Lemma replaying_insert (j : nat) p q s t :
  replaying s t -> agree p q ->
  (j ∈ partialsBeingProcessed s -> awake p q /\ env_inv p) ->
  replaying (set_partials (<[j := p]> (partials s)) s)
    (set_partials (<[j := q]> (partials t)) t).
Proof.
  intros Hst Hpq Hj.
  destruct (replaying_fields s t Hst) as (? & ? & ? & ? & ? & ? & ? & Hlen).
  destruct Hst as [Hrest Hag Haw].
  constructor.
  - exact Hrest.
  - simpl. by apply Forall2_insert.
  - simpl. intros i Hi. unfold partial_at. simpl.
    destruct (decide (i = j)) as [->|Hne].
    + destruct (decide (j < length (partials s))%nat) as [Hlt|Hge].
      * rewrite !list_lookup_insert_eq by lia. simpl. by apply Hj.
      * rewrite !list_insert_ge by lia. by apply Haw.
    + rewrite !list_lookup_insert_ne by done. by apply Haw.
Qed.

Lemma replaying_queue (q : list nat) s t :
  replaying s t -> (forall j, j ∈ q -> j ∈ partialsBeingProcessed s) ->
  replaying (set_queue q s) (set_queue q t).
Proof.
  intros Hst Hq.
  destruct (replaying_fields s t Hst) as (? & ? & ? & ? & ? & ? & ? & Hlen).
  destruct Hst as [Hrest Hag Haw].
  constructor; [replaying_rest Hrest|done|].
  simpl. intros i Hi. by apply Haw, Hq.
Qed.

Lemma synthesize_at_replay (j : nat) samples s t :
  replaying s t -> awake (partial_at s j) (partial_at t j) ->
  env_inv (partial_at s j) ->
  replaying (synthesize_at j samples s) (synthesize_at j samples t)
  /\ awake (partial_at (synthesize_at j samples s) j)
       (partial_at (synthesize_at j samples t) j)
  /\ env_inv (partial_at (synthesize_at j samples s) j).
Proof.
  intros Hst Haw Henv.
  destruct (replaying_fields s t Hst) as (Ho & Hr & H1 & Hi & Hp & Hq & Hb & Hlen).
  unfold synthesize_at. rewrite <- Ho, <- Hr, <- H1, <- Hb.
  destruct (synthesize_replay (m_srateHz s) (OneOverSrate s) (partial_at s j)
              (partial_at t j) (cells (buffer s)) samples (m_osc s) Haw Henv)
    as (q1 & Heq & Haw1 & Henv1).
  rewrite Heq.
  destruct (synthesize _ _ (partial_at s j) _ _ _) as [[p1 d1] o1].
  cbn [fst snd] in *.
  pose proof (replaying_insert j p1 q1 s t Hst (awake_agree _ _ Haw1)
                (fun _ => conj Haw1 Henv1)) as [Hrest' Hag' Haw'].
  split; [constructor|].
  - replaying_rest Hrest'.
  - exact Hag'.
  - exact Haw'.
  - unfold partial_at in *. simpl.
    destruct (decide (j < length (partials s))%nat) as [Hlt|Hge].
    + rewrite !list_lookup_insert_eq by lia. done.
    + rewrite !list_insert_ge by lia. done.
Qed.

Lemma unfinished_awake p q : awake p q -> unfinished q = unfinished p.
Proof.
  intros (_ & Hn & Hst)%awake_fields. unfold unfinished. by rewrite Hn, Hst.
Qed.

Lemma resume_replay size samples s t :
  replaying s t -> replaying (resume size samples s) (resume size samples t).
Proof.
  revert s t. induction size as [|size IH]; intros s t Hst; simpl; [done|].
  destruct (replaying_fields s t Hst) as (_ & _ & _ & _ & _ & Hq & _).
  rewrite <- Hq.
  destruct (partialsBeingProcessed s) as [|j rest] eqn:Hqs; [done|].
  assert (Hj : j ∈ partialsBeingProcessed s)
    by (rewrite Hqs; apply elem_of_cons; by left).
  destruct (rp_awake s t Hst j Hj) as [Haw Henv].
  destruct (synthesize_at_replay j samples s t Hst Haw Henv) as (Hst1 & Haw1 & Henv1).
  rewrite (unfinished_awake _ _ Haw1).
  pose proof (synthesize_at_cursors j samples s) as (_ & _ & Hq1 & _).
  apply IH. apply replaying_queue; [done|].
  intros i Hi. rewrite Hq1, Hqs. destruct (unfinished _).
  - apply elem_of_app in Hi as [Hi|Hi]; [apply elem_of_cons; by right|].
    apply list_elem_of_singleton in Hi as ->. apply elem_of_cons. by left.
  - apply elem_of_cons. by right.
Qed.

Lemma agree_start_sample srate p q :
  agree p q -> start_sample srate q = start_sample srate p.
Proof.
  intros [Hs _]. destruct (shape_fields _ _ Hs) as [H _].
  unfold start_sample. by rewrite H.
Qed.

Lemma agree_with_currentSamp c p q :
  agree p q -> agree (with_currentSamp c p) (with_currentSamp c q).
Proof. apply agree_with_state. Qed.

Lemma awake_with_currentSamp c p q :
  awake p q -> awake (with_currentSamp c p) (with_currentSamp c q).
Proof.
  intros (Hag & Hst & Hlast). unfold with_currentSamp. rewrite <- Hst.
  split; [by apply agree_with_state|]. split; [done|]. exact Hlast.
Qed.

Lemma env_inv_with_currentSamp c p : env_inv p -> env_inv (with_currentSamp c p).
Proof. by intros H. Qed.

(** A partial whose turn has come is awake, whatever its state was. *)
Lemma awake_activated p q :
  agree p q -> currentSamp (state p) = currentSamp (state q) ->
  awake (activated p) (activated q) /\ env_inv (activated p).
Proof.
  intros [Hs Hph] Hst.
  pose proof (Hph 0 ltac:(lia) eq_refl) as H0. unfold stored_phase in H0.
  pose proof (envelope_eq _ _ (shape_envelope p q 0 Hs) H0) as Hb0.
  pose proof (shape_envelope p q 1 Hs) as Hb1.
  assert (Hf : _frequency (breakpoint_at p 1).2 = _frequency (breakpoint_at q 1).2)
    by (unfold envelope_of in Hb1; by injection Hb1 as _ -> _ _).
  unfold activated. rewrite <- Hst, <- Hb0, <- Hf.
  split; [split; [by apply agree_with_state|split; [done|]]|].
  - cbn [state with_state lastBreakpointIdx]. exact H0.
  - split; [done|]. cbn [state with_state lastBreakpointIdx envelope]. done.
Qed.

Lemma activate_replay fuel samples s t :
  replaying s t -> replaying (activate fuel samples s) (activate fuel samples t).
Proof.
  revert s t. induction fuel as [|fuel IH]; intros s t Hst; simpl; [done|].
  destruct (replaying_fields s t Hst) as (Ho & Hr & H1 & Hi & Hp & Hq & Hb & Hlen).
  rewrite <- Hi, <- Hlen, <- Hr, <- Hp.
  destruct (partialIdx s <? Z.of_nat (length (partials s))); [|done].
  set (j := Z.to_nat (partialIdx s)) in *.
  pose proof (replaying_agree s t j Hst) as Hag.
  rewrite (agree_start_sample (m_srateHz s) _ _ Hag).
  set (c := start_sample (m_srateHz s) (partial_at s j)).
  simpl. destruct (c >? processedSamples s).
  - apply replaying_insert; [done|by apply agree_with_currentSamp|].
    intros Hj. destruct (rp_awake s t Hst j Hj) as [Haw Henv].
    split; [by apply awake_with_currentSamp|done].
  - destruct (awake_activated (with_currentSamp c (partial_at s j))
                (with_currentSamp c (partial_at t j)))
      as [HawA HenvA].
    { by apply agree_with_currentSamp. }
    { done. }
    set (a := activated (with_currentSamp c (partial_at s j))) in *.
    set (b := activated (with_currentSamp c (partial_at t j))) in *.
    pose proof (replaying_insert j a b s t Hst (awake_agree _ _ HawA)
                  (fun _ => conj HawA HenvA)) as HstA.
    set (sA := set_partials (<[j := a]> (partials s)) s) in *.
    set (tA := set_partials (<[j := b]> (partials t)) t) in *.
    assert (Hawj : awake (partial_at sA j) (partial_at tA j) /\ env_inv (partial_at sA j)).
    { subst sA tA. unfold partial_at. simpl.
      destruct (decide (j < length (partials s))%nat) as [Hlt|Hge].
      - rewrite !list_lookup_insert_eq by lia. done.
      - rewrite !(proj2 (lookup_ge_None _ _)) by (rewrite length_insert; lia).
        simpl. split; [split; [apply agree_refl|done]|].
        split; [done|]. by intros _. }
    destruct Hawj as [Hawj Henvj].
    destruct (synthesize_at_replay j samples sA tA HstA Hawj Henvj)
      as (Hst1 & Haw1 & Henv1).
    rewrite (unfinished_awake _ _ Haw1).
    destruct (replaying_fields _ _ Hst1) as (_ & _ & _ & Hi1 & _ & Hq1 & _).
    rewrite <- Hi1, <- Hq1.
    apply IH.
    set (s1 := synthesize_at j samples sA) in *.
    set (t1 := synthesize_at j samples tA) in *.
    set (q' := if unfinished (partial_at s1 j)
               then partialsBeingProcessed s1 ++ [j]
               else partialsBeingProcessed s1).
    assert (Hq' : replaying (set_queue q' s1) (set_queue q' t1)).
    { destruct (replaying_fields _ _ Hst1) as (? & ? & ? & ? & ? & ? & ? & ?).
      destruct Hst1 as [Hrest1 Hag1 Hawq1].
      constructor; [replaying_rest Hrest1|done|].
      simpl. intros i Hi'. subst q'. destruct (unfinished _).
      - apply elem_of_app in Hi' as [Hi'|Hi']; [by apply Hawq1|].
        apply list_elem_of_singleton in Hi' as ->. done.
      - by apply Hawq1. }
    destruct (replaying_fields _ _ Hq') as (? & ? & ? & ? & ? & ? & ? & ?).
    destruct Hq' as [Hrest2 Hag2 Hawq2].
    constructor; [replaying_rest Hrest2|done|done].
Qed.

Lemma synthesizeNext_replay (n : Z) s t :
  replaying s t ->
  replaying (synthesizeNext n s) (synthesizeNext n t)
  /\ block n (synthesizeNext n s) = block n (synthesizeNext n t).
Proof.
  intros Hst.
  destruct (replaying_fields s t Hst) as (Ho & Hr & H1 & Hi & Hp & Hq & Hb & Hlen).
  assert (H : replaying (synthesizeNext n s) (synthesizeNext n t)).
  { unfold synthesizeNext.
    set (s2 := set_buffer _ (set_processedSamples _ s)).
    set (t2 := set_buffer _ (set_processedSamples _ t)).
    assert (Hst2 : replaying s2 t2).
    { destruct Hst as [Hrest Hag Haw]. subst s2 t2.
      constructor; [|done|done].
      replaying_rest Hrest. }
    assert (Hq2 : partialsBeingProcessed t2 = partialsBeingProcessed s2)
      by (symmetry; exact Hq).
    rewrite Hq2.
    pose proof (resume_replay (length (partialsBeingProcessed s2)) n s2 t2 Hst2) as Hst3.
    set (s3 := resume _ n s2) in *. set (t3 := resume _ n t2) in *.
    destruct (replaying_fields _ _ Hst3) as (_ & _ & _ & Hi3 & _ & _ & _ & Hlen3).
    rewrite <- Hi3, <- Hlen3. by apply activate_replay. }
  split; [done|].
  destruct (replaying_fields _ _ H) as (_ & _ & _ & _ & _ & _ & Hb' & _).
  unfold block. by rewrite Hb'.
Qed.

Lemma render_replay (sizes : list Z) s t :
  replaying s t -> (render sizes s).1 = (render sizes t).1.
Proof.
  revert s t. induction sizes as [|n sizes IH]; intros s t Hst; simpl; [done|].
  destruct (synthesizeNext_replay n s t Hst) as (Hst1 & Hb1).
  specialize (IH _ _ Hst1).
  destruct (render sizes (synthesizeNext n s)) as [out s2].
  destruct (render sizes (synthesizeNext n t)) as [out' t2].
  simpl in *. congruence.
Qed.

End ReplaySession.

(** ** [reset] and the same calls again *)

Section ResetReplay.
Context {Osc : Type} {osc_ops : RealtimeOscillator Osc}
  {osc_laws : EnvelopeIsState Osc} {reads : TargetSetsAmplitude Osc}
  {null_ops : BreakpointUtils} {target : Target}.
Implicit Types (s t : RealTimeSynthesizer Osc) (p q : PartialStruct).

Lemma agree_of_read_phases p q :
  shape p = shape q -> read_phases p = read_phases q -> agree p q.
Proof.
  intros Hs Hr. split; [done|]. intros i Hi Hread.
  pose proof (shape_length _ _ Hs) as Hlen.
  apply (f_equal (fun l => l !! Z.to_nat i)) in Hr.
  unfold read_phases in Hr. rewrite !list_lookup_imap in Hr.
  rewrite Z2Nat.id in Hr by done.
  rewrite <- (readable_shape p q i Hs), Hread in Hr.
  unfold stored_phase, breakpoint_at.
  destruct (breakpoints p !! Z.to_nat i) as [tb|] eqn:Hp,
           (breakpoints q !! Z.to_nat i) as [tb'|] eqn:Hq;
    simpl in *; congruence.
Qed.

Lemma agree_of_all_read_phases (ps qs : list PartialStruct) :
  shape <$> ps = shape <$> qs -> read_phases <$> ps = read_phases <$> qs ->
  Forall2 agree ps qs.
Proof.
  revert qs. induction ps as [|p ps IH]; intros [|q qs] Hs Hr;
    try discriminate; [constructor|].
  rewrite !fmap_cons in *.
  assert (Hs1 : shape p = shape q)
    by (apply (f_equal head) in Hs; simpl in Hs; congruence).
  assert (Hs2 : shape <$> ps = shape <$> qs)
    by (apply (f_equal tail) in Hs; exact Hs).
  assert (Hr1 : read_phases p = read_phases q)
    by (apply (f_equal head) in Hr; simpl in Hr; congruence).
  assert (Hr2 : read_phases <$> ps = read_phases <$> qs)
    by (apply (f_equal tail) in Hr; exact Hr).
  constructor; [by apply agree_of_read_phases|by apply IH].
Qed.

(** C3, as the code has it.  Rendering stores the phase of the oscillator
    in the breakpoints, and [reset] leaves them as they are.  A replay
    reads the stored phase of the first breakpoint of a partial and of
    every breakpoint that follows a breakpoint of amplitude zero.  When
    these phases are after the calls what they were before, whatever the
    calls have stored in the other breakpoints, [reset] and the same calls
    again give the same blocks. *)
Theorem reset_replays (ps : PartialList) (pitch0 : Q) s (sizes : list Z) :
  4 <= sizeof_float_ptr <= 8 ->
  Forall (fun n => 0 <= n < 2 ^ 31) sizes ->
  buffer_ok (buffer s) ->
  read_phases <$> partials (render sizes (setup ps pitch0 s)).2
  = read_phases <$> partials (setup ps pitch0 s) ->
  (render sizes (reset (render sizes (setup ps pitch0 s)).2)).1
  = (render sizes (setup ps pitch0 s)).1.
Proof.
  intros Hptr Hs Hok Hb.
  set (s0 := setup ps pitch0 s) in *.
  pose proof (render_config sizes s0) as Hc. unfold config in Hc.
  injection Hc as Hrate Hone _ _ Hshape.
  destruct (render_buffer_ok sizes s0 Hs Hptr Hok) as [Hok1 Hv1].
  transitivity (render sizes (set_partials (partials (render sizes s0).2) s0)).1.
  - apply render_same; [done|done|].
    constructor; simpl; done.
  - apply render_replay. constructor.
    + reflexivity.
    + simpl. by apply agree_of_all_read_phases.
    + simpl. intros j Hj. by apply elem_of_nil in Hj.
Qed.

End ResetReplay.

Lemma ramp_target_sets_amplitude : TargetSetsAmplitude Ramp.
Proof.
  split.
  - reflexivity.
  - intros e sr o H. exact H.
  - intros e o H. exact H.
  - intros o H. exact H.
  - intros n bp sr o H. exact H.
Qed.

(** After a call that ends inside the first segment the first breakpoint
    holds the phase of the oscillator at the end of the call, and the
    replay after [reset] starts from that phase. *)
Lemma reset_replay_differs :
  let s0 := setup [Examples.tone] 1 Examples.synth0 in
  let r := render (target := lp64) [3] s0 in
  breakpoints <$> partials r.2 <> breakpoints <$> partials s0
  /\ read_phases <$> partials r.2 <> read_phases <$> partials s0
  /\ (render (target := lp64) [3] (reset r.2)).1 <> r.1.
Proof. vm_compute. repeat split; discriminate. Qed.

(** The calls [2; 5; 1] on the partial [tone] overwrite the phases of the
    breakpoints at 2 s and at 2.5 s, which a replay does not read. *)
Lemma reset_replays_witness :
  let s0 := setup [Examples.tone] 1 Examples.synth0 in
  let r := render (target := lp64) [2; 5; 1] s0 in
  breakpoints <$> partials r.2 <> breakpoints <$> partials s0
  /\ (render (target := lp64) [2; 5; 1] (reset r.2)).1 = r.1.
Proof.
  split; [vm_compute; discriminate|].
  apply (reset_replays (osc_laws := ramp_envelope_is_state)
           (reads := ramp_target_sets_amplitude) (target := lp64)
           [Examples.tone] 1 Examples.synth0 [2; 5; 1]).
  - vm_compute. split; discriminate.
  - repeat constructor; vm_compute; congruence.
  - vm_compute. split; discriminate.
  - vm_compute. reflexivity.
Defined.
